(** * The canvas jumping game of [index.js]: model and verified properties

    The simulation core of the game (physics, spawning, pooling, collision,
    scoring, high-score persistence) is embedded as pure functions over an
    explicit [Game] state that gathers the module-level variables of the
    script.  Rendering ([render]) and canvas sizing ([resizeCanvas]) do not
    change that state; they are modelled by what they write: the calls on
    the 2D context, the two HUD labels, the sizes of the canvas.  The
    event listeners are the constructors of [Event].

    Numbers.  JavaScript numbers are idealised as exact rationals ([Q]):
    rounding, infinities and overflow of IEEE doubles are outside the model.
    The one place where the script can produce [NaN] is [parseInt], so the
    high score has its own type [JSInt] with a [NaN] constructor.

    Objects.  Obstacles are mutable objects shared between the arrays
    [obstacles] and [obstaclePool]; they live in a [heap] indexed by
    location, and both arrays hold locations. *)

From Stdlib Require Import QArith Qround Qminmax ZArith Lia Lqa String Ascii List Bool.
From stdpp Require Import base list.

Local Open Scope Q_scope.

(** ** Numbers and comparisons *)

(** [a < b] as JavaScript evaluates it on numbers. *)
Definition Qltb (a b : Q) : bool := negb (Qle_bool b a).

(** An integer-valued JavaScript number, or [NaN]: the results of
    [parseInt] and of [Math.floor]. *)
Inductive JSInt : Type :=
  | NaN
  | Int (z : Z).

(** [a > h]; every comparison with [NaN] is false. *)
Definition gt_JSInt (a : Q) (h : JSInt) : bool :=
  match h with
  | NaN => false
  | Int z => Qltb (inject_Z z) a
  end.

(** ** Strings: [parseInt(s, 10)] and [String(n)] *)

(** White space skipped by [parseInt] (code units below 256): TAB, LF, VT,
    FF, CR, SP and NBSP. *)
Definition is_ws (c : ascii) : bool :=
  let n := N_of_ascii c in
  ((9 <=? n) && (n <=? 13) || (n =? 32) || (n =? 160))%N.

Fixpoint skip_ws (s : string) : string :=
  match s with
  | String c s' => if is_ws c then skip_ws s' else s
  | EmptyString => s
  end.

Definition digit_of (c : ascii) : option Z :=
  let n := N_of_ascii c in
  if ((48 <=? n) && (n <=? 57))%N then Some (Z.of_N n - 48)%Z else None.

(** Value of the longest prefix of decimal digits; [acc] is [None] while no
    digit has been read. *)
Fixpoint digits_acc (s : string) (acc : option Z) : option Z :=
  match s with
  | String c s' =>
      match digit_of c with
      | Some d => digits_acc s' (Some (10 * default 0 acc + d)%Z)
      | None => acc
      end
  | EmptyString => acc
  end.

(** [parseInt(s, 10)]: skip white space, read an optional sign, then the
    longest run of decimal digits; [NaN] when there is no digit. *)
Definition parseInt (s : string) : JSInt :=
  let s1 := skip_ws s in
  let '(sign, s2) :=
    match s1 with
    | String c r =>
        if Ascii.eqb c "-" then ((-1)%Z, r)
        else if Ascii.eqb c "+" then (1%Z, r)
        else (1%Z, s1)
    | EmptyString => (1%Z, s1)
    end in
  match digits_acc s2 None with
  | None => NaN
  | Some n => Int (sign * n)
  end.

(** Decimal digits of a natural number, most significant first.  [fuel]
    bounds the number of digits. *)
Fixpoint digits_of (fuel : nat) (n : N) (tail : string) : string :=
  match fuel with
  | O => tail
  | S fuel' =>
      let tail' := String (ascii_of_N (48 + n mod 10)) tail in
      if (n <? 10)%N then tail' else digits_of fuel' (n / 10) tail'
  end.

(** [String(n)] for an integer-valued number: its decimal digits, after a
    minus sign when negative.  This is what JavaScript prints for integers
    of absolute value up to [2^53]; above that it prints the shortest
    digits that read back as the same double, and from [10^21] on it uses
    exponent notation.  No score comes near that range. *)
Definition String_of_JSInt (h : JSInt) : string :=
  match h with
  | NaN => "NaN"
  | Int z =>
      let n := Z.abs_N z in
      let ds := digits_of (S (N.to_nat (N.log2 n))) n EmptyString in
      if (z <? 0)%Z then String "-" ds else ds
  end.

(** [parseInt(localStorage.getItem(highKey) || '0', 10)]: [getItem] gives
    [null] for an absent key, and both [null] and the empty string are
    falsy. *)
Definition loadHighScore (stored : option string) : JSInt :=
  parseInt
    match stored with
    | None => "0"
    | Some EmptyString => "0"
    | Some s => s
    end.

(** ** Game state *)

Definition baseW : Q := 800.
Definition baseH : Q := 400.
Definition gravity : Q := 1600.
Definition groundY : Q := baseH - 60.

Record Player : Type := mkPlayer {
  p_x : Q;
  p_y : Q;
  p_w : Q;
  p_h : Q;
  p_vy : Q;
  p_onGround : bool;
  p_color : string
}.

Record Obstacle : Type := mkObstacle {
  o_w : Q;
  o_h : Q;
  o_x : Q;
  o_y : Q;
  o_color : string;
  o_passed : bool
}.

(** Anything with [x], [y], [w], [h] can be given to [rectsOverlap]. *)
Class Rect (A : Type) : Type := {
  rx : A -> Q;
  ry : A -> Q;
  rw : A -> Q;
  rh : A -> Q
}.

#[export] Instance Player_Rect : Rect Player :=
  {| rx := p_x; ry := p_y; rw := p_w; rh := p_h |}.
#[export] Instance Obstacle_Rect : Rect Obstacle :=
  {| rx := o_x; ry := o_y; rw := o_w; rh := o_h |}.

(** Location of an obstacle object in the heap. *)
Abbreviation loc := nat.

Record Game : Type := mkGame {
  running : bool;
  lastTime : Q;
  spawnTimer : Q;
  score : Q;
  speed : Q;
  player : Player;
  heap : list Obstacle;
  obstacles : list loc;
  obstaclePool : list loc;
  highScore : JSInt;
  storage : option string   (* localStorage[highKey] *)
}.

(** The successive results of [Math.random()] that one tick may consume:
    the narrow/wide coin, the width, the height, the spawn interval. *)
Record Draws : Type := mkDraws {
  coin : Q;
  wdraw : Q;
  hdraw : Q;
  gapdraw : Q
}.

(** [Math.random()] returns a number in [[0, 1)]. *)
Definition unit_draw (r : Q) : Prop := 0 <= r /\ r < 1.

Definition valid_draws (d : Draws) : Prop :=
  unit_draw (coin d) /\ unit_draw (wdraw d) /\ unit_draw (hdraw d) /\
  unit_draw (gapdraw d).

(** State at the end of the script's top level, before any event. *)
Definition init (stored : option string) : Game :=
  {| running := false;
     lastTime := 0;
     spawnTimer := 0;
     score := 0;
     speed := 240;
     player := {| p_x := 80; p_y := groundY; p_w := 40; p_h := 40;
                  p_vy := 0; p_onGround := true; p_color := "#ffd54a" |};
     heap := [];
     obstacles := [];
     obstaclePool := [];
     highScore := loadHighScore stored;
     storage := stored |}.

(** *** Field updates *)

Definition set_player (p : Player) (g : Game) : Game :=
  mkGame (running g) (lastTime g) (spawnTimer g) (score g) (speed g) p
         (heap g) (obstacles g) (obstaclePool g) (highScore g) (storage g).

Definition set_spawnTimer (t : Q) (g : Game) : Game :=
  mkGame (running g) (lastTime g) t (score g) (speed g) (player g)
         (heap g) (obstacles g) (obstaclePool g) (highScore g) (storage g).

Definition set_score (s : Q) (g : Game) : Game :=
  mkGame (running g) (lastTime g) (spawnTimer g) s (speed g) (player g)
         (heap g) (obstacles g) (obstaclePool g) (highScore g) (storage g).

Definition set_heap (h : list Obstacle) (g : Game) : Game :=
  mkGame (running g) (lastTime g) (spawnTimer g) (score g) (speed g) (player g)
         h (obstacles g) (obstaclePool g) (highScore g) (storage g).

Definition set_lists (obs pool : list loc) (g : Game) : Game :=
  mkGame (running g) (lastTime g) (spawnTimer g) (score g) (speed g) (player g)
         (heap g) obs pool (highScore g) (storage g).

Definition set_x (x : Q) (ob : Obstacle) : Obstacle :=
  mkObstacle (o_w ob) (o_h ob) x (o_y ob) (o_color ob) (o_passed ob).

Definition set_passed (b : bool) (ob : Obstacle) : Obstacle :=
  mkObstacle (o_w ob) (o_h ob) (o_x ob) (o_y ob) (o_color ob) b.

(** ** Helpers *)

(** [rand(min, max)], given the result [r] of [Math.random()]. *)
Definition rand (r min max : Q) : Q := r * (max - min) + min.

(** [Array.prototype.pop]: the last element and the array without it. *)
Definition pop {A : Type} (l : list A) : option (A * list A) :=
  match last l with
  | Some a => Some (a, removelast l)
  | None => None
  end.

(** [spawnObstacle]: reuse the object on top of the pool or allocate a new
    one, set every field, push it on [obstacles]. *)
Definition spawnObstacle (d : Draws) (g : Game) : Game :=
  let w := if Qltb (coin d) 0.4 then 20 + wdraw d * 20 else 30 + wdraw d * 40 in
  let h := 20 + hdraw d * 40 in
  let ob := {| o_w := w; o_h := h; o_x := baseW + 20;
               o_y := groundY + (p_h (player g) - h);
               o_color := "#ef5350"; o_passed := false |} in
  match pop (obstaclePool g) with
  | Some (l, pool') =>
      set_lists (obstacles g ++ [l]) pool' (set_heap (<[l := ob]> (heap g)) g)
  | None =>
      set_lists (obstacles g ++ [length (heap g)]) (obstaclePool g)
                (set_heap (heap g ++ [ob]) g)
  end.

(** [gameOver]: stop the run; record and persist a new high score. *)
Definition gameOver (g : Game) : Game :=
  if gt_JSInt (score g) (highScore g) then
    let hs := Int (Qfloor (score g)) in
    mkGame false (lastTime g) (spawnTimer g) (score g) (speed g) (player g)
           (heap g) (obstacles g) (obstaclePool g) hs
           (Some (String_of_JSInt hs))
  else
    mkGame false (lastTime g) (spawnTimer g) (score g) (speed g) (player g)
           (heap g) (obstacles g) (obstaclePool g) (highScore g) (storage g).

(** [rectsOverlap(a, b)]. *)
Definition rectsOverlap {A B : Type} `{Rect A} `{Rect B} (a : A) (b : B) : bool :=
  Qltb (rx a) (rx b + rw b) && Qltb (rx b) (rx a + rw a) &&
  Qltb (ry a) (ry b + rh b) && Qltb (ry b) (ry a + rh a).

(** ** Main loop *)

(** Player physics of one tick (the block after [// Player physics]). *)
Definition stepPlayer (dt : Q) (p : Player) : Player :=
  let vy1 := p_vy p + gravity * dt in
  let y1 := p_y p + vy1 * dt in
  if Qle_bool groundY y1 then
    mkPlayer (p_x p) groundY (p_w p) (p_h p) 0 true (p_color p)
  else
    mkPlayer (p_x p) y1 (p_w p) (p_h p) vy1 (p_onGround p) (p_color p).

(** Body of the obstacle loop at index [i].  The two [None] branches stand
    for reading past the array or through a dangling reference; the loop
    never gets there ([i] is below the length, and active objects are
    allocated, see [pool_inv]). *)
Definition obst_body (dt : Q) (i : nat) (g : Game) : Game :=
  match obstacles g !! i with
  | None => g
  | Some l =>
      match heap g !! l with
      | None => g
      | Some ob =>
          let ob1 := set_x (o_x ob - speed g * dt) ob in
          let newly :=
            negb (o_passed ob1) && Qltb (o_x ob1 + o_w ob1) (p_x (player g)) in
          let ob2 := if newly then set_passed true ob1 else ob1 in
          let g1 :=
            set_score (if newly then score g + 5 else score g)
                      (set_heap (<[l := ob2]> (heap g)) g) in
          if Qltb (o_x ob2 + o_w ob2) (-40) then
            set_lists (delete i (obstacles g1)) (obstaclePool g1 ++ [l]) g1
          else if rectsOverlap (player g1) ob2 then gameOver g1
          else g1
      end
  end.

(** [for (let i = n - 1; i >= 0; i--) body]. *)
Fixpoint obst_loop (dt : Q) (n : nat) (g : Game) : Game :=
  match n with
  | O => g
  | S i => obst_loop dt i (obst_body dt i g)
  end.

(** The elapsed time of a tick, in seconds, clamped to the maximum step. *)
Definition tick_dt (now : Q) (g : Game) : Q :=
  Qmin ((now - lastTime g) / 1000) 0.033.

(** The part of [loop] before the obstacle loop: time, score, speed, spawn,
    player physics. *)
Definition loop_head (now : Q) (d : Draws) (g : Game) : Game :=
  let dt := tick_dt now g in
  let g1 :=
    mkGame (running g) now (spawnTimer g - dt) (score g + dt * 10)
           (speed g + dt * 2) (player g) (heap g) (obstacles g)
           (obstaclePool g) (highScore g) (storage g) in
  let g2 :=
    if Qle_bool (spawnTimer g1) 0 then
      set_spawnTimer (rand (gapdraw d) 0.9 1.6 - Qmin 0.5 (speed g1 / 1000))
                     (spawnObstacle d g1)
    else g1 in
  set_player (stepPlayer dt (player g2)) g2.

(** [loop(now)]: one animation frame. *)
Definition loop (now : Q) (d : Draws) (g : Game) : Game :=
  if negb (running g) then g
  else
    let g3 := loop_head now d g in
    obst_loop (tick_dt now g) (length (obstacles g3)) g3.

(** [resetGame], with [tnow] the result of [performance.now()]:
    [reset_state] is the state after its assignments, on which it runs the
    first frame itself. *)
Definition reset_state (tnow : Q) (g : Game) : Game :=
  mkGame true tnow 0 0 240
         (mkPlayer (p_x (player g)) groundY (p_w (player g)) (p_h (player g))
                   0 true (p_color (player g)))
         (heap g) [] [] (highScore g) (storage g).

Definition resetGame (tnow : Q) (d : Draws) (g : Game) : Game :=
  loop tnow d (reset_state tnow g).

(** [doJump]: start a run when idle, jump when on the ground. *)
Definition doJump (tnow : Q) (d : Draws) (g : Game) : Game :=
  if negb (running g) then resetGame tnow d g
  else if p_onGround (player g) then
    set_player (mkPlayer (p_x (player g)) (p_y (player g)) (p_w (player g))
                         (p_h (player g)) (-720) false (p_color (player g))) g
  else g.

(** ** Events and reachable states *)

(** What the browser can deliver: an animation frame, a jump input (key,
    mouse or touch), a restart (button or first interaction).  Each carries
    the clock value and random draws the handler may read. *)
Inductive Event : Type :=
  | Frame (now : Q) (d : Draws)
  | JumpInput (tnow : Q) (d : Draws)
  | Restart (tnow : Q) (d : Draws).

Definition handle (e : Event) (g : Game) : Game :=
  match e with
  | Frame now d => loop now d g
  | JumpInput tnow d => doJump tnow d g
  | Restart tnow d => resetGame tnow d g
  end.

Definition event_draws (e : Event) : Draws :=
  match e with
  | Frame _ d | JumpInput _ d | Restart _ d => d
  end.

Fixpoint run (es : list Event) (g : Game) : Game :=
  match es with
  | [] => g
  | e :: es' => run es' (handle e g)
  end.

Inductive reachable : Game -> Prop :=
  | reach_init stored : reachable (init stored)
  | reach_step e g :
      reachable g -> valid_draws (event_draws e) -> reachable (handle e g).


(** ** Canvas size and rendering *)

(** What [resizeCanvas] writes: the CSS size of the canvas (the numbers in
    front of ['px']), the size of its backing store, and the scale factor
    given to [setTransform]. *)
Record Canvas : Type := mkCanvas {
  style_width : Q;
  style_height : Q;
  c_width : Z;
  c_height : Z;
  c_transform : Q
}.

(** [Math.round]: the nearest integer, halves upwards. *)
Definition Math_round (x : Q) : Z := Qfloor (x + (1 # 2)).

(** [resizeCanvas], reading [devicePixelRatio], [window.innerWidth] and
    [window.innerHeight].  A ratio of [0] is falsy and replaced by [1]. *)
Definition resizeCanvas (devicePixelRatio innerWidth innerHeight : Q) : Canvas :=
  let ratio := if Qeq_bool devicePixelRatio 0 then 1 else devicePixelRatio in
  let maxW := Qmin (innerWidth - 40) baseW in
  let maxH := Qmin (innerHeight - 120) baseH in
  let scale := Qmin (Qmin (maxW / baseW) (maxH / baseH)) 1 in
  {| style_width := baseW * scale;
     style_height := baseH * scale;
     c_width := Math_round (baseW * ratio);
     c_height := Math_round (baseH * ratio);
     c_transform := ratio |}.

(** The calls [render] makes on the 2D context, in order; assignments to
    [fillStyle], [font] and [textAlign] are recorded as calls. *)
Inductive CanvasOp : Type :=
  | clearRect (x y w h : Q)
  | fillStyle (style : string)
  | fillRect (x y w h : Q)
  | font (f : string)
  | textAlign (a : string)
  | fillText (text : string) (x y : Q).

(** What [render] produces: the canvas calls and the two HUD labels. *)
Record Screen : Type := mkScreen {
  ops : list CanvasOp;
  scoreLabel : string;
  highLabel : string
}.

(** The loop [for (const ob of obstacles)] of [render]. *)
Definition draw_obstacles (g : Game) : list CanvasOp :=
  flat_map
    (fun l : loc =>
       match heap g !! l with
       | Some ob =>
           [fillStyle (o_color ob);
            fillRect (o_x ob) (o_y ob - o_h ob) (o_w ob) (o_h ob)]
       | None => []
       end)
    (obstacles g).

(** The overlay [render] adds when the game is not running. *)
Definition draw_overlay (g : Game) : list CanvasOp :=
  [fillStyle "rgba(0,0,0,0.45)";
   fillRect 0 0 baseW baseH;
   fillStyle "#fff";
   font "28px system-ui";
   textAlign "center";
   fillText "Jumping Game" (baseW / 2) (baseH / 2 - 20);
   font "18px system-ui";
   fillText "Press Space / Click / Tap to start and jump"
            (baseW / 2) (baseH / 2 + 10)] ++
  (if Qltb 0 (score g)
   then [fillText ("Final Score: " ++ String_of_JSInt (Int (Qfloor (score g))))
                  (baseW / 2) (baseH / 2 + 40)]
   else []) ++
  [textAlign "start"].

(** [render]. *)
Definition render (g : Game) : Screen :=
  let p := player g in
  {| ops :=
       [clearRect 0 0 baseW baseH;
        fillStyle "#2e7d32";
        fillRect 0 (groundY + p_h p) baseW (baseH - (groundY + p_h p));
        fillStyle "#1565c0";
        fillRect 0 0 baseW groundY;
        fillStyle (p_color p);
        fillRect (p_x p) (p_y p - p_h p) (p_w p) (p_h p);
        fillStyle "#0008";
        fillRect (p_x p + p_w p * 0.6) (p_y p - p_h p + 10) 6 6] ++
       draw_obstacles g ++
       (if negb (running g) then draw_overlay g else []);
     scoreLabel := "Score: " ++ String_of_JSInt (Int (Qfloor (score g)));
     highLabel := "High: " ++ String_of_JSInt (highScore g) |}.

(** ** Specification-side vocabulary *)

(** The interval to the next spawn, as [loop] computes it from the draw [r]
    and the current speed. *)
Definition spawn_interval (r spd : Q) : Q :=
  rand r 0.9 1.6 - Qmin 0.5 (spd / 1000).

(** Some character of [s] is a decimal digit. *)
Fixpoint has_digit (s : string) : bool :=
  match s with
  | String c s' =>
      match digit_of c with
      | Some _ => true
      | None => has_digit s'
      end
  | EmptyString => false
  end.

(** The fields that only the head of [loop] writes. *)
Definition same_env (g g' : Game) : Prop :=
  lastTime g' = lastTime g /\ spawnTimer g' = spawnTimer g /\
  speed g' = speed g /\ player g' = player g.

(** The loop body on one obstacle record: move it, then set its flag when it
    is newly behind the player's left edge [px]. *)
Definition moved (dt s : Q) (ob : Obstacle) : Obstacle :=
  set_x (o_x ob - s * dt) ob.

Definition newly_passed (dt s px : Q) (ob : Obstacle) : bool :=
  negb (o_passed ob) && Qltb (o_x (moved dt s ob) + o_w ob) px.

Definition visit_ob (dt s px : Q) (ob : Obstacle) : Obstacle :=
  if newly_passed dt s px ob then set_passed true (moved dt s ob)
  else moved dt s ob.

(** The loop body's test for recycling. *)
Definition off_screen (ob : Obstacle) : bool := Qltb (o_x ob + o_w ob) (-40).

(** Pool discipline: no object occurs twice in the two arrays taken
    together, and every object they hold is allocated. *)
Definition pool_inv (g : Game) : Prop :=
  NoDup (obstacles g ++ obstaclePool g) /\
  Forall (fun l => (l < length (heap g))%nat) (obstacles g ++ obstaclePool g).

(** A player flagged as on the ground rests on it. *)
Definition ground_inv (p : Player) : Prop :=
  p_onGround p = true -> p_y p = groundY /\ p_vy p = 0.

(** Exclusivity of the two arrays: no object twice in either, none in
    both. *)
Definition exclusive (g : Game) : Prop :=
  NoDup (obstacles g) /\ NoDup (obstaclePool g) /\
  forall l : loc, l ∈ obstacles g -> l ∉ obstaclePool g.

(** The player's box never changes size or abscissa. *)
Definition player_box (p : Player) : Prop :=
  p_x p = 80 /\ p_w p = 40 /\ p_h p = 40.

(** Sizes that [spawnObstacle] can give an obstacle. *)
Definition spawn_size (ob : Obstacle) : Prop :=
  20 <= o_w ob /\ o_w ob < 70 /\ 20 <= o_h ob /\ o_h ob < 60.

(** The in-memory high score agrees with what a reload would read from
    storage, and is bounded below by [h]. *)
Definition hs_synced (g : Game) : Prop :=
  loadHighScore (storage g) = highScore g.

Definition hs_at_least (h : Z) (g : Game) : Prop :=
  exists h' : Z, highScore g = Int h' /\ (h <= h')%Z /\ hs_synced g.

(** Flag of the object at [l]. *)
Definition passed_of (g : Game) (l : loc) : bool :=
  match heap g !! l with
  | Some ob => o_passed ob
  | None => false
  end.

(** The loop body's bonus test and recycling test for the object at [l], in
    the state [g] the obstacle loop starts from. *)
Definition newly_at (dt : Q) (g : Game) (l : loc) : bool :=
  match heap g !! l with
  | Some ob => newly_passed dt (speed g) (p_x (player g)) ob
  | None => false
  end.

Definition kept_at (dt : Q) (g : Game) (l : loc) : bool :=
  match heap g !! l with
  | Some ob => negb (off_screen (visit_ob dt (speed g) (p_x (player g)) ob))
  | None => true
  end.

(** The frame [loop now d] on [g] adds the pass bonus for the object [l]:
    the game is running, [l] is active when the obstacle loop starts, and
    the loop body's test succeeds on it. *)
Definition bonus_awarded (now : Q) (d : Draws) (g : Game) (l : loc) : bool :=
  running g &&
  bool_decide (l ∈ obstacles (loop_head now d g)) &&
  newly_at (tick_dt now g) (loop_head now d g) l.

(** The objects that get the bonus in that frame. *)
Definition awards (now : Q) (d : Draws) (g : Game) : list loc :=
  List.filter (bonus_awarded now d g) (obstacles (loop_head now d g)).

(** The frame that the handler of [e] runs, if any: its timestamp, its
    draws and the state it starts from. *)
Definition frame_of (e : Event) (g : Game) : option (Q * Draws * Game) :=
  match e with
  | Frame now d => Some (now, d, g)
  | JumpInput tnow d =>
      if negb (running g) then Some (tnow, d, reset_state tnow g) else None
  | Restart tnow d => Some (tnow, d, reset_state tnow g)
  end.

Definition award (e : Event) (g : Game) (l : loc) : bool :=
  match frame_of e g with
  | Some (now, d, g0) => bonus_awarded now d g0 l
  | None => false
  end.

(** Number of bonuses the object [l] receives along the events [es], from
    the first of them and for as long as [l] stays active afterwards. *)
Fixpoint life_awards (l : loc) (es : list Event) (g : Game) : nat :=
  match es with
  | [] => O
  | e :: es' =>
      ((if award e g l then 1 else 0) +
       (if bool_decide (l ∈ obstacles (handle e g))
        then life_awards l es' (handle e g) else 0))%nat
  end.

(** *** Spacing of obstacles *)

(** The loop body reaches [gameOver] on the object at [l]: it is not
    recycled and overlaps the player. *)
Definition collides_at (dt : Q) (g : Game) (l : loc) : bool :=
  match heap g !! l with
  | Some ob =>
      let ob2 := visit_ob dt (speed g) (p_x (player g)) ob in
      negb (off_screen ob2) && rectsOverlap (player g) ob2
  | None => false
  end.

(** [a] comes before [b] in the array [ls]. *)
Definition before (ls : list loc) (a b : loc) : Prop := [a; b] `sublist_of` ls.

(** In the frame starting the obstacle loop from [g], no obstacle gets the
    bonus after a later one in the array, visited earlier, has collided. *)
Definition no_bonus_after_hit (dt : Q) (g : Game) : Prop :=
  forall a b : loc,
    before (obstacles g) a b -> collides_at dt g b = true ->
    newly_at dt g a = false.

(** Two active obstacles, [oa] spawned before [ob], are far apart: more
    than the player is wide plus the widest obstacle ([gap_min]), plus what
    one frame of at most [0.033] s can move an obstacle at the current
    speed.  The term in [o_x ob] pays for the speed still to be gained
    while [ob] crosses the screen: [2] per second, at [240] px per second
    or more. *)
Definition gap_min : Q := 111.

Definition gap_ok (spd : Q) (oa ob : Obstacle) : Prop :=
  gap_min + 0.033 * (spd + o_x ob / 120) <= o_x ob - o_x oa.

(** An active obstacle is leaving the spawn point behind fast enough: when
    the countdown [timer] expires it will be far enough from the right
    edge for the next obstacle to be [gap_ok] with it. *)
Definition lead_min : Q := 111.23.

Definition lead_ok (spd timer : Q) (ob : Obstacle) : Prop :=
  lead_min + 0.066 * spd <= baseW + 20 - o_x ob + (spd - 0.132) * timer.

(** The geometry that spawning maintains when time runs forward: obstacles
    keep their spawn size, an obstacle whose flag is clear is not behind
    the player, and the obstacles are spread out in spawn order. *)
Record spaced (g : Game) : Prop := mkSpaced {
  sp_pool : pool_inv g;
  sp_speed : 240 <= speed g;
  sp_box : player_box (player g);
  sp_timer : obstacles g <> [] -> 0 < spawnTimer g;
  sp_ob : forall (l : loc) (ob : Obstacle),
      l ∈ obstacles g -> heap g !! l = Some ob ->
      spawn_size ob /\ o_x ob <= baseW + 20 /\
      (o_passed ob = false -> p_x (player g) <= o_x ob + o_w ob) /\
      lead_ok (speed g) (spawnTimer g) ob;
  sp_gap : forall (a b : loc) (oa ob : Obstacle),
      before (obstacles g) a b ->
      heap g !! a = Some oa -> heap g !! b = Some ob ->
      gap_ok (speed g) oa ob
}.

(** An event arrives on time when a frame's timestamp is not earlier than
    the previous one. *)
Definition on_time (e : Event) (g : Game) : Prop :=
  match e with
  | Frame now _ => lastTime g <= now
  | _ => True
  end.

(** States reachable with a clock that does not run backwards. *)
Inductive clocked : Game -> Prop :=
  | clocked_init stored : clocked (init stored)
  | clocked_step e g :
      clocked g -> valid_draws (event_draws e) -> on_time e g ->
      clocked (handle e g).

(** The geometry of the state from which the obstacle loop starts, stated
    on the obstacles as they will be once moved. *)
Record ready (dt : Q) (hd : Game) : Prop := mkReady {
  rd_pool : pool_inv hd;
  rd_dt : 0 <= dt /\ dt <= 0.033;
  rd_speed : 240 <= speed hd;
  rd_box : player_box (player hd);
  rd_timer : 0 < spawnTimer hd;
  rd_ob : forall (l : loc) (ob : Obstacle),
      l ∈ obstacles hd -> heap hd !! l = Some ob ->
      spawn_size ob /\ o_x ob <= baseW + 20 /\
      lead_ok (speed hd) (spawnTimer hd) (moved dt (speed hd) ob);
  rd_gap : forall (a b : loc) (oa ob : Obstacle),
      before (obstacles hd) a b ->
      heap hd !! a = Some oa -> heap hd !! b = Some ob ->
      gap_ok (speed hd) (moved dt (speed hd) oa) (moved dt (speed hd) ob)
}.

(** *** Further invariants *)

(** The record [spawnObstacle] writes, for a player of height [ph]. *)
Definition fresh_obstacle (d : Draws) (ph : Q) : Obstacle :=
  let w := if Qltb (coin d) 0.4 then 20 + wdraw d * 20 else 30 + wdraw d * 40 in
  let h := 20 + hdraw d * 40 in
  {| o_w := w; o_h := h; o_x := baseW + 20; o_y := groundY + (ph - h);
     o_color := "#ef5350"; o_passed := false |}.

(** The player is not below the ground and has no more energy than a jump
    gives: half the squared velocity plus gravity times height stays at or
    below [720^2 / 2]. *)
Definition jump_inv (p : Player) : Prop :=
  p_y p <= groundY /\
  p_vy p * p_vy p + 2 * gravity * (groundY - p_y p) <= 720 * 720.

(** What holds of every active obstacle: a size [spawnObstacle] can give,
    the collision box resting on the line [groundY + 40], the trailing
    edge not yet left of [-40], the colour unchanged. *)
Definition obstacle_ok (ob : Obstacle) : Prop :=
  spawn_size ob /\ o_y ob + o_h ob == groundY + 40 /\
  -40 <= o_x ob + o_w ob /\ o_color ob = "#ef5350"%string.

Definition active_ok (g : Game) : Prop :=
  forall (l : loc) (ob : Obstacle),
    l ∈ obstacles g -> heap g !! l = Some ob -> obstacle_ok ob.

(** Every pooled object is one that went off-screen. *)
Definition pool_off_screen (g : Game) : Prop :=
  forall l : loc,
    l ∈ obstaclePool g ->
    exists ob, heap g !! l = Some ob /\ off_screen ob = true.

(** Score and speed move in step: the score is five times the speed gained
    plus five per bonus. *)
Definition in_step (g : Game) : Prop :=
  exists n : nat, score g == 5 * (speed g - 240) + 5 * inject_Z (Z.of_nat n).

Definition with_lastTime (t : Q) (g : Game) : Game :=
  mkGame (running g) t (spawnTimer g) (score g) (speed g) (player g)
         (heap g) (obstacles g) (obstaclePool g) (highScore g) (storage g).

Definition is_frame (e : Event) : bool :=
  match e with
  | Frame _ _ => true
  | _ => false
  end.

(** Abscissa of the object at [l]. *)
Definition x_of (g : Game) (l : loc) : Q :=
  match heap g !! l with
  | Some ob => o_x ob
  | None => 0
  end.


(** The rectangles filled, in order. *)
Definition rects (os : list CanvasOp) : list (Q * Q * Q * Q) :=
  flat_map (fun o => match o with fillRect x y w h => [(x, y, w, h)] | _ => [] end)
           os.

(** All characters of [s] are white space for [parseInt]. *)
Fixpoint all_ws (s : string) : bool :=
  match s with
  | String c s' => is_ws c && all_ws s'
  | EmptyString => true
  end.

(** [s] is empty or starts with something that is not a decimal digit. *)
Definition no_leading_digit (s : string) : bool :=
  match s with
  | String c _ => match digit_of c with Some _ => false | None => true end
  | EmptyString => true
  end.

(** No active obstacle has come further from the spawn point than the
    speed gained since the run started allows. *)
Definition travelled (g : Game) : Prop :=
  forall (l : loc) (ob : Obstacle),
    l ∈ obstacles g -> heap g !! l = Some ob ->
    2 * (baseW + 20 - o_x ob) <= speed g * speed g - 240 * 240.

(** What a clock that does not run backwards maintains: the obstacles are
    spread out, none has come further than the speed gained allows, and the
    score is in step with the speed. *)
Definition on_course (g : Game) : Prop :=
  spaced g /\ travelled g /\ in_step g.

(** The game time that the frames among [es] add up to, from [g] on. *)
Fixpoint elapsed (es : list Event) (g : Game) : Q :=
  match es with
  | [] => 0
  | e :: es' =>
      match e with
      | Frame now _ => if running g then tick_dt now g else 0
      | _ => 0
      end + elapsed es' (handle e g)
  end.

(** A player on the ground, at rest. *)
Definition landed (p : Player) : Prop :=
  p_onGround p = true /\ p_y p = groundY /\ p_vy p = 0.

(** A player [T] seconds of game time into a jump: the velocity is what the
    jump gave plus what gravity has added, and the height is at most that
    of the parabola with the same start. *)
Definition in_flight (T : Q) (p : Player) : Prop :=
  p_vy p == -720 + gravity * T /\
  groundY - p_y p <= 720 * T - gravity / 2 * T * T /\
  (p_y p < groundY \/ T <= 0).

(** The events [es] all arrive on time, from [g] on. *)
Fixpoint on_time_all (es : list Event) (g : Game) : bool :=
  match es with
  | [] => true
  | e :: es' =>
      match e with
      | Frame now _ => Qle_bool (lastTime g) now
      | _ => true
      end && on_time_all es' (handle e g)
  end.

(** The object at [l], when there is one. *)
Definition obstacle_at (g : Game) (l : loc) : Obstacle :=
  default (mkObstacle 0 0 0 0 EmptyString false) (heap g !! l).

(** The rectangles [render] fills for the player and for an obstacle, as
    [(x, y, w, h)] with [(x, y)] the top left corner. *)
Definition drawn_player (p : Player) : Q * Q * Q * Q :=
  (p_x p, p_y p - p_h p, p_w p, p_h p).

Definition drawn_obstacle (ob : Obstacle) : Q * Q * Q * Q :=
  (o_x ob, o_y ob - o_h ob, o_w ob, o_h ob).

#[export] Instance Box_Rect : Rect (Q * Q * Q * Q) :=
  {| rx := fun '(x, _, _, _) => x; ry := fun '(_, y, _, _) => y;
     rw := fun '(_, _, w, _) => w; rh := fun '(_, _, _, h) => h |}.

(** *** Sample executions *)

Definition half_draws : Draws := mkDraws 0.5 0.5 0.5 0.5.

(** A run just started: one obstacle at the right edge, player grounded. *)
Definition sample_started : Game := run [Restart 1000 half_draws] (init None).

(** The same run two frames and a jump later. *)
Definition sample_airborne : Game :=
  run [Frame 1016 half_draws; JumpInput 1020 half_draws;
       Frame 1033 half_draws] sample_started.

(** A running game with one obstacle about to fall behind the player, who
    is in the air above it. *)
Definition sample_passing : Game :=
  {| running := true; lastTime := 5000; spawnTimer := 0.7; score := 41.5;
     speed := 248;
     player := {| p_x := 80; p_y := 250; p_w := 40; p_h := 40; p_vy := 120;
                  p_onGround := false; p_color := "#ffd54a" |};
     heap := [mkObstacle 30 40 52 340 "#ef5350" false];
     obstacles := [0%nat];
     obstaclePool := [];
     highScore := Int 7;
     storage := Some "7"%string |}.

(** A running game with one obstacle about to reach the player, who stands
    on the ground. *)
Definition sample_crashing : Game :=
  {| running := true; lastTime := 5000; spawnTimer := 0.7; score := 41.5;
     speed := 248;
     player := {| p_x := 80; p_y := groundY; p_w := 40; p_h := 40; p_vy := 0;
                  p_onGround := true; p_color := "#ffd54a" |};
     heap := [mkObstacle 30 40 121 340 "#ef5350" false];
     obstacles := [0%nat];
     obstaclePool := [];
     highScore := Int 7;
     storage := Some "7"%string |}.

(** Two obstacles closer together than spawning ever puts them: the later
    one reaches the player in the frame in which the earlier one falls
    behind. *)
Definition sample_crowded : Game :=
  {| running := true; lastTime := 5000; spawnTimer := 0.7; score := 41.9;
     speed := 248;
     player := {| p_x := 80; p_y := groundY; p_w := 40; p_h := 40; p_vy := 0;
                  p_onGround := true; p_color := "#ffd54a" |};
     heap := [mkObstacle 30 40 52 340 "#ef5350" false;
              mkObstacle 30 40 100 340 "#ef5350" false];
     obstacles := [0%nat; 1%nat];
     obstaclePool := [];
     highScore := Int 7;
     storage := Some "7"%string |}.

(** A player in mid-air whose [onGround] flag is set, which no execution
    produces. *)
Definition floating_player : Player :=
  {| p_x := 80; p_y := 250; p_w := 40; p_h := 40; p_vy := 0;
     p_onGround := true; p_color := "#ffd54a" |}.

(** A game about to end with a score whose floor is the high score, over a
    stored text that reads as that high score. *)
Definition sample_tie : Game :=
  {| running := true; lastTime := 5000; spawnTimer := 0.7; score := 7.5;
     speed := 248;
     player := {| p_x := 80; p_y := groundY; p_w := 40; p_h := 40; p_vy := 0;
                  p_onGround := true; p_color := "#ffd54a" |};
     heap := [mkObstacle 30 40 121 340 "#ef5350" false];
     obstacles := [0%nat];
     obstaclePool := [];
     highScore := Int 7;
     storage := Some "7 pts"%string |}.

(** The run just started, four frames of 40 ms later: the score has passed
    [1] and the high score is still the initial [0]. *)
Definition sample_early : Game :=
  run [Frame 1040 half_draws; Frame 1080 half_draws; Frame 1120 half_draws;
       Frame 1160 half_draws] sample_started.

(** The run just started, with the player jumping 10 ms later, and
    twenty-eight frames of 40 ms after that. *)
Definition sample_jumped : Game := handle (JumpInput 1010 half_draws) sample_started.

Definition sample_flight : list Event :=
  map (fun k : nat => Frame (1010 + 40 * inject_Z (Z.of_nat k)) half_draws)
      (seq 1 28).

(** A running game, eight seconds into the run, with one obstacle about
    to reach the player, who stands on the ground. *)
Definition sample_hit : Game :=
  {| running := true; lastTime := 5000; spawnTimer := 0.7; score := 45;
     speed := 248;
     player := {| p_x := 80; p_y := groundY; p_w := 40; p_h := 40; p_vy := 0;
                  p_onGround := true; p_color := "#ffd54a" |};
     heap := [mkObstacle 30 40 121 340 "#ef5350" false];
     obstacles := [0%nat];
     obstaclePool := [];
     highScore := Int 7;
     storage := Some "7"%string |}.

(** The run just started, after one frame stamped a thousand seconds
    before the previous one: the obstacle is in the pool. *)
Definition sample_recycled : Game :=
  run [Frame (-999000) half_draws] sample_started.

(** The run just started, thirty-one frames of 40 ms later: the second
    obstacle has been spawned. *)
Definition sample_frames : list Event :=
  map (fun k : nat => Frame (1000 + 40 * inject_Z (Z.of_nat k)) half_draws)
      (seq 1 31).

Definition sample_two : Game := run sample_frames sample_started.

(** ** Basic facts *)

Lemma Qltb_lt (a b : Q) : Qltb a b = true <-> a < b.
Proof.
  unfold Qltb. rewrite negb_true_iff, <- not_true_iff_false, Qle_bool_iff.
  split; [apply Qnot_le_lt | apply Qlt_not_le].
Qed.

Lemma Qltb_ge (a b : Q) : Qltb a b = false <-> b <= a.
Proof.
  unfold Qltb. rewrite negb_false_iff. apply Qle_bool_iff.
Qed.

Lemma Qle_bool_gt (a b : Q) : Qle_bool a b = false <-> b < a.
Proof.
  rewrite <- not_true_iff_false, Qle_bool_iff.
  split; [apply Qnot_le_lt | apply Qlt_not_le].
Qed.

Lemma Qmin_cases (a b : Q) :
  (a <= b /\ Qmin a b = a) \/ (b < a /\ Qmin a b = b).
Proof.
  unfold Qmin, GenericMinMax.gmin.
  destruct (a ?= b) eqn:E.
  - apply Qeq_alt in E. left. split; [lra | reflexivity].
  - apply Qlt_alt in E. left. split; [lra | reflexivity].
  - apply Qgt_alt in E. right. split; [lra | reflexivity].
Qed.

Lemma tick_dt_le_max (now : Q) (g : Game) : tick_dt now g <= 0.033.
Proof.
  unfold tick_dt. destruct (Qmin_cases ((now - lastTime g) / 1000) 0.033)
    as [[? ->]|[? ->]]; lra.
Qed.

Lemma tick_dt_nonneg (now : Q) (g : Game) :
  lastTime g <= now -> 0 <= tick_dt now g.
Proof.
  intros Hle. unfold tick_dt.
  destruct (Qmin_cases ((now - lastTime g) / 1000) 0.033) as [[? ->]|[? ->]];
    [|lra].
  apply Qle_shift_div_l; lra.
Qed.

(** ** Collision predicate *)

Section Collision.
Context {A B : Type} `{Rect A} `{Rect B}.

Lemma rectsOverlap_iff (a : A) (b : B) :
  rectsOverlap a b = true <->
  rx a < rx b + rw b /\ rx b < rx a + rw a /\
  ry a < ry b + rh b /\ ry b < ry a + rh a.
Proof using Type.
  unfold rectsOverlap. rewrite !andb_true_iff, !Qltb_lt. tauto.
Qed.
End Collision.

(** C3.  On any two rectangles (anything with [x], [y], [w], [h])
    [rectsOverlap] holds exactly when the four strict inequalities hold,
    and two rectangles that only touch along an edge, on any of the four
    sides, do not overlap. *)
Theorem rectsOverlap_strict {A B : Type} `{Rect A} `{Rect B} (a : A) (b : B) :
  (rectsOverlap a b = true <->
     rx a < rx b + rw b /\ rx a + rw a > rx b /\
     ry a < ry b + rh b /\ ry a + rh a > ry b) /\
  (rx a + rw a == rx b \/ rx b + rw b == rx a \/
   ry a + rh a == ry b \/ ry b + rh b == ry a ->
   rectsOverlap a b = false).
Proof.
  split.
  - rewrite rectsOverlap_iff. unfold Qgt. tauto.
  - intros Htouch. apply not_true_iff_false. rewrite rectsOverlap_iff.
    intros (H1 & H2 & H3 & H4).
    destruct Htouch as [E|[E|[E|E]]]; rewrite E in *; lra.
Qed.

(** The player standing on the ground and an obstacle that starts exactly at
    the player's right edge. *)
Lemma rectsOverlap_strict_witness :
  rectsOverlap (player (init None)) (mkObstacle 30 40 120 340 "#ef5350" false)
  = false.
Proof.
  apply (rectsOverlap_strict (player (init None))
           (mkObstacle 30 40 120 340 "#ef5350" false)).
  left. reflexivity.
Defined.

(** ** Jumping *)

(** C6.  In a running game a jump request while airborne leaves the whole
    state, hence every player field, as it is; on the ground it sets [vy] to
    [-720] and [onGround] to [false] and changes nothing else. *)
Theorem doJump_running (tnow : Q) (d : Draws) (g : Game) :
  running g = true ->
  (p_onGround (player g) = false -> doJump tnow d g = g) /\
  (p_onGround (player g) = true ->
   let p := player g in
   doJump tnow d g =
   set_player (mkPlayer (p_x p) (p_y p) (p_w p) (p_h p) (-720) false
                        (p_color p)) g /\
   p_vy (player (doJump tnow d g)) = -720 /\
   p_onGround (player (doJump tnow d g)) = false).
Proof.
  intros Hrun. unfold doJump. rewrite Hrun. simpl.
  split; intros ->; auto.
Qed.

(** ** Spawn interval *)

Lemma rand_range (r lo hi : Q) :
  unit_draw r -> lo < hi -> lo <= rand r lo hi /\ rand r lo hi < hi.
Proof.
  intros [H0 H1] Hlh. unfold rand. split; nra.
Qed.

Lemma spawn_interval_lower (r spd : Q) :
  unit_draw r -> 0.4 <= spawn_interval r spd.
Proof.
  intros Hr. unfold spawn_interval.
  destruct (rand_range r 0.9 1.6 Hr) as [Hlo _]; [lra|].
  destruct (Qmin_cases 0.5 (spd / 1000)) as [[? ->]|[? ->]]; lra.
Qed.

(** ** What the obstacle loop leaves alone *)

Ltac body_cases :=
  unfold obst_body;
  repeat match goal with
         | |- context [match ?x with _ => _ end] => destruct x eqn:?
         end.

Lemma same_env_refl (g : Game) : same_env g g.
Proof. repeat split. Qed.

Lemma same_env_trans (g1 g2 g3 : Game) :
  same_env g1 g2 -> same_env g2 g3 -> same_env g1 g3.
Proof.
  unfold same_env. intros (?&?&?&?) (?&?&?&?). repeat split; congruence.
Qed.

Lemma gameOver_same_env (g : Game) : same_env g (gameOver g).
Proof. unfold gameOver. destruct (gt_JSInt _ _); repeat split. Qed.

Lemma gameOver_fields (g : Game) :
  running (gameOver g) = false /\ score (gameOver g) = score g /\
  heap (gameOver g) = heap g /\ obstacles (gameOver g) = obstacles g /\
  obstaclePool (gameOver g) = obstaclePool g.
Proof. unfold gameOver. destruct (gt_JSInt _ _); repeat split. Qed.

Lemma obst_body_same_env (dt : Q) (i : nat) (g : Game) :
  same_env g (obst_body dt i g).
Proof.
  body_cases; try apply same_env_refl; try (repeat split; fail);
    (eapply same_env_trans; [|apply gameOver_same_env]); repeat split.
Qed.

Lemma obst_loop_same_env (dt : Q) (n : nat) (g : Game) :
  same_env g (obst_loop dt n g).
Proof.
  revert g. induction n as [|n IH]; intros g; simpl.
  - apply same_env_refl.
  - eapply same_env_trans; [apply obst_body_same_env | apply IH].
Qed.

Lemma spawnObstacle_fields (d : Draws) (g : Game) :
  same_env g (spawnObstacle d g) /\
  running (spawnObstacle d g) = running g /\
  score (spawnObstacle d g) = score g /\
  highScore (spawnObstacle d g) = highScore g /\
  storage (spawnObstacle d g) = storage g.
Proof.
  unfold spawnObstacle. destruct (pop _) as [[l pool']|]; repeat split.
Qed.

(** The player after a frame of a running game is the player after
    [stepPlayer]. *)
Lemma loop_player (now : Q) (d : Draws) (g : Game) :
  running g = true ->
  player (loop now d g) = stepPlayer (tick_dt now g) (player g).
Proof.
  intros Hrun. unfold loop. rewrite Hrun. cbn [negb].
  destruct (obst_loop_same_env (tick_dt now g)
              (length (obstacles (loop_head now d g))) (loop_head now d g))
    as (_ & _ & _ & ->).
  unfold loop_head. simpl.
  destruct (Qle_bool _ 0); simpl; [|reflexivity].
  destruct (spawnObstacle_fields d
    (mkGame (running g) now (spawnTimer g - tick_dt now g)
       (score g + tick_dt now g * 10) (speed g + tick_dt now g * 2)
       (player g) (heap g) (obstacles g) (obstaclePool g) (highScore g)
       (storage g))) as ((_ & _ & _ & ->) & _).
  reflexivity.
Qed.

(** ** The pool discipline *)

Lemma pop_Some {A : Type} (l l' : list A) (a : A) :
  pop l = Some (a, l') <-> l = l' ++ [a].
Proof.
  unfold pop. split.
  - destruct (last l) as [b|] eqn:E; [|discriminate].
    apply last_Some in E as [l0 ->]. rewrite removelast_last.
    intros [= -> ->]. reflexivity.
  - intros ->. rewrite last_snoc, removelast_last. reflexivity.
Qed.

Lemma pop_None {A : Type} (l : list A) : pop l = None <-> l = [].
Proof.
  unfold pop. split.
  - destruct (last l) eqn:E; [discriminate|]. intros _.
    now apply last_None in E.
  - intros ->. reflexivity.
Qed.

Lemma pool_inv_perm (g g' : Game) :
  obstacles g' ++ obstaclePool g' ≡ₚ obstacles g ++ obstaclePool g ->
  length (heap g') = length (heap g) ->
  pool_inv g -> pool_inv g'.
Proof.
  unfold pool_inv. intros Hp Hl [Hnd Hall]. rewrite Hp, Hl. auto.
Qed.

Lemma spawnObstacle_pool_inv (d : Draws) (g : Game) :
  pool_inv g -> pool_inv (spawnObstacle d g).
Proof.
  intros Hinv. unfold spawnObstacle.
  destruct (pop (obstaclePool g)) as [[l pool']|] eqn:Hpop.
  - apply pop_Some in Hpop.
    eapply pool_inv_perm; [| |exact Hinv]; simpl.
    + rewrite Hpop, <- !app_assoc. apply Permutation_app_head, Permutation_app_comm.
    + apply length_insert.
  - apply pop_None in Hpop. destruct Hinv as [Hnd Hall].
    rewrite Hpop, app_nil_r in Hnd, Hall.
    unfold pool_inv. simpl. rewrite Hpop, app_nil_r, length_app. simpl.
    split.
    + apply NoDup_app. split; [exact Hnd|]. split; [|apply NoDup_singleton].
      intros x Hx Hx'. apply list_elem_of_singleton in Hx'. subst x.
      rewrite Forall_forall in Hall. apply Hall in Hx. lia.
    + apply Forall_app. split.
      * eapply Forall_impl; [exact Hall|]. simpl. intros. lia.
      * apply Forall_singleton. lia.
Qed.

Lemma gameOver_pool_inv (g : Game) : pool_inv g -> pool_inv (gameOver g).
Proof.
  destruct (gameOver_fields g) as (_ & _ & Hh & Ho & Hp).
  apply pool_inv_perm; [rewrite Ho, Hp | rewrite Hh]; reflexivity.
Qed.

Lemma obst_body_pool_inv (dt : Q) (i : nat) (g : Game) :
  pool_inv g -> pool_inv (obst_body dt i g).
Proof.
  intros Hinv. body_cases; try exact Hinv;
    try (apply gameOver_pool_inv);
    (eapply pool_inv_perm; [| |exact Hinv]; simpl;
     [|try apply length_insert]; try reflexivity).
  all: match goal with
       | H : _ !! _ = Some ?l |- _ ≡ₚ obstacles _ ++ _ =>
           rewrite (delete_Permutation _ _ _ H) at 2
       end.
  all: simpl; rewrite (Permutation_app_comm (obstaclePool g)); simpl.
  all: rewrite <- Permutation_middle; reflexivity.
Qed.

Lemma obst_loop_pool_inv (dt : Q) (n : nat) (g : Game) :
  pool_inv g -> pool_inv (obst_loop dt n g).
Proof.
  revert g. induction n as [|n IH]; intros g Hinv; simpl; [exact Hinv|].
  apply IH, obst_body_pool_inv, Hinv.
Qed.

Lemma loop_head_pool_inv (now : Q) (d : Draws) (g : Game) :
  pool_inv g -> pool_inv (loop_head now d g).
Proof.
  intros Hinv. unfold loop_head. simpl.
  destruct (Qle_bool _ 0); [|exact Hinv].
  eapply pool_inv_perm; [reflexivity|reflexivity|].
  apply spawnObstacle_pool_inv. exact Hinv.
Qed.

Lemma loop_pool_inv (now : Q) (d : Draws) (g : Game) :
  pool_inv g -> pool_inv (loop now d g).
Proof.
  intros Hinv. unfold loop. destruct (running g); simpl; [|exact Hinv].
  apply obst_loop_pool_inv, loop_head_pool_inv, Hinv.
Qed.

Lemma resetGame_pool_inv (tnow : Q) (d : Draws) (g : Game) :
  pool_inv g -> pool_inv (resetGame tnow d g).
Proof.
  intros _. apply loop_pool_inv. split; simpl; constructor.
Qed.

Lemma handle_pool_inv (e : Event) (g : Game) :
  pool_inv g -> pool_inv (handle e g).
Proof.
  intros Hinv. destruct e as [now d|tnow d|tnow d]; simpl.
  - apply loop_pool_inv, Hinv.
  - unfold doJump. destruct (running g); simpl.
    + destruct (p_onGround (player g)); exact Hinv.
    + apply resetGame_pool_inv, Hinv.
  - apply resetGame_pool_inv, Hinv.
Qed.

Lemma reachable_pool_inv (g : Game) : reachable g -> pool_inv g.
Proof.
  induction 1 as [stored|e g _ IH _].
  - split; simpl; constructor.
  - apply handle_pool_inv, IH.
Qed.

Lemma pool_inv_exclusive (g : Game) : pool_inv g -> exclusive g.
Proof.
  intros [Hnd _]. apply NoDup_app in Hnd as (H1 & H2 & H3).
  split; [exact H1|]. split; [exact H3|exact H2].
Qed.

(** C9.  In every reachable state no obstacle object is twice in
    [obstacles], twice in [obstaclePool], or in both; spawning, the per-tick
    loop with its recycling, resetting, and every event handler preserve the
    pool discipline from which this follows. *)
Theorem pool_exclusive (g : Game) :
  (reachable g -> pool_inv g) /\
  (pool_inv g ->
   exclusive g /\
   (forall d, pool_inv (spawnObstacle d g)) /\
   (forall dt i, pool_inv (obst_body dt i g)) /\
   (forall dt n, pool_inv (obst_loop dt n g)) /\
   (forall now d, pool_inv (loop now d g)) /\
   (forall tnow d, pool_inv (resetGame tnow d g)) /\
   (forall e, pool_inv (handle e g))).
Proof.
  split; [apply reachable_pool_inv|]. intros Hinv.
  split; [apply pool_inv_exclusive, Hinv|].
  refine (conj _ (conj _ (conj _ (conj _ (conj _ _))))); intros.
  - apply spawnObstacle_pool_inv, Hinv.
  - apply obst_body_pool_inv, Hinv.
  - apply obst_loop_pool_inv, Hinv.
  - apply loop_pool_inv, Hinv.
  - apply resetGame_pool_inv, Hinv.
  - apply handle_pool_inv, Hinv.
Qed.

(** ** Player physics *)

Lemma stepPlayer_ground_inv (dt : Q) (p : Player) :
  ground_inv p -> ground_inv (stepPlayer dt p).
Proof.
  unfold ground_inv, stepPlayer. intros Hinv.
  destruct (Qle_bool groundY _) eqn:E; simpl; [auto|].
  intros Hg. destruct (Hinv Hg) as [Hy Hvy]. exfalso.
  apply Qle_bool_gt in E. rewrite Hy, Hvy in E.
  unfold gravity, groundY, baseH in E. nra.
Qed.

Lemma handle_ground_inv (e : Event) (g : Game) :
  ground_inv (player g) -> ground_inv (player (handle e g)).
Proof.
  assert (Hloop : forall now d g0,
             ground_inv (player g0) -> ground_inv (player (loop now d g0))).
  { intros now d g0 H0. destruct (running g0) eqn:Hr.
    - rewrite loop_player by exact Hr. apply stepPlayer_ground_inv, H0.
    - unfold loop. rewrite Hr. exact H0. }
  assert (Hreset : forall tnow d g0, ground_inv (player (resetGame tnow d g0))).
  { intros. apply Hloop. split; reflexivity. }
  intros Hinv. destruct e as [now d|tnow d|tnow d]; simpl; auto.
  unfold doJump. destruct (running g); simpl; [|apply Hreset].
  destruct (p_onGround (player g)) eqn:Hg; [|exact Hinv].
  intros Hg'. discriminate Hg'.
Qed.

Lemma reachable_ground_inv (g : Game) : reachable g -> ground_inv (player g).
Proof.
  induction 1 as [stored|e g _ IH _].
  - split; reflexivity.
  - apply handle_ground_inv, IH.
Qed.

(** C2.  One frame of a running game updates the player by
    [vy1 = vy + g*dt], [y1 = y + vy1*dt] with [dt] at most the maximum step;
    if [y1 >= groundY] the player is put on the ground with zero velocity
    and [onGround] true, otherwise the player has height [y1], velocity
    [vy1] and [onGround] false.  Either way the new [y] is at most
    [groundY]. *)
Theorem physics_step (now : Q) (d : Draws) (g : Game) :
  reachable g -> running g = true ->
  let dt := tick_dt now g in
  let vy1 := p_vy (player g) + gravity * dt in
  let y1 := p_y (player g) + vy1 * dt in
  let p' := player (loop now d g) in
  dt <= 0.033 /\
  (groundY <= y1 -> p_y p' = groundY /\ p_vy p' = 0 /\ p_onGround p' = true) /\
  (y1 < groundY -> p_y p' = y1 /\ p_vy p' = vy1 /\ p_onGround p' = false) /\
  p_y p' <= groundY.
Proof.
  intros Hreach Hrun dt vy1 y1 p'.
  split; [apply tick_dt_le_max|].
  subst p'. rewrite loop_player by exact Hrun.
  pose proof (stepPlayer_ground_inv dt _ (reachable_ground_inv g Hreach)) as Hinv.
  unfold ground_inv in Hinv. revert Hinv. unfold stepPlayer. fold dt vy1 y1.
  destruct (Qle_bool groundY y1) eqn:E; simpl; intros Hinv.
  - apply Qle_bool_iff in E. repeat split; lra.
  - apply Qle_bool_gt in E. repeat split; try lra.
    destruct (p_onGround (player g)) eqn:Hg; [|reflexivity].
    destruct (Hinv eq_refl) as [Hy _]. fold dt vy1 y1 in Hy. rewrite Hy in E. lra.
Qed.

(** ** The head of a frame *)

Lemma loop_head_fields (now : Q) (d : Draws) (g : Game) :
  let dt := tick_dt now g in
  let g' := loop_head now d g in
  running g' = running g /\ lastTime g' = now /\
  score g' = score g + dt * 10 /\ speed g' = speed g + dt * 2 /\
  player g' = stepPlayer dt (player g) /\
  highScore g' = highScore g /\ storage g' = storage g /\
  spawnTimer g' =
    (if Qle_bool (spawnTimer g - dt) 0
     then spawn_interval (gapdraw d) (speed g + dt * 2)
     else spawnTimer g - dt).
Proof.
  unfold loop_head. simpl.
  destruct (Qle_bool (spawnTimer g - tick_dt now g) 0); simpl;
    [|repeat split].
  match goal with
  | |- context [spawnObstacle d ?g1] =>
      destruct (spawnObstacle_fields d g1)
        as ((-> & _ & -> & ->) & -> & -> & -> & ->)
  end.
  repeat split.
Qed.

Lemma loop_running (now : Q) (d : Draws) (g : Game) :
  running g = true ->
  loop now d g =
  obst_loop (tick_dt now g) (length (obstacles (loop_head now d g)))
            (loop_head now d g).
Proof. intros Hrun. unfold loop. rewrite Hrun. reflexivity. Qed.

(** C7.  For every draw of [Math.random()] and every speed the new spawn
    interval is at least [0.4] seconds, hence strictly positive; and this is
    the value the countdown has after a frame in which it expired. *)
Theorem spawn_interval_positive (r spd now : Q) (d : Draws) (g : Game) :
  (unit_draw r ->
   0.9 <= rand r 0.9 1.6 /\ rand r 0.9 1.6 < 1.6 /\
   0.4 <= spawn_interval r spd /\ 0 < spawn_interval r spd) /\
  (running g = true -> spawnTimer g - tick_dt now g <= 0 ->
   unit_draw (gapdraw d) ->
   spawnTimer (loop now d g) =
     spawn_interval (gapdraw d) (speed g + tick_dt now g * 2) /\
   0.4 <= spawnTimer (loop now d g)).
Proof.
  split.
  - intros Hr. pose proof (spawn_interval_lower r spd Hr).
    destruct (rand_range r 0.9 1.6 Hr); [lra|]. repeat split; lra.
  - intros Hrun Hexp Hr. rewrite loop_running by exact Hrun.
    destruct (obst_loop_same_env (tick_dt now g)
                (length (obstacles (loop_head now d g))) (loop_head now d g))
      as (_ & -> & _).
    destruct (loop_head_fields now d g) as (_ & _ & _ & _ & _ & _ & _ & ->).
    apply Qle_bool_iff in Hexp. rewrite Hexp.
    split; [reflexivity|]. apply spawn_interval_lower, Hr.
Qed.

(** ** Score and speed within a run *)

Lemma obst_body_score (dt : Q) (i : nat) (g : Game) :
  score g <= score (obst_body dt i g).
Proof.
  body_cases;
    repeat match goal with
           | |- context [gameOver ?g1] =>
               destruct (gameOver_fields g1) as (_ & -> & _)
           end;
    simpl; lra.
Qed.

Lemma obst_loop_score (dt : Q) (n : nat) (g : Game) :
  score g <= score (obst_loop dt n g).
Proof.
  revert g. induction n as [|n IH]; intros g; simpl; [lra|].
  eapply Qle_trans; [apply obst_body_score | apply IH].
Qed.

(** C8.  A frame of a running game whose timestamp is not earlier than the
    previous one (elapsed time is non-negative) decreases neither the score
    nor the speed. *)
Theorem score_speed_monotone (now : Q) (d : Draws) (g : Game) :
  running g = true -> lastTime g <= now ->
  score g <= score (loop now d g) /\ speed g <= speed (loop now d g).
Proof.
  intros Hrun Hclock. rewrite loop_running by exact Hrun.
  pose proof (tick_dt_nonneg now g Hclock) as Hdt.
  pose proof (obst_loop_score (tick_dt now g)
                (length (obstacles (loop_head now d g))) (loop_head now d g))
    as Hs.
  destruct (obst_loop_same_env (tick_dt now g)
              (length (obstacles (loop_head now d g))) (loop_head now d g))
    as (_ & _ & -> & _).
  destruct (loop_head_fields now d g) as (_ & _ & Hsc & -> & _).
  rewrite Hsc in Hs. split; lra.
Qed.

(** ** Starting a run *)

Lemma handle_player_box (e : Event) (g : Game) :
  player_box (player g) -> player_box (player (handle e g)).
Proof.
  assert (Hstep : forall dt p, player_box p -> player_box (stepPlayer dt p)).
  { intros dt p Hp. unfold stepPlayer. destruct (Qle_bool _ _); exact Hp. }
  assert (Hloop : forall now d g0,
             player_box (player g0) -> player_box (player (loop now d g0))).
  { intros now d g0 H0. destruct (running g0) eqn:Hr.
    - rewrite loop_player by exact Hr. apply Hstep, H0.
    - unfold loop. rewrite Hr. exact H0. }
  intros Hinv. destruct e as [now d|tnow d|tnow d]; simpl; auto.
  - unfold doJump. destruct (running g); simpl.
    + destruct (p_onGround (player g)); exact Hinv.
    + apply Hloop. exact Hinv.
  - apply Hloop. exact Hinv.
Qed.

Lemma reachable_player_box (g : Game) : reachable g -> player_box (player g).
Proof.
  induction 1 as [stored|e g _ IH _].
  - repeat split.
  - apply handle_player_box, IH.
Qed.

Lemma tick_dt_same (now : Q) (g : Game) :
  lastTime g = now -> tick_dt now g == 0.
Proof.
  intros <-. unfold tick_dt.
  destruct (Qmin_cases ((lastTime g - lastTime g) / 1000) 0.033)
    as [[_ ->]|[Hlt _]].
  - field.
  - exfalso. assert (E : (lastTime g - lastTime g) / 1000 == 0) by field.
    rewrite E in Hlt. lra.
Qed.

Lemma spawn_size_ok (d : Draws) :
  valid_draws d ->
  let w := if Qltb (coin d) 0.4 then 20 + wdraw d * 20 else 30 + wdraw d * 40 in
  let h := 20 + hdraw d * 40 in
  20 <= w /\ w < 70 /\ 20 <= h /\ h < 60.
Proof.
  intros (_ & [? ?] & [? ?] & _). simpl.
  destruct (Qltb (coin d) 0.4); repeat split; lra.
Qed.

Lemma obst_body_eq (dt : Q) (i : nat) (g : Game) (l : loc) (ob : Obstacle) :
  obstacles g !! i = Some l -> heap g !! l = Some ob ->
  let s := speed g in
  let px := p_x (player g) in
  let ob2 := visit_ob dt s px ob in
  let g1 :=
    set_score (if newly_passed dt s px ob then score g + 5 else score g)
              (set_heap (<[l := ob2]> (heap g)) g) in
  obst_body dt i g =
  if off_screen ob2 then
    set_lists (delete i (obstacles g)) (obstaclePool g ++ [l]) g1
  else if rectsOverlap (player g) ob2 then gameOver g1
  else g1.
Proof.
  intros Hi Hl. unfold obst_body. rewrite Hi, Hl. reflexivity.
Qed.

Lemma spawnObstacle_lists (d : Draws) (g : Game) :
  exists l, obstacles (spawnObstacle d g) = obstacles g ++ [l].
Proof.
  unfold spawnObstacle. destruct (pop _) as [[l pool']|]; eexists; reflexivity.
Qed.

(** The spawn condition: one obstacle is pushed when the countdown, after
    the decrement, is at most zero, and none otherwise. *)
Lemma loop_head_spawn (now : Q) (d : Draws) (g : Game) :
  (spawnTimer g - tick_dt now g <= 0 ->
   exists l, obstacles (loop_head now d g) = obstacles g ++ [l]) /\
  (0 < spawnTimer g - tick_dt now g ->
   obstacles (loop_head now d g) = obstacles g).
Proof.
  unfold loop_head. cbn [spawnTimer]. split; intros Hc.
  - apply Qle_bool_iff in Hc. rewrite Hc.
    match goal with
    | |- context [spawnObstacle d ?g1] =>
        destruct (spawnObstacle_lists d g1) as [l Hl]
    end.
    exists l. simpl. exact Hl.
  - apply Qle_bool_gt in Hc. rewrite Hc. reflexivity.
Qed.

(** The state after [resetGame], which has run the first frame. *)
Lemma resetGame_first_frame (tnow : Q) (d : Draws) (g : Game) :
  reachable g -> valid_draws d ->
  let g' := resetGame tnow d g in
  running g' = true /\ obstaclePool g' = [] /\
  obstacles g' = [length (heap g)] /\
  (exists ob, heap g' = heap g ++ [ob] /\ o_x ob == baseW + 20 /\
              o_passed ob = false /\ spawn_size ob) /\
  0.4 <= spawnTimer g'.
Proof.
  intros Hreach Hd.
  destruct (reachable_player_box g Hreach) as (Hx & Hw & Hh).
  pose proof (spawn_size_ok d Hd) as Hsz. simpl in Hsz.
  unfold resetGame, reset_state.
  match goal with |- context [loop tnow d ?x] => set (g0 := x) end.
  assert (Hdt : tick_dt tnow g0 == 0) by (apply tick_dt_same; reflexivity).
  rewrite loop_running by reflexivity.
  set (dt := tick_dt tnow g0) in *.
  assert (Hdue : Qle_bool (0 - dt) 0 = true).
  { apply Qle_bool_iff. lra. }
  unfold loop_head. fold dt. cbn [spawnTimer speed g0]. rewrite Hdue.
  unfold spawnObstacle. cbn [obstaclePool g0 pop last].
  cbn [set_player set_spawnTimer set_lists set_heap obstacles length app
       running lastTime spawnTimer score speed player heap obstaclePool
       highScore storage g0 obst_loop].
  erewrite obst_body_eq; [|reflexivity|apply list_lookup_middle; reflexivity].
  cbn [set_player set_spawnTimer set_lists set_heap obstacles length app
       running lastTime spawnTimer score speed player heap obstaclePool
       highScore storage g0 obst_loop p_x p_h].
  match goal with |- context [stepPlayer dt ?p] => set (p1 := stepPlayer dt p) end.
  match goal with |- context [visit_ob _ _ _ ?o] => set (ob := o) end.
  assert (Hp1 : p_x p1 = 80 /\ p_w p1 = 40).
  { subst p1. unfold stepPlayer. destruct (Qle_bool groundY _); simpl; auto. }
  destruct Hp1 as [Hp1x Hp1w].
  assert (Hnew : newly_passed dt (240 + dt * 2) (p_x p1) ob = false).
  { unfold newly_passed. apply andb_false_intro2, Qltb_ge. simpl.
    rewrite Hp1x, Hdt. unfold baseW. lra. }
  unfold visit_ob. rewrite Hnew.
  assert (Hoff : off_screen (moved dt (240 + dt * 2) ob) = false).
  { apply Qltb_ge. simpl. rewrite Hdt. unfold baseW. lra. }
  assert (Hov : rectsOverlap p1 (moved dt (240 + dt * 2) ob) = false).
  { apply not_true_iff_false. rewrite rectsOverlap_iff. simpl.
    rewrite Hp1x, Hp1w, Hdt. unfold baseW. intros (_ & ? & _). lra. }
  rewrite Hoff, Hov. simpl.
  rewrite insert_app_r_alt, Nat.sub_diag by reflexivity. simpl.
  repeat split.
  - eexists. split; [reflexivity|]. simpl. split; [rewrite Hdt; lra|].
    split; [reflexivity|]. exact Hsz.
  - apply spawn_interval_lower, Hd.
Qed.

(** The whole state after [resetGame]. *)
Lemma resetGame_state (tnow : Q) (d : Draws) (g : Game) :
  player_box (player g) -> valid_draws d ->
  let dt := tick_dt tnow (reset_state tnow g) in
  resetGame tnow d g =
  mkGame true tnow
         (rand (gapdraw d) 0.9 1.6 - Qmin 0.5 ((240 + dt * 2) / 1000))
         (0 + dt * 10) (240 + dt * 2)
         (stepPlayer dt (mkPlayer (p_x (player g)) groundY (p_w (player g))
                                  (p_h (player g)) 0 true (p_color (player g))))
         (heap g ++ [moved dt (240 + dt * 2)
                           (fresh_obstacle d (p_h (player g)))])
         [length (heap g)] [] (highScore g) (storage g).
Proof.
  intros (Hx & Hw & Hh) Hd.
  pose proof (spawn_size_ok d Hd) as Hsz. simpl in Hsz.
  unfold resetGame, reset_state.
  match goal with |- context [loop tnow d ?x] => set (g0 := x) end.
  assert (Hdt : tick_dt tnow g0 == 0) by (apply tick_dt_same; reflexivity).
  rewrite loop_running by reflexivity.
  set (dt := tick_dt tnow g0) in *.
  assert (Hdue : Qle_bool (0 - dt) 0 = true).
  { apply Qle_bool_iff. lra. }
  unfold loop_head. fold dt. cbn [spawnTimer speed g0]. rewrite Hdue.
  unfold spawnObstacle. cbn [obstaclePool g0 pop last].
  cbn [set_player set_spawnTimer set_lists set_heap obstacles length app
       running lastTime spawnTimer score speed player heap obstaclePool
       highScore storage g0 obst_loop].
  erewrite obst_body_eq; [|reflexivity|apply list_lookup_middle; reflexivity].
  cbn [set_player set_spawnTimer set_lists set_heap obstacles length app
       running lastTime spawnTimer score speed player heap obstaclePool
       highScore storage g0 obst_loop p_x p_h].
  fold (fresh_obstacle d (p_h (player g))).
  set (ob := fresh_obstacle d (p_h (player g))).
  match goal with |- context [stepPlayer dt ?p] => set (p1 := stepPlayer dt p) end.
  assert (Hp1 : p_x p1 = 80 /\ p_w p1 = 40).
  { subst p1. unfold stepPlayer. destruct (Qle_bool groundY _); simpl; auto. }
  destruct Hp1 as [Hp1x Hp1w].
  assert (Hnew : newly_passed dt (240 + dt * 2) (p_x p1) ob = false).
  { unfold newly_passed. apply andb_false_intro2, Qltb_ge. simpl.
    rewrite Hp1x, Hdt. unfold baseW. lra. }
  unfold visit_ob. rewrite Hnew.
  assert (Hoff : off_screen (moved dt (240 + dt * 2) ob) = false).
  { apply Qltb_ge. simpl. rewrite Hdt. unfold baseW. lra. }
  assert (Hov : rectsOverlap p1 (moved dt (240 + dt * 2) ob) = false).
  { apply not_true_iff_false. rewrite rectsOverlap_iff. simpl.
    rewrite Hp1x, Hp1w, Hdt. unfold baseW. intros (_ & ? & _). lra. }
  rewrite Hoff, Hov.
  rewrite insert_app_r_alt, Nat.sub_diag by reflexivity. reflexivity.
Qed.

(** C10.  [resetGame] runs the first frame of the new run itself, with zero
    elapsed time: the countdown it has just set to [0] is due, so that frame
    spawns one obstacle, newly allocated since the pool was emptied, at the
    right edge and not yet passed.  After it the game is running with that
    single active obstacle, an empty pool and a positive countdown.  In any
    frame, one obstacle is pushed when the countdown is at most zero after
    the decrement, and none otherwise. *)
Theorem first_frame_spawns (tnow : Q) (d : Draws) (g : Game) :
  reachable g -> valid_draws d ->
  let g' := resetGame tnow d g in
  (running g' = true /\ obstaclePool g' = [] /\
   obstacles g' = [length (heap g)] /\
   (exists ob, heap g' = heap g ++ [ob] /\ o_x ob == baseW + 20 /\
               o_passed ob = false /\ spawn_size ob) /\
   0.4 <= spawnTimer g') /\
  spawnTimer (reset_state tnow g) - tick_dt tnow (reset_state tnow g) <= 0 /\
  (forall (now : Q) (g0 : Game),
     (spawnTimer g0 - tick_dt now g0 <= 0 ->
      exists l, obstacles (loop_head now d g0) = obstacles g0 ++ [l]) /\
     (0 < spawnTimer g0 - tick_dt now g0 ->
      obstacles (loop_head now d g0) = obstacles g0)).
Proof.
  intros Hreach Hd g'. split; [|split].
  - apply resetGame_first_frame; assumption.
  - rewrite (tick_dt_same tnow (reset_state tnow g) eq_refl). simpl. lra.
  - intros now g0. apply loop_head_spawn.
Qed.

(** ** Reading and writing the persisted high score *)

Lemma digit_char (m : N) :
  (m < 10)%N ->
  let c := ascii_of_N (48 + m) in
  digit_of c = Some (Z.of_N m) /\ is_ws c = false /\
  Ascii.eqb c "-" = false /\ Ascii.eqb c "+" = false.
Proof.
  intros Hm.
  assert (Hcases : (m = 0 \/ m = 1 \/ m = 2 \/ m = 3 \/ m = 4 \/ m = 5 \/
                    m = 6 \/ m = 7 \/ m = 8 \/ m = 9)%N) by lia.
  decompose [or] Hcases; subst m; vm_compute; auto.
Qed.

(** Reading back the digits that [digits_of] wrote gives the number. *)
Lemma digits_acc_digits_of (fuel : nat) :
  forall (n : N) (tail : string),
    (n < 2 ^ N.of_nat fuel)%N -> fuel <> O ->
    digits_acc (digits_of fuel n tail) None =
    digits_acc tail (Some (Z.of_N n)).
Proof.
  induction fuel as [|fuel IH]; intros n tail Hn Hf; [congruence|].
  cbn [digits_of].
  assert (Hmod : (n mod 10 < 10)%N) by (apply N.mod_lt; lia).
  destruct (digit_char (n mod 10) Hmod) as (Hd & _).
  destruct (n <? 10)%N eqn:Hlt.
  - apply N.ltb_lt in Hlt. rewrite N.mod_small in * by exact Hlt.
    cbn [digits_acc]. rewrite Hd. simpl default.
    replace (10 * 0 + Z.of_N n)%Z with (Z.of_N n) by lia. reflexivity.
  - apply N.ltb_ge in Hlt.
    assert (Hdiv : (n / 10 < 2 ^ N.of_nat fuel)%N).
    { apply N.Div0.div_lt_upper_bound.
      rewrite Nat2N.inj_succ, N.pow_succ_r' in Hn. lia. }
    assert (Hpos : (1 <= n / 10)%N).
    { apply N.div_le_lower_bound; lia. }
    rewrite IH; [|exact Hdiv|].
    + cbn [digits_acc]. rewrite Hd. simpl default.
      pose proof (N.div_mod n 10 ltac:(lia)).
      replace (10 * Z.of_N (n / 10) + Z.of_N (n mod 10))%Z with (Z.of_N n)
        by lia.
      reflexivity.
    + intros ->. simpl in Hdiv. lia.
Qed.

(** The first character written by [digits_of] is a digit. *)
Lemma digits_of_head (fuel : nat) :
  forall (n : N) (tail : string),
    fuel <> O ->
    exists (m : N) (rest : string),
      (m < 10)%N /\ digits_of fuel n tail = String (ascii_of_N (48 + m)) rest.
Proof.
  induction fuel as [|fuel IH]; intros n tail Hf; [congruence|].
  cbn [digits_of].
  assert (Hmod : (n mod 10 < 10)%N) by (apply N.mod_lt; lia).
  destruct (n <? 10)%N eqn:Hlt; [eauto|].
  destruct fuel as [|fuel']; [|apply IH; congruence].
  simpl. eauto.
Qed.

Lemma parseInt_String_of_JSInt (z : Z) : parseInt (String_of_JSInt (Int z)) = Int z.
Proof.
  unfold String_of_JSInt.
  set (n := Z.abs_N z). set (fuel := S (N.to_nat (N.log2 n))).
  assert (Hn : (n < 2 ^ N.of_nat fuel)%N).
  { subst fuel. rewrite Nat2N.inj_succ, N2Nat.id.
    destruct (N.eq_dec n 0%N) as [->|Hn0]; [reflexivity|].
    apply N.log2_spec. lia. }
  assert (Hf : fuel <> O) by (subst fuel; congruence).
  pose proof (digits_acc_digits_of fuel n EmptyString Hn Hf) as Hread.
  destruct (digits_of_head fuel n EmptyString Hf) as (m & rest & Hm & Hhead).
  destruct (digit_char m Hm) as (_ & Hws & Hminus & Hplus).
  destruct (z <? 0)%Z eqn:Hneg.
  - apply Z.ltb_lt in Hneg. unfold parseInt. cbn [skip_ws].
    change (is_ws "-") with false. cbv iota.
    change (Ascii.eqb "-" "-") with true. cbv iota beta.
    rewrite Hread. simpl digits_acc. f_equal. subst n. lia.
  - apply Z.ltb_ge in Hneg. unfold parseInt.
    rewrite Hhead in *. cbn [skip_ws]. rewrite Hws, Hminus, Hplus.
    rewrite Hread. simpl digits_acc. f_equal. subst n. lia.
Qed.

Lemma has_digit_cons (c : ascii) (s : string) :
  has_digit (String c s) = false -> digit_of c = None /\ has_digit s = false.
Proof. simpl. destruct (digit_of c); [discriminate|auto]. Qed.

Lemma has_digit_skip_ws (s : string) :
  has_digit s = false -> has_digit (skip_ws s) = false.
Proof.
  induction s as [|c s IH]; [auto|]. intros Hs. cbn [skip_ws].
  destruct (is_ws c); [|exact Hs].
  apply IH. now apply has_digit_cons in Hs.
Qed.

Lemma digits_acc_no_digit (s : string) :
  has_digit s = false -> digits_acc s None = None.
Proof.
  destruct s as [|c s]; [reflexivity|]. intros Hs.
  apply has_digit_cons in Hs as [Hc _]. simpl. now rewrite Hc.
Qed.

Lemma parseInt_no_digit (s : string) : has_digit s = false -> parseInt s = NaN.
Proof.
  intros Hs. apply has_digit_skip_ws in Hs. unfold parseInt.
  destruct (skip_ws s) as [|c r].
  - reflexivity.
  - pose proof (has_digit_cons c r Hs) as [_ Hr].
    destruct (Ascii.eqb c "-"); [now rewrite digits_acc_no_digit|].
    destruct (Ascii.eqb c "+"); now rewrite digits_acc_no_digit.
Qed.

Lemma loadHighScore_nonempty (s : string) :
  s <> EmptyString -> loadHighScore (Some s) = parseInt s.
Proof. destruct s; [congruence|reflexivity]. Qed.

Lemma String_of_JSInt_nonempty (z : Z) : String_of_JSInt (Int z) <> EmptyString.
Proof.
  unfold String_of_JSInt. destruct (z <? 0)%Z; [discriminate|].
  destruct (digits_of_head (S (N.to_nat (N.log2 (Z.abs_N z)))) (Z.abs_N z)
              EmptyString) as (m & rest & _ & ->); discriminate.
Qed.

Lemma loadHighScore_written (z : Z) :
  loadHighScore (Some (String_of_JSInt (Int z))) = Int z.
Proof.
  rewrite loadHighScore_nonempty by apply String_of_JSInt_nonempty.
  apply parseInt_String_of_JSInt.
Qed.

(** What loading does.  An absent or empty persisted value loads as [0]; a
    value the game itself wrote loads as the number written; a non-empty
    value without any decimal digit loads as [NaN].  [loadHighScore] is a
    total function: loading never raises. *)
Lemma loadHighScore_spec :
  loadHighScore None = Int 0 /\
  loadHighScore (Some EmptyString) = Int 0 /\
  (forall z : Z, loadHighScore (Some (String_of_JSInt (Int z))) = Int z) /\
  (forall s : string,
     s <> EmptyString -> has_digit s = false -> loadHighScore (Some s) = NaN).
Proof.
  split; [reflexivity|]. split; [reflexivity|]. split.
  - apply loadHighScore_written.
  - intros s Hne Hs. rewrite loadHighScore_nonempty by exact Hne.
    apply parseInt_no_digit, Hs.
Qed.

(** It is not the case that every absent or unparseable persisted value
    loads as [0]. *)
Lemma loadHighScore_unparseable_not_zero :
  ~ (forall stored : option string,
       stored = None \/
       (exists s, stored = Some s /\ has_digit s = false) ->
       loadHighScore stored = Int 0).
Proof.
  intros Hall.
  specialize (Hall (Some "abc"%string)).
  assert (Hbad : loadHighScore (Some "abc"%string) = NaN) by reflexivity.
  rewrite Hbad in Hall. discriminate Hall.
  right. exists "abc"%string. split; reflexivity.
Qed.

(** ** High score at the end of a run *)

Lemma gt_JSInt_Int (a : Q) (h : Z) :
  gt_JSInt a (Int h) = true <-> inject_Z h < a.
Proof. apply Qltb_lt. Qed.

Lemma gameOver_cases (g : Game) (h : Z) :
  highScore g = Int h ->
  let f := Qfloor (score g) in
  (inject_Z h < score g /\ (h <= f)%Z /\
   highScore (gameOver g) = Int f /\
   storage (gameOver g) = Some (String_of_JSInt (Int f))) \/
  (score g <= inject_Z h /\ (f <= h)%Z /\
   highScore (gameOver g) = Int h /\ storage (gameOver g) = storage g).
Proof.
  intros Hh. unfold gameOver. rewrite Hh.
  destruct (gt_JSInt (score g) (Int h)) eqn:E; simpl.
  - apply gt_JSInt_Int in E. left.
    split; [exact E|]. split; [|split; reflexivity].
    rewrite <- (Qfloor_Z h). apply Qfloor_resp_le. lra.
  - apply Qltb_ge in E. right.
    split; [exact E|]. split; [|split; reflexivity].
    rewrite <- (Qfloor_Z h). apply Qfloor_resp_le. exact E.
Qed.

Lemma gameOver_hs_at_least (h : Z) (g : Game) :
  hs_at_least h g -> hs_at_least h (gameOver g).
Proof.
  intros (h' & Hh & Hle & Hsync). unfold hs_at_least, hs_synced in *.
  destruct (gameOver_cases g h' Hh) as [(_ & Hf & -> & ->)|(_ & _ & -> & ->)].
  - exists (Qfloor (score g)). split; [reflexivity|]. split; [lia|].
    apply loadHighScore_written.
  - exists h'. split; [reflexivity|]. split; [lia|]. congruence.
Qed.

(** Only [gameOver] writes the high score and the storage, so a property of
    these two that [gameOver] preserves holds along every execution. *)
Section HighScoreInvariant.
Variable P : Game -> Prop.
Hypothesis P_same :
  forall g g', highScore g' = highScore g -> storage g' = storage g ->
               P g -> P g'.
Hypothesis P_gameOver : forall g, P g -> P (gameOver g).

Lemma obst_body_hs_inv (dt : Q) (i : nat) (g : Game) :
  P g -> P (obst_body dt i g).
Proof using P_same P_gameOver.
  intros Hg. body_cases; try exact Hg; try apply P_gameOver;
    (eapply P_same; [| |exact Hg]; reflexivity).
Qed.

Lemma obst_loop_hs_inv (dt : Q) (n : nat) (g : Game) :
  P g -> P (obst_loop dt n g).
Proof using P_same P_gameOver.
  revert g. induction n as [|n IH]; intros g Hg; simpl; [exact Hg|].
  apply IH, obst_body_hs_inv, Hg.
Qed.

Lemma loop_hs_inv (now : Q) (d : Draws) (g : Game) :
  P g -> P (loop now d g).
Proof using P_same P_gameOver.
  intros Hg. unfold loop. destruct (running g); simpl; [|exact Hg].
  apply obst_loop_hs_inv.
  destruct (loop_head_fields now d g) as (_ & _ & _ & _ & _ & Hh & Hs & _).
  eapply P_same; eauto.
Qed.

Lemma handle_hs_inv (e : Event) (g : Game) : P g -> P (handle e g).
Proof using P_same P_gameOver.
  intros Hg.
  assert (Hreset : forall tnow d, P (resetGame tnow d g)).
  { intros. apply loop_hs_inv.
    eapply P_same; [| |exact Hg]; reflexivity. }
  destruct e as [now d|tnow d|tnow d]; simpl; auto.
  - apply loop_hs_inv, Hg.
  - unfold doJump. destruct (running g); simpl; auto.
    destruct (p_onGround (player g)); auto.
    eapply P_same; [| |exact Hg]; reflexivity.
Qed.

Lemma run_hs_inv (es : list Event) (g : Game) : P g -> P (run es g).
Proof using P_same P_gameOver.
  revert g. induction es as [|e es IH]; intros g Hg; simpl; [exact Hg|].
  apply IH, handle_hs_inv, Hg.
Qed.
End HighScoreInvariant.

Lemma gameOver_hs_synced (g : Game) : hs_synced g -> hs_synced (gameOver g).
Proof.
  unfold hs_synced, gameOver. intros Hg.
  destruct (gt_JSInt _ _); simpl; [apply loadHighScore_written|exact Hg].
Qed.

Lemma hs_synced_same (g g' : Game) :
  highScore g' = highScore g -> storage g' = storage g ->
  hs_synced g -> hs_synced g'.
Proof. unfold hs_synced. intros -> ->. auto. Qed.

Lemma hs_at_least_same (h : Z) (g g' : Game) :
  highScore g' = highScore g -> storage g' = storage g ->
  hs_at_least h g -> hs_at_least h g'.
Proof.
  unfold hs_at_least, hs_synced. intros -> ->. auto.
Qed.

Lemma reachable_hs_synced (g : Game) : reachable g -> hs_synced g.
Proof.
  induction 1 as [stored|e g _ IH _]; [reflexivity|].
  apply (handle_hs_inv hs_synced hs_synced_same gameOver_hs_synced), IH.
Qed.

Lemma gameOver_NaN (g : Game) : highScore g = NaN -> highScore (gameOver g) = NaN.
Proof. intros Hg. unfold gameOver. rewrite Hg. reflexivity. Qed.

(** C4.  The [|| '0'] guard makes an absent or empty persisted value load
    as [0]; but a persisted value that is not a number, such as ["abc"],
    loads as [NaN], not as [0].  Nothing raises, and nothing repairs it
    either: no score compares greater than [NaN], so from then on the high
    score stays [NaN] whatever happens. *)
Theorem loadHighScore_unparseable :
  loadHighScore None = Int 0 /\
  loadHighScore (Some EmptyString) = Int 0 /\
  loadHighScore (Some "abc"%string) = NaN /\
  loadHighScore (Some "abc"%string) <> Int 0 /\
  (forall es : list Event, highScore (run es (init (Some "abc"%string))) = NaN).
Proof.
  split; [reflexivity|]. split; [reflexivity|]. split; [reflexivity|].
  split; [discriminate|].
  intros es. apply (run_hs_inv (fun g => highScore g = NaN)).
  - intros g g' Hh _ Hg. congruence.
  - apply gameOver_NaN.
  - reflexivity.
Qed.


(** ** What the obstacle loop does to each obstacle *)

Ltac elem_tac :=
  rewrite ?elem_of_app, ?list_elem_of_singleton, ?elem_of_cons;
  solve [tauto | auto | intuition congruence].

Lemma obst_body_step (dt : Q) (g : Game) (pre post : list loc) (x : loc)
    (ob : Obstacle) :
  obstacles g = pre ++ x :: post -> heap g !! x = Some ob ->
  let g' := obst_body dt (length pre) g in
  let ob2 := visit_ob dt (speed g) (p_x (player g)) ob in
  same_env g g' /\
  heap g' = <[x := ob2]> (heap g) /\
  score g' =
    (if newly_passed dt (speed g) (p_x (player g)) ob
     then score g + 5 else score g) /\
  obstacles g' = pre ++ (if off_screen ob2 then post else x :: post) /\
  obstaclePool g' =
    (if off_screen ob2 then obstaclePool g ++ [x] else obstaclePool g).
Proof.
  intros Hobs Hx.
  assert (Hi : obstacles g !! length pre = Some x).
  { rewrite Hobs. apply list_lookup_middle. reflexivity. }
  split; [apply obst_body_same_env|].
  cbv zeta. rewrite (obst_body_eq dt _ g x ob Hi Hx). cbv zeta.
  destruct (off_screen _) eqn:Hoff.
  - simpl. rewrite Hobs, delete_middle. auto.
  - destruct (rectsOverlap _ _).
    + match goal with
      | |- context [gameOver ?g1] =>
          destruct (gameOver_fields g1) as (_ & -> & -> & -> & ->)
      end.
      simpl. auto.
    + simpl. auto.
Qed.

Lemma obst_loop_spec (dt : Q) (pre : list loc) :
  forall (post : list loc) (g : Game),
    obstacles g = pre ++ post -> NoDup pre ->
    (forall l, l ∈ pre -> is_Some (heap g !! l)) ->
    let g' := obst_loop dt (length pre) g in
    same_env g g' /\
    obstacles g' = List.filter (kept_at dt g) pre ++ post /\
    (forall l, heap g' !! l =
               if bool_decide (l ∈ pre)
               then visit_ob dt (speed g) (p_x (player g)) <$> heap g !! l
               else heap g !! l) /\
    score g' ==
      score g + 5 * inject_Z (Z.of_nat (length (List.filter (newly_at dt g) pre))).
Proof.
  induction pre as [|x pre IH] using rev_ind; intros post g Hobs Hnd Hheap.
  - simpl. split; [apply same_env_refl|]. split; [exact Hobs|].
    split; [reflexivity|]. simpl. ring.
  - rewrite length_app, Nat.add_1_r. cbn [obst_loop]. cbv zeta.
    rewrite <- app_assoc in Hobs. simpl in Hobs.
    apply NoDup_app in Hnd as (Hnd & Hx & _).
    destruct (Hheap x) as [ob Hob]; [elem_tac|].
    destruct (obst_body_step dt g pre post x ob Hobs Hob)
      as (Henv & Hh & Hs & Ho & _).
    set (gb := obst_body dt (length pre) g) in *.
    pose proof Henv as (_ & _ & Hspeed & Hplayer).
    assert (Hother : forall l, l ∈ pre -> heap gb !! l = heap g !! l).
    { intros l Hl. rewrite Hh. apply list_lookup_insert_ne.
      intros ->. apply (Hx l); [exact Hl|elem_tac]. }
    destruct (IH _ gb Ho Hnd) as (Henv' & Ho' & Hh' & Hs').
    { intros l Hl. rewrite Hother by exact Hl. apply Hheap. elem_tac. }
    assert (Hkept : List.filter (kept_at dt gb) pre = List.filter (kept_at dt g) pre).
    { apply filter_ext_in. intros l Hl%list_elem_of_In. unfold kept_at.
      now rewrite Hother, Hspeed, Hplayer. }
    assert (Hnewly : List.filter (newly_at dt gb) pre = List.filter (newly_at dt g) pre).
    { apply filter_ext_in. intros l Hl%list_elem_of_In. unfold newly_at.
      now rewrite Hother, Hspeed, Hplayer. }
    split; [eapply same_env_trans; [exact Henv|exact Henv']|].
    split; [|split].
    + assert (Hkx : kept_at dt g x =
                    negb (off_screen (visit_ob dt (speed g) (p_x (player g)) ob))).
      { unfold kept_at. now rewrite Hob. }
      rewrite Ho', Hkept, List.filter_app. cbn [List.filter]. rewrite Hkx.
      destruct (off_screen _); simpl; rewrite <- ?app_assoc; reflexivity.
    + intros l. rewrite Hh', Hspeed, Hplayer.
      destruct (decide (l ∈ pre)) as [Hl|Hl].
      * rewrite !bool_decide_eq_true_2 by elem_tac.
        now rewrite Hother.
      * rewrite (bool_decide_eq_false_2 (l ∈ pre)) by exact Hl.
        destruct (decide (l = x)) as [->|Hlx].
        -- rewrite bool_decide_eq_true_2 by elem_tac.
           rewrite Hh, Hob, list_lookup_insert_eq; [reflexivity|].
           eapply lookup_lt_Some, Hob.
        -- rewrite bool_decide_eq_false_2 by elem_tac.
           rewrite Hh. apply list_lookup_insert_ne. congruence.
    + assert (Hnx : newly_at dt g x =
                    newly_passed dt (speed g) (p_x (player g)) ob).
      { unfold newly_at. now rewrite Hob. }
      rewrite Hs', Hs, Hnewly, List.filter_app, length_app. cbn [List.filter].
      rewrite Hnx, Nat2Z.inj_add, inject_Z_plus.
      destruct (newly_passed _ _ _ ob); simpl; ring.
Qed.

Lemma visit_ob_passed (dt s px : Q) (ob : Obstacle) :
  o_passed (visit_ob dt s px ob) = o_passed ob || newly_passed dt s px ob.
Proof.
  unfold visit_ob, newly_passed. destruct ob as [w h x y c [|]]; simpl.
  - reflexivity.
  - destruct (Qltb _ _); reflexivity.
Qed.

Lemma pool_inv_allocated (g : Game) (l : loc) :
  pool_inv g -> l ∈ obstacles g ++ obstaclePool g -> is_Some (heap g !! l).
Proof.
  intros [_ Hall] Hl. apply lookup_lt_is_Some.
  rewrite Forall_forall in Hall. apply Hall, Hl.
Qed.

(** One frame of a running game, obstacle by obstacle: the obstacles active
    when the loop starts are each visited once; those not off-screen stay
    active, in order. *)
Lemma frame_spec (now : Q) (d : Draws) (g : Game) :
  running g = true -> pool_inv g ->
  let dt := tick_dt now g in
  let hd := loop_head now d g in
  let g' := loop now d g in
  same_env hd g' /\
  obstacles g' = List.filter (kept_at dt hd) (obstacles hd) /\
  (forall l, heap g' !! l =
             if bool_decide (l ∈ obstacles hd)
             then visit_ob dt (speed hd) (p_x (player hd)) <$> heap hd !! l
             else heap hd !! l) /\
  score g' ==
    score g + dt * 10 + 5 * inject_Z (Z.of_nat (length (awards now d g))).
Proof.
  intros Hrun Hinv dt hd g'. subst g'. rewrite loop_running by exact Hrun.
  fold dt hd.
  pose proof (loop_head_pool_inv now d g Hinv) as Hhd. fold hd in Hhd.
  destruct (pool_inv_exclusive hd Hhd) as (Hnd & _).
  destruct (obst_loop_spec dt (obstacles hd) [] hd) as (Henv & Ho & Hh & Hs).
  { now rewrite app_nil_r. }
  { exact Hnd. }
  { intros l Hl. apply pool_inv_allocated; [exact Hhd|elem_tac]. }
  rewrite app_nil_r in Ho.
  split; [exact Henv|]. split; [exact Ho|]. split; [exact Hh|].
  rewrite Hs.
  destruct (loop_head_fields now d g) as (_ & _ & Hsc & _).
  fold hd dt in Hsc. rewrite Hsc.
  unfold awards. fold hd.
  rewrite (filter_ext_in (bonus_awarded now d g) (newly_at dt hd)); [reflexivity|].
  intros l Hl%list_elem_of_In. unfold bonus_awarded. fold hd dt.
  rewrite Hrun, bool_decide_eq_true_2 by exact Hl. reflexivity.
Qed.

(** *** The head of a frame and the active obstacles *)

Lemma spawnObstacle_active (d : Draws) (g : Game) (l : loc) :
  pool_inv g -> l ∈ obstacles g ->
  l ∈ obstacles (spawnObstacle d g) /\
  heap (spawnObstacle d g) !! l = heap g !! l.
Proof.
  intros Hinv Hl. pose proof (pool_inv_exclusive g Hinv) as (_ & _ & Hex).
  unfold spawnObstacle.
  destruct (pop (obstaclePool g)) as [[x pool']|] eqn:Hpop; simpl.
  - split; [elem_tac|]. apply list_lookup_insert_ne. intros ->.
    apply pop_Some in Hpop. apply (Hex l Hl). rewrite Hpop. elem_tac.
  - split; [elem_tac|]. apply lookup_app_l.
    destruct Hinv as [_ Hall]. rewrite Forall_forall in Hall.
    apply Hall. elem_tac.
Qed.

Lemma spawnObstacle_new (d : Draws) (g : Game) (l : loc) :
  l ∈ obstacles (spawnObstacle d g) ->
  l ∈ obstacles g \/ l ∈ obstaclePool g \/ l = length (heap g).
Proof.
  unfold spawnObstacle.
  destruct (pop (obstaclePool g)) as [[x pool']|] eqn:Hpop; simpl.
  - apply pop_Some in Hpop. rewrite Hpop. elem_tac.
  - elem_tac.
Qed.

Lemma loop_head_active (now : Q) (d : Draws) (g : Game) (l : loc) :
  pool_inv g -> l ∈ obstacles g ->
  l ∈ obstacles (loop_head now d g) /\
  heap (loop_head now d g) !! l = heap g !! l.
Proof.
  intros Hinv Hl. unfold loop_head. cbn [spawnTimer].
  destruct (Qle_bool _ 0); simpl; [|auto].
  match goal with
  | |- context [spawnObstacle d ?g1] =>
      apply (spawnObstacle_active d g1 l); [|exact Hl]
  end.
  exact Hinv.
Qed.

Lemma loop_head_new (now : Q) (d : Draws) (g : Game) (l : loc) :
  l ∈ obstacles (loop_head now d g) ->
  l ∈ obstacles g \/ l ∈ obstaclePool g \/ l = length (heap g).
Proof.
  unfold loop_head. cbn [spawnTimer].
  destruct (Qle_bool _ 0); simpl; [|auto].
  match goal with
  | |- context [spawnObstacle d ?g1] => apply (spawnObstacle_new d g1 l)
  end.
Qed.

Lemma loop_obstacles_sub (now : Q) (d : Draws) (g : Game) (l : loc) :
  pool_inv g -> l ∈ obstacles (loop now d g) ->
  if running g then l ∈ obstacles (loop_head now d g) else l ∈ obstacles g.
Proof.
  intros Hinv. destruct (running g) eqn:Hrun.
  - destruct (frame_spec now d g Hrun Hinv) as (_ & -> & _).
    rewrite list_elem_of_In, filter_In, <- list_elem_of_In. tauto.
  - unfold loop. now rewrite Hrun.
Qed.

(** *** The pass flag across a frame *)

Lemma frame_flag (now : Q) (d : Draws) (g : Game) (l : loc) (ob : Obstacle) :
  running g = true -> pool_inv g ->
  let dt := tick_dt now g in
  let hd := loop_head now d g in
  l ∈ obstacles hd -> heap hd !! l = Some ob ->
  passed_of (loop now d g) l =
    o_passed ob || Qltb (o_x ob - speed hd * dt + o_w ob) (p_x (player hd)) /\
  bonus_awarded now d g l =
    negb (o_passed ob) && Qltb (o_x ob - speed hd * dt + o_w ob) (p_x (player hd)).
Proof.
  intros Hrun Hinv dt hd Hl Hob.
  destruct (frame_spec now d g Hrun Hinv) as (_ & _ & Hh & _).
  fold dt hd in Hh. split.
  - unfold passed_of. rewrite Hh, bool_decide_eq_true_2, Hob by exact Hl.
    simpl. rewrite visit_ob_passed. unfold newly_passed. simpl.
    destruct (o_passed ob); reflexivity.
  - unfold bonus_awarded. fold hd dt.
    rewrite Hrun, bool_decide_eq_true_2 by exact Hl.
    unfold newly_at. rewrite Hob. reflexivity.
Qed.

Lemma bonus_awarded_inv (now : Q) (d : Draws) (g : Game) (l : loc) :
  bonus_awarded now d g l = true ->
  running g = true /\ l ∈ obstacles (loop_head now d g) /\
  exists ob, heap (loop_head now d g) !! l = Some ob /\
             newly_passed (tick_dt now g) (speed (loop_head now d g))
                          (p_x (player (loop_head now d g))) ob = true.
Proof.
  unfold bonus_awarded, newly_at.
  rewrite !andb_true_iff, bool_decide_eq_true.
  intros [[Hrun Hl] Hn]. split; [exact Hrun|]. split; [exact Hl|].
  destruct (heap (loop_head now d g) !! l) as [ob|]; [eauto|discriminate].
Qed.

Lemma frame_award_flag (now : Q) (d : Draws) (g : Game) (l : loc) :
  pool_inv g -> bonus_awarded now d g l = true ->
  passed_of (loop now d g) l = true.
Proof.
  intros Hinv Hb. pose proof Hb as Hb'.
  apply bonus_awarded_inv in Hb as (Hrun & Hl & ob & Hob & _).
  destruct (frame_flag now d g l ob Hrun Hinv Hl Hob) as [-> Hba].
  rewrite Hb' in Hba. symmetry in Hba. apply andb_true_iff in Hba as [_ ->].
  apply orb_true_r.
Qed.

Lemma frame_passed_stays (now : Q) (d : Draws) (g : Game) (l : loc) :
  pool_inv g -> l ∈ obstacles g -> passed_of g l = true ->
  bonus_awarded now d g l = false /\ passed_of (loop now d g) l = true.
Proof.
  intros Hinv Hl Hp. destruct (running g) eqn:Hrun.
  - destruct (loop_head_active now d g l Hinv Hl) as [Hl' Hh].
    unfold passed_of in Hp. destruct (heap g !! l) as [ob|] eqn:Hob;
      [|discriminate].
    destruct (frame_flag now d g l ob Hrun Hinv Hl' Hh) as [-> ->].
    rewrite Hp. auto.
  - split; [unfold bonus_awarded; now rewrite Hrun|].
    unfold loop. now rewrite Hrun.
Qed.

(** *** The pass bonus over an obstacle's life *)

Lemma reset_state_pool_inv (tnow : Q) (g : Game) : pool_inv (reset_state tnow g).
Proof. split; simpl; constructor. Qed.

Lemma reset_frame_fresh (tnow : Q) (d : Draws) (g : Game) (l : loc) :
  pool_inv g -> l ∈ obstacles g ->
  l ∉ obstacles (loop_head tnow d (reset_state tnow g)).
Proof.
  intros [_ Hall] Hl Hin. apply loop_head_new in Hin. simpl in Hin.
  rewrite Forall_forall in Hall.
  assert (l < length (heap g))%nat by (apply Hall; elem_tac).
  rewrite !elem_of_nil in Hin. lia.
Qed.

Lemma award_sets_flag (e : Event) (g : Game) (l : loc) :
  pool_inv g -> award e g l = true -> passed_of (handle e g) l = true.
Proof.
  intros Hinv. unfold award, frame_of.
  destruct e as [now d|tnow d|tnow d]; simpl.
  - apply frame_award_flag, Hinv.
  - unfold doJump. destruct (running g); simpl; [discriminate|].
    apply frame_award_flag, reset_state_pool_inv.
  - apply frame_award_flag, reset_state_pool_inv.
Qed.

Lemma passed_stays (e : Event) (g : Game) (l : loc) :
  pool_inv g -> l ∈ obstacles g -> passed_of g l = true ->
  award e g l = false /\
  (l ∈ obstacles (handle e g) -> passed_of (handle e g) l = true).
Proof.
  intros Hinv Hl Hp.
  assert (Hreset : forall tnow d,
             bonus_awarded tnow d (reset_state tnow g) l = false /\
             (l ∈ obstacles (resetGame tnow d g) ->
              passed_of (resetGame tnow d g) l = true)).
  { intros tnow d. pose proof (reset_frame_fresh tnow d g l Hinv Hl) as Hfresh.
    split.
    - apply not_true_iff_false. intros Hb.
      apply bonus_awarded_inv in Hb as (_ & Hin & _). contradiction.
    - intros Hin. exfalso. apply Hfresh.
      apply (loop_obstacles_sub tnow d (reset_state tnow g) l
               (reset_state_pool_inv tnow g)) in Hin.
      exact Hin. }
  unfold award, frame_of. destruct e as [now d|tnow d|tnow d]; simpl.
  - destruct (frame_passed_stays now d g l Hinv Hl Hp); auto.
  - unfold doJump. destruct (running g); simpl; [|apply Hreset].
    split; [reflexivity|]. destruct (p_onGround (player g)); auto.
  - apply Hreset.
Qed.

Lemma life_awards_bound (l : loc) (es : list Event) :
  forall g : Game,
    pool_inv g ->
    (life_awards l es g <= 1)%nat /\
    (l ∈ obstacles g -> passed_of g l = true -> life_awards l es g = 0%nat).
Proof.
  induction es as [|e es IH]; intros g Hinv; [simpl; auto|].
  cbn [life_awards].
  destruct (IH (handle e g) (handle_pool_inv e g Hinv)) as [IH1 IH2].
  split.
  - destruct (award e g l) eqn:Ha.
    + pose proof (award_sets_flag e g l Hinv Ha) as Hp.
      destruct (bool_decide (l ∈ obstacles (handle e g))) eqn:Hin; [|lia].
      apply bool_decide_eq_true in Hin. rewrite IH2 by assumption. lia.
    + destruct (bool_decide _); lia.
  - intros Hl Hp. destruct (passed_stays e g l Hinv Hl Hp) as [-> Hp'].
    destruct (bool_decide (l ∈ obstacles (handle e g))) eqn:Hin; [|lia].
    apply bool_decide_eq_true in Hin. rewrite IH2; auto.
Qed.

(** C5.  In a frame of a running game each active obstacle is tested once:
    it gets the [+5] exactly when its flag is clear and its trailing edge,
    after the move, is strictly left of [player.x]; the score grows by
    [10*dt] plus [5] for each such obstacle, none counted twice, and the
    flag is set afterwards.  An active obstacle whose flag is set gets no
    bonus and keeps the flag.  So along any sequence of frames and inputs an
    obstacle receives the bonus at most once while it stays active, and not
    at all once its flag is set. *)
Theorem pass_bonus_once (now : Q) (d : Draws) (g : Game) (l : loc)
    (es : list Event) :
  pool_inv g ->
  let dt := tick_dt now g in
  let hd := loop_head now d g in
  (running g = true ->
   score (loop now d g) ==
     score g + dt * 10 + 5 * inject_Z (Z.of_nat (length (awards now d g))) /\
   NoDup (awards now d g) /\
   forall ob, l ∈ obstacles hd -> heap hd !! l = Some ob ->
     let behind := Qltb (o_x ob - speed hd * dt + o_w ob) (p_x (player hd)) in
     bonus_awarded now d g l = negb (o_passed ob) && behind /\
     passed_of (loop now d g) l = o_passed ob || behind) /\
  (bonus_awarded now d g l = true ->
   l ∈ awards now d g /\ passed_of (loop now d g) l = true) /\
  (l ∈ obstacles g -> passed_of g l = true ->
   bonus_awarded now d g l = false /\ passed_of (loop now d g) l = true) /\
  (life_awards l es g <= 1)%nat /\
  (l ∈ obstacles g -> passed_of g l = true -> life_awards l es g = 0%nat).
Proof.
  intros Hinv dt hd.
  split; [|split; [|split]].
  - intros Hrun.
    destruct (frame_spec now d g Hrun Hinv) as (_ & _ & _ & Hs).
    split; [exact Hs|]. split.
    + unfold awards. apply NoDup_ListNoDup, List.NoDup_filter, NoDup_ListNoDup.
      apply (pool_inv_exclusive hd (loop_head_pool_inv now d g Hinv)).
    + intros ob Hl Hob behind.
      destruct (frame_flag now d g l ob Hrun Hinv Hl Hob) as [Hp Hb]. auto.
  - intros Hb. split; [|apply frame_award_flag; assumption].
    unfold awards. rewrite list_elem_of_In, filter_In, <- list_elem_of_In.
    split; [|exact Hb]. now apply bonus_awarded_inv in Hb.
  - apply frame_passed_stays, Hinv.
  - apply life_awards_bound, Hinv.
Qed.

(** ** The high score after the frame that ends a run *)

Lemma visit_ob_box (dt s px : Q) (ob : Obstacle) :
  o_x (visit_ob dt s px ob) = o_x ob - s * dt /\
  o_w (visit_ob dt s px ob) = o_w ob /\
  o_h (visit_ob dt s px ob) = o_h ob /\
  o_y (visit_ob dt s px ob) = o_y ob.
Proof. unfold visit_ob. destruct (newly_passed _ _ _ _); repeat split. Qed.

Lemma collides_not_newly (dt : Q) (g : Game) (l : loc) :
  collides_at dt g l = true -> newly_at dt g l = false.
Proof.
  unfold collides_at, newly_at. destruct (heap g !! l) as [ob|]; [|auto].
  rewrite andb_true_iff, rectsOverlap_iff. intros (_ & Hov & _).
  simpl in Hov.
  destruct (visit_ob_box dt (speed g) (p_x (player g)) ob) as (Hx & Hw & _).
  rewrite Hx, Hw in Hov.
  unfold newly_passed. apply andb_false_intro2, Qltb_ge. simpl. lra.
Qed.

Lemma obst_body_hs_step (dt : Q) (g : Game) (pre post : list loc) (x : loc)
    (ob : Obstacle) (h : Z) :
  obstacles g = pre ++ x :: post -> heap g !! x = Some ob ->
  highScore g = Int h ->
  let g' := obst_body dt (length pre) g in
  if collides_at dt g x
  then running g' = false /\ highScore g' = Int (Z.max h (Qfloor (score g')))
  else running g' = running g /\ highScore g' = Int h.
Proof.
  intros Hobs Hx Hh.
  assert (Hi : obstacles g !! length pre = Some x).
  { rewrite Hobs. apply list_lookup_middle. reflexivity. }
  cbv zeta. rewrite (obst_body_eq dt _ g x ob Hi Hx). cbv zeta.
  unfold collides_at. rewrite Hx. cbv zeta.
  destruct (off_screen _); simpl; [auto|].
  destruct (rectsOverlap _ _); simpl; [|auto].
  match goal with
  | |- context [gameOver ?g1] =>
      destruct (gameOver_fields g1) as (-> & -> & _);
      destruct (gameOver_cases g1 h Hh) as [(_ & Hf & -> & _)|(_ & Hf & -> & _)]
  end; simpl in *.
  - split; [reflexivity|]. now rewrite Z.max_r.
  - split; [reflexivity|]. now rewrite Z.max_l.
Qed.

Lemma before_snoc (pre : list loc) (a x : loc) : a ∈ pre -> before (pre ++ [x]) a x.
Proof.
  intros Ha. unfold before. change [a; x] with ([a] ++ [x]).
  apply sublist_app; [|reflexivity]. now apply singleton_sublist_l.
Qed.

Lemma before_app_l (pre post : list loc) (a b : loc) :
  before pre a b -> before (pre ++ post) a b.
Proof. unfold before. intros H. now apply sublist_inserts_r. Qed.

Lemma obst_loop_final_hs (dt : Q) (h0 : Z) (pre : list loc) :
  forall (post : list loc) (g : Game) (h : Z),
    obstacles g = pre ++ post -> NoDup pre ->
    (forall l, l ∈ pre -> is_Some (heap g !! l)) ->
    (forall a b, before pre a b -> collides_at dt g b = true ->
                 newly_at dt g a = false) ->
    (running g = false -> forall a, a ∈ pre -> newly_at dt g a = false) ->
    highScore g = Int h ->
    (if running g then h = h0 else h = Z.max h0 (Qfloor (score g))) ->
    let g' := obst_loop dt (length pre) g in
    exists h', highScore g' = Int h' /\
               (if running g' then h' = h0
                else h' = Z.max h0 (Qfloor (score g'))).
Proof.
  induction pre as [|x pre IH] using rev_ind;
    intros post g h Hobs Hnd Hheap Hgeo Hidle Hh Hrun.
  - simpl. eauto.
  - rewrite length_app, Nat.add_1_r. cbn [obst_loop]. cbv zeta.
    rewrite <- app_assoc in Hobs. simpl in Hobs.
    apply NoDup_app in Hnd as (Hnd & Hx & _).
    destruct (Hheap x) as [ob Hob]; [elem_tac|].
    destruct (obst_body_step dt g pre post x ob Hobs Hob)
      as (Henv & Hhp & Hs & Ho & _).
    pose proof (obst_body_hs_step dt g pre post x ob h Hobs Hob Hh) as Hstep.
    cbv zeta in Hstep.
    set (gb := obst_body dt (length pre) g) in *.
    pose proof Henv as (_ & _ & Hspeed & Hplayer).
    assert (Hother : forall l, l ∈ pre -> heap gb !! l = heap g !! l).
    { intros l Hl. rewrite Hhp. apply list_lookup_insert_ne.
      intros ->. apply (Hx l); [exact Hl|elem_tac]. }
    assert (Hnewly : forall l, l ∈ pre -> newly_at dt gb l = newly_at dt g l).
    { intros l Hl. unfold newly_at. now rewrite Hother, Hspeed, Hplayer. }
    assert (Hcoll : forall l, l ∈ pre -> collides_at dt gb l = collides_at dt g l).
    { intros l Hl. unfold collides_at. now rewrite Hother, Hspeed, Hplayer. }
    assert (Hnx : newly_at dt g x = newly_passed dt (speed g) (p_x (player g)) ob).
    { unfold newly_at. now rewrite Hob. }
    rewrite <- Hnx in Hs.
    assert (Hgeo' : forall a b, before pre a b -> collides_at dt gb b = true ->
                                newly_at dt gb a = false).
    { intros a b Hab Hb.
      assert (Ha : a ∈ pre).
      { eapply elem_of_sublist; [|exact Hab]. elem_tac. }
      assert (Hb' : b ∈ pre).
      { eapply elem_of_sublist; [|exact Hab]. elem_tac. }
      rewrite Hnewly by exact Ha. rewrite Hcoll in Hb by exact Hb'.
      eapply Hgeo; [|exact Hb]. now apply before_app_l. }
    destruct (collides_at dt g x) eqn:Hcx.
    + destruct Hstep as [Hrb Hhb].
      assert (Hsx : score gb = score g).
      { rewrite Hs, (collides_not_newly dt g x Hcx). reflexivity. }
      eapply (IH _ gb _ Ho Hnd); [| exact Hgeo' | | exact Hhb |].
      * intros l Hl. rewrite Hother by exact Hl. apply Hheap. elem_tac.
      * intros _ a Ha. rewrite Hnewly by exact Ha.
        eapply Hgeo; [apply before_snoc, Ha|exact Hcx].
      * rewrite Hrb. destruct (running g).
        -- now subst h.
        -- subst h. rewrite Hsx. lia.
    + destruct Hstep as [Hrb Hhb].
      eapply (IH _ gb _ Ho Hnd); [| exact Hgeo' | | exact Hhb |].
      * intros l Hl. rewrite Hother by exact Hl. apply Hheap. elem_tac.
      * intros Hidle' a Ha. rewrite Hnewly by exact Ha.
        apply Hidle; [congruence|elem_tac].
      * rewrite Hrb. destruct (running g) eqn:Hr; [exact Hrun|].
        rewrite Hs, (Hidle eq_refl x) by elem_tac. exact Hrun.
Qed.

(** ** Spacing of obstacles when time runs forward *)

Lemma spawn_lead (r spd : Q) :
  unit_draw r -> 240 <= spd ->
  lead_min + 0.066 * spd <= (spd - 0.132) * spawn_interval r spd /\
  0 < spawn_interval r spd.
Proof.
  intros Hr Hs. pose proof (spawn_interval_lower r spd Hr) as Hlow.
  split; [|lra].
  unfold spawn_interval in *. destruct (rand_range r 0.9 1.6 Hr) as [Hlo _]; [lra|].
  set (u := rand r 0.9 1.6) in *. unfold lead_min.
  assert (Hdiv : spd / 1000 == spd * 0.001) by field.
  destruct (Qmin_cases 0.5 (spd / 1000)) as [[Hc ->]|[Hc ->]];
    rewrite Hdiv in *; nra.
Qed.

Lemma spawnObstacle_shape (d : Draws) (g : Game) :
  pool_inv g -> valid_draws d ->
  exists (b : loc) (nb : Obstacle),
    obstacles (spawnObstacle d g) = obstacles g ++ [b] /\
    (b ∉ obstacles g) /\
    heap (spawnObstacle d g) !! b = Some nb /\
    o_x nb = baseW + 20 /\ o_passed nb = false /\ spawn_size nb.
Proof.
  intros Hinv Hd. pose proof (spawn_size_ok d Hd) as Hsz. cbv zeta in Hsz.
  pose proof (pool_inv_exclusive g Hinv) as (_ & _ & Hex).
  destruct Hinv as [_ Hall]. rewrite Forall_forall in Hall.
  unfold spawnObstacle.
  destruct (pop (obstaclePool g)) as [[x pool']|] eqn:Hpop; simpl.
  - apply pop_Some in Hpop.
    assert (Hx : x ∈ obstaclePool g) by (rewrite Hpop; elem_tac).
    eexists x, _. split; [reflexivity|]. split; [|split].
    + intros Hin. exact (Hex x Hin Hx).
    + apply list_lookup_insert_eq, Hall. elem_tac.
    + simpl. auto.
  - eexists (length (heap g)), _. split; [reflexivity|]. split; [|split].
    + intros Hin. assert (length (heap g) < length (heap g))%nat; [|lia].
      apply Hall. elem_tac.
    + apply list_lookup_middle. reflexivity.
    + simpl. auto.
Qed.

(** The state the obstacle loop starts from, relative to the state at the
    start of the frame. *)
Lemma loop_head_shape (now : Q) (d : Draws) (g : Game) :
  pool_inv g -> valid_draws d ->
  let dt := tick_dt now g in
  let hd := loop_head now d g in
  speed hd = speed g + dt * 2 /\
  player hd = stepPlayer dt (player g) /\
  (forall l, l ∈ obstacles g -> heap hd !! l = heap g !! l) /\
  ((0 < spawnTimer g - dt /\ spawnTimer hd = spawnTimer g - dt /\
    obstacles hd = obstacles g) \/
   (spawnTimer g - dt <= 0 /\
    spawnTimer hd = spawn_interval (gapdraw d) (speed hd) /\
    exists (b : loc) (nb : Obstacle),
      obstacles hd = obstacles g ++ [b] /\ (b ∉ obstacles g) /\
      heap hd !! b = Some nb /\
      o_x nb = baseW + 20 /\ o_passed nb = false /\ spawn_size nb)).
Proof.
  intros Hinv Hd dt hd.
  destruct (loop_head_fields now d g) as (_ & _ & _ & Hsp & Hpl & _ & _ & Ht).
  fold dt hd in Hsp, Hpl, Ht.
  split; [exact Hsp|]. split; [exact Hpl|]. split.
  { intros l Hl. apply (loop_head_active now d g l Hinv Hl). }
  rewrite Hsp.
  destruct (Qle_bool (spawnTimer g - dt) 0) eqn:Hdue.
  - right. apply Qle_bool_iff in Hdue. split; [exact Hdue|]. split; [exact Ht|].
    subst hd. unfold loop_head. fold dt. cbn [spawnTimer].
    apply Qle_bool_iff in Hdue. rewrite Hdue.
    match goal with
    | |- context [spawnObstacle d ?g1] =>
        destruct (spawnObstacle_shape d g1 Hinv Hd)
          as (b & nb & Ho & Hb & Hh & Hnb)
    end.
    exists b, nb. simpl. auto.
  - left. apply Qle_bool_gt in Hdue. split; [exact Hdue|]. split; [exact Ht|].
    subst hd. unfold loop_head. fold dt. cbn [spawnTimer].
    apply Qle_bool_gt in Hdue. rewrite Hdue. reflexivity.
Qed.

Lemma List_filter_sublist {A : Type} (f : A -> bool) (l : list A) :
  List.filter f l `sublist_of` l.
Proof.
  induction l as [|x l IH]; simpl; [constructor|].
  destruct (f x); [now apply sublist_skip|now apply sublist_cons].
Qed.

Lemma ready_spaced (dt : Q) (hd : Game) :
  ready dt hd -> spaced (obst_loop dt (length (obstacles hd)) hd).
Proof.
  intros [Hpool [Hdt0 Hdt1] Hspeed Hbox Htimer Hob Hgap].
  destruct (pool_inv_exclusive hd Hpool) as (Hnd & _).
  destruct (obst_loop_spec dt (obstacles hd) [] hd)
    as ((_ & Ht' & Hs' & Hp') & Ho & Hh & _).
  { now rewrite app_nil_r. }
  { exact Hnd. }
  { intros l Hl. apply pool_inv_allocated; [exact Hpool|elem_tac]. }
  rewrite app_nil_r in Ho.
  set (g' := obst_loop dt (length (obstacles hd)) hd) in *.
  assert (Hact : forall l ob', l ∈ obstacles g' -> heap g' !! l = Some ob' ->
             exists ob, l ∈ obstacles hd /\ heap hd !! l = Some ob /\
                        ob' = visit_ob dt (speed hd) (p_x (player hd)) ob).
  { intros l ob' Hl Hl'. rewrite Ho in Hl.
    apply list_elem_of_In, filter_In in Hl as [Hl _].
    apply list_elem_of_In in Hl.
    rewrite Hh, bool_decide_eq_true_2 in Hl' by exact Hl.
    destruct (heap hd !! l) as [ob|]; [|discriminate].
    exists ob. simpl in Hl'. split; [exact Hl|]. split; [reflexivity|congruence]. }
  constructor.
  - apply obst_loop_pool_inv, Hpool.
  - now rewrite Hs'.
  - now rewrite Hp'.
  - intros _. now rewrite Ht'.
  - intros l ob' Hl Hl'. destruct (Hact l ob' Hl Hl') as (ob & Hin & Hlk & ->).
    destruct (Hob l ob Hin Hlk) as (Hsz & Hx & Hlead).
    destruct (visit_ob_box dt (speed hd) (p_x (player hd)) ob)
      as (Ex & Ew & Eh & _).
    rewrite Hs', Ht', Hp'.
    split; [|split; [|split]].
    + unfold spawn_size. rewrite Ew, Eh. exact Hsz.
    + rewrite Ex. nra.
    + rewrite visit_ob_passed. intros Hflag.
      apply orb_false_iff in Hflag as [Hf Hn].
      unfold newly_passed in Hn. rewrite Hf in Hn. simpl in Hn.
      apply Qltb_ge in Hn. rewrite Ex, Ew. exact Hn.
    + unfold lead_ok in *. rewrite Ex. exact Hlead.
  - intros a b oa' ob' Hab Ha' Hb'.
    assert (Hab' : before (obstacles hd) a b).
    { unfold before in *. etransitivity; [exact Hab|].
      rewrite Ho. apply List_filter_sublist. }
    assert (Ha : a ∈ obstacles g').
    { eapply elem_of_sublist; [|exact Hab]. elem_tac. }
    assert (Hb : b ∈ obstacles g').
    { eapply elem_of_sublist; [|exact Hab]. elem_tac. }
    destruct (Hact a oa' Ha Ha') as (oa & _ & Hlka & ->).
    destruct (Hact b ob' Hb Hb') as (ob & _ & Hlkb & ->).
    pose proof (Hgap a b oa ob Hab' Hlka Hlkb) as Hg.
    destruct (visit_ob_box dt (speed hd) (p_x (player hd)) oa) as (Exa & _).
    destruct (visit_ob_box dt (speed hd) (p_x (player hd)) ob) as (Exb & _).
    unfold gap_ok in *. rewrite Hs', Exa, Exb. exact Hg.
Qed.

Lemma before_snoc_inv (ls : list loc) (a c b : loc) :
  before (ls ++ [b]) a c -> before ls a c \/ (a ∈ ls /\ c = b).
Proof.
  unfold before. intros H. apply sublist_app_r in H as (l1 & l2 & E & H1 & H2).
  destruct l1 as [|x [|y l1]]; simpl in E.
  - subst l2. apply sublist_length in H2. simpl in H2. lia.
  - injection E as <- <-. right. split.
    + now apply singleton_sublist_l.
    + apply singleton_sublist_l, list_elem_of_singleton in H2. exact H2.
  - injection E as <- <- E. symmetry in E. apply app_eq_nil in E as [-> ->].
    now left.
Qed.

Lemma spaced_ready (now : Q) (d : Draws) (g : Game) :
  spaced g -> valid_draws d -> lastTime g <= now ->
  ready (tick_dt now g) (loop_head now d g).
Proof.
  intros [Hpool Hspeed Hbox Htimer Hob Hgap] Hd Hclock.
  pose proof (tick_dt_nonneg now g Hclock) as Hdt0.
  pose proof (tick_dt_le_max now g) as Hdt1.
  destruct (loop_head_shape now d g Hpool Hd) as (Hs & Hp & Hold & Hcase).
  pose proof (loop_head_pool_inv now d g Hpool) as Hpool'.
  set (dt := tick_dt now g) in *. set (hd := loop_head now d g) in *.
  clearbody hd dt.
  assert (Hs240 : 240 <= speed hd) by (rewrite Hs; lra).
  assert (Hgd : unit_draw (gapdraw d)) by apply Hd.
  destruct (spawn_lead (gapdraw d) (speed hd) Hgd Hs240) as [Hlead HT].
  constructor.
  - exact Hpool'.
  - split; assumption.
  - exact Hs240.
  - rewrite Hp. destruct Hbox as (? & ? & ?).
    unfold stepPlayer. destruct (Qle_bool _ _); repeat split; assumption.
  - destruct Hcase as [(Hpos & -> & _)|(_ & -> & _)]; assumption.
  - intros l ob Hl Hlk. unfold lead_ok, moved. simpl.
    destruct Hcase as [(Hpos & Ht & Ho)|(Hdue & Ht & b & nb & Ho & Hb & Hnb & Hx & _ & Hsz)].
    + rewrite Ho in Hl. rewrite Hold in Hlk by exact Hl.
      destruct (Hob l ob Hl Hlk) as (Hsz & Hx & _ & Hlo).
      assert (H0 : 0 < spawnTimer g).
      { apply Htimer. intros E. rewrite E in Hl. now apply elem_of_nil in Hl. }
      split; [exact Hsz|]. split; [exact Hx|].
      unfold lead_ok in Hlo. rewrite Ht, Hs.
      unfold baseW, lead_min in *. nra.
    + rewrite Ho in Hl. apply elem_of_app in Hl as [Hl|Hl].
      * rewrite Hold in Hlk by exact Hl.
        destruct (Hob l ob Hl Hlk) as (Hsz' & Hx' & _).
        split; [exact Hsz'|]. split; [exact Hx'|].
        rewrite Ht. unfold baseW, lead_min in *. nra.
      * apply list_elem_of_singleton in Hl. subst l.
        rewrite Hnb in Hlk. injection Hlk as <-.
        split; [exact Hsz|]. split; [rewrite Hx; lra|].
        rewrite Ht, Hx. unfold baseW, lead_min in *. nra.
  - intros a b oa ob Hab Ha Hb. unfold gap_ok, moved. simpl.
    destruct Hcase as [(Hpos & Ht & Ho)|(Hdue & Ht & c & nc & Ho & Hc & Hnc & Hx & _ & Hsz)].
    + rewrite Ho in Hab.
      assert (Hina : a ∈ obstacles g).
      { eapply elem_of_sublist; [|exact Hab]. elem_tac. }
      assert (Hinb : b ∈ obstacles g).
      { eapply elem_of_sublist; [|exact Hab]. elem_tac. }
      rewrite Hold in Ha, Hb by assumption.
      pose proof (Hgap a b oa ob Hab Ha Hb) as Hg.
      unfold gap_ok, gap_min in *. rewrite Hs.
      assert (Hdiv : forall q : Q, q / 120 == q * (1 # 120)) by (intros; field).
      rewrite Hdiv in *. nra.
    + rewrite Ho in Hab. apply before_snoc_inv in Hab as [Hab|[Hina ->]].
      * assert (Hina : a ∈ obstacles g).
        { eapply elem_of_sublist; [|exact Hab]. elem_tac. }
        assert (Hinb : b ∈ obstacles g).
        { eapply elem_of_sublist; [|exact Hab]. elem_tac. }
        rewrite Hold in Ha, Hb by assumption.
        pose proof (Hgap a b oa ob Hab Ha Hb) as Hg.
        unfold gap_ok, gap_min in *. rewrite Hs.
        assert (Hdiv : forall q : Q, q / 120 == q * (1 # 120)) by (intros; field).
        rewrite Hdiv in *. nra.
      * rewrite Hold in Ha by exact Hina.
        rewrite Hnc in Hb. injection Hb as <-.
        destruct (Hob a oa Hina Ha) as (_ & _ & _ & Hlo).
        assert (H0 : 0 < spawnTimer g).
        { apply Htimer. intros E. rewrite E in Hina. now apply elem_of_nil in Hina. }
        unfold lead_ok, gap_min, lead_min, baseW in *. rewrite Hx, Hs.
        assert (Hdiv : forall q : Q, q / 120 == q * (1 # 120)) by (intros; field).
        rewrite Hdiv.
        assert (0 <= (speed g - 0.132) * (0.033 - spawnTimer g)) by nra.
        nra.
Qed.

Lemma spaced_no_bonus_after_hit (now : Q) (d : Draws) (g : Game) :
  spaced g -> valid_draws d -> lastTime g <= now ->
  no_bonus_after_hit (tick_dt now g) (loop_head now d g).
Proof.
  intros Hsp Hd Hclock a b Hab Hcoll.
  pose proof (spaced_ready now d g Hsp Hd Hclock) as Hrd.
  destruct Hsp as [Hpool Hspeed Hbox Htimer Hob Hgap].
  pose proof (tick_dt_nonneg now g Hclock) as Hdt0.
  pose proof (tick_dt_le_max now g) as Hdt1.
  destruct (loop_head_shape now d g Hpool Hd) as (Hs & _ & Hold & Hcase).
  destruct Hrd as [_ _ _ Hbox' _ _ _]. destruct Hbox' as (Hpx & Hpw & _).
  destruct Hbox as (Hpxg & _).
  set (dt := tick_dt now g) in *. set (hd := loop_head now d g) in *.
  clearbody hd dt.
  apply not_true_iff_false. intros Hnew.
  unfold collides_at in Hcoll. unfold newly_at in Hnew.
  destruct (heap hd !! b) as [ob|] eqn:Hb; [|discriminate].
  destruct (heap hd !! a) as [oa|] eqn:Ha; [|discriminate].
  apply andb_true_iff in Hcoll as [_ Hov].
  apply rectsOverlap_iff in Hov as (Hov1 & Hov2 & _). simpl in Hov1, Hov2.
  destruct (visit_ob_box dt (speed hd) (p_x (player hd)) ob) as (Ex & Ew & _).
  rewrite Ex, Ew in Hov1. rewrite Ex in Hov2.
  unfold newly_passed in Hnew. apply andb_true_iff in Hnew as [Hflag Hbehind].
  apply negb_true_iff in Hflag. apply Qltb_lt in Hbehind. simpl in Hbehind.
  rewrite Hpx in *. rewrite Hpw in *. rewrite Hs in *.
  assert (Hsd : (speed g + dt * 2) * dt <= 0.033 * speed g + 0.002178) by nra.
  assert (Hold_a : a ∈ obstacles g -> heap g !! a = Some oa ->
                   o_w oa < 70 /\ 80 <= o_x oa + o_w oa).
  { intros Hin Hlk. destruct (Hob a oa Hin Hlk) as ((_ & Hw & _) & _ & Hfl & _).
    split; [exact Hw|]. rewrite <- Hpxg. apply Hfl, Hflag. }
  assert (Hdiv : forall q : Q, q / 120 == q * (1 # 120)) by (intros; field).
  assert (Hboth : before (obstacles g) a b -> False).
  { intros Hab'.
    assert (Hina : a ∈ obstacles g).
    { eapply elem_of_sublist; [|exact Hab']. elem_tac. }
    assert (Hinb : b ∈ obstacles g).
    { eapply elem_of_sublist; [|exact Hab']. elem_tac. }
    rewrite Hold in Ha, Hb by assumption.
    destruct (Hold_a Hina Ha) as [Hwa Hxa].
    destruct (Hob b ob Hinb Hb) as ((_ & Hwb & _) & _).
    pose proof (Hgap a b oa ob Hab' Ha Hb) as Hg.
    unfold gap_ok, gap_min in Hg. rewrite Hdiv in Hg. nra. }
  destruct Hcase as [(_ & _ & Ho)|(Hdue & _ & c & nc & Ho & _ & Hnc & Hxc & _ & Hszc)].
  - rewrite Ho in Hab. exact (Hboth Hab).
  - rewrite Ho in Hab. apply before_snoc_inv in Hab as [Hab|[Hina ->]];
      [exact (Hboth Hab)|].
    rewrite Hold in Ha by exact Hina. rewrite Hnc in Hb. injection Hb as <-.
    destruct (Hold_a Hina Ha) as [Hwa Hxa].
    destruct (Hob a oa Hina Ha) as (_ & _ & _ & Hlo).
    assert (H0 : 0 < spawnTimer g).
    { apply Htimer. intros E. rewrite E in Hina. now apply elem_of_nil in Hina. }
    unfold lead_ok, lead_min, baseW in *. rewrite Hxc in *.
    assert (0 <= (speed g - 0.132) * (0.033 - spawnTimer g)) by nra.
    nra.
Qed.

Lemma loop_spaced (now : Q) (d : Draws) (g : Game) :
  spaced g -> valid_draws d -> lastTime g <= now -> spaced (loop now d g).
Proof.
  intros Hsp Hd Hclock. destruct (running g) eqn:Hrun.
  - rewrite loop_running by exact Hrun.
    apply ready_spaced, spaced_ready; assumption.
  - unfold loop. now rewrite Hrun.
Qed.

Lemma reset_state_spaced (tnow : Q) (g : Game) :
  spaced g -> spaced (reset_state tnow g).
Proof.
  intros [_ _ Hbox _ _ _]. constructor; simpl.
  - apply reset_state_pool_inv.
  - lra.
  - exact Hbox.
  - congruence.
  - intros l ob Hl. now apply elem_of_nil in Hl.
  - intros a b oa ob Hab. unfold before in Hab.
    apply sublist_nil_r in Hab. discriminate.
Qed.

Lemma resetGame_spaced (tnow : Q) (d : Draws) (g : Game) :
  spaced g -> valid_draws d -> spaced (resetGame tnow d g).
Proof.
  intros Hsp Hd. apply loop_spaced; [apply reset_state_spaced, Hsp|exact Hd|].
  simpl. lra.
Qed.

Lemma handle_spaced (e : Event) (g : Game) :
  spaced g -> valid_draws (event_draws e) -> on_time e g ->
  spaced (handle e g).
Proof.
  intros Hsp Hd Hclock. destruct e as [now d|tnow d|tnow d]; simpl in *.
  - apply loop_spaced; assumption.
  - unfold doJump. destruct (running g); simpl.
    + destruct (p_onGround (player g)); [|exact Hsp].
      destruct Hsp as [Hpool Hspeed Hbox Htimer Hob Hgap].
      constructor; assumption.
    + apply resetGame_spaced; assumption.
  - apply resetGame_spaced; assumption.
Qed.

Lemma clocked_spaced (g : Game) : clocked g -> spaced g.
Proof.
  induction 1 as [stored|e g _ IH Hd Hclock].
  - constructor; simpl.
    + split; simpl; constructor.
    + lra.
    + repeat split.
    + congruence.
    + intros l ob Hl. now apply elem_of_nil in Hl.
    + intros a b oa ob Hab. unfold before in Hab.
      apply sublist_nil_r in Hab. discriminate.
  - apply handle_spaced; assumption.
Qed.

Lemma clocked_reachable (g : Game) : clocked g -> reachable g.
Proof.
  induction 1 as [stored|e g _ IH Hd _]; [apply reach_init|].
  now apply reach_step.
Qed.

(** After the frame that ends a run, the high score is the larger of the
    previous one and the floor of the final score. *)
Lemma frame_end_highScore (now : Q) (d : Draws) (g : Game) (h : Z) :
  spaced g -> valid_draws d -> lastTime g <= now ->
  running g = true -> highScore g = Int h ->
  exists h' : Z,
    highScore (loop now d g) = Int h' /\
    (if running (loop now d g) then h' = h
     else h' = Z.max h (Qfloor (score (loop now d g)))).
Proof.
  intros Hsp Hd Hclock Hrun Hh.
  pose proof (spaced_no_bonus_after_hit now d g Hsp Hd Hclock) as Hgeo.
  pose proof (loop_head_pool_inv now d g (sp_pool g Hsp)) as Hpool.
  destruct (loop_head_fields now d g) as (Hr & _ & _ & _ & _ & Hhs & _).
  rewrite loop_running by exact Hrun.
  set (dt := tick_dt now g) in *. set (hd := loop_head now d g) in *.
  rewrite Hrun in Hr. rewrite Hh in Hhs.
  apply (obst_loop_final_hs dt h (obstacles hd) [] hd h).
  - now rewrite app_nil_r.
  - apply (pool_inv_exclusive hd Hpool).
  - intros l Hl. apply pool_inv_allocated; [exact Hpool|elem_tac].
  - exact Hgeo.
  - rewrite Hr. discriminate.
  - exact Hhs.
  - now rewrite Hr.
Qed.

(** C1.  With an integer high score [h] in memory and in storage,
    [gameOver] stops the run and leaves [max h (floor score)] as the high
    score, in memory and as the value a reload reads from storage.  It
    writes exactly when the score itself, not its floor, exceeds [h]: then
    the floor of the score goes to memory and, in decimal, to storage (the
    value already there when the floor equals [h]); otherwise memory and
    storage are left as they are.  Along any sequence of frames and inputs
    the persisted high score stays an integer and never decreases.  When a
    frame ends the run, in a game played with a clock that does not run
    backwards (which keeps the obstacles [spaced]), the high score after
    that frame is the larger of [h] and the floor of the score the run
    ended with.  A run ended by [resetGame] is not recorded: memory and
    storage keep what they held. *)
Theorem highScore_on_run_end (g : Game) (h : Z) :
  highScore g = Int h -> hs_synced g ->
  let f := Qfloor (score g) in
  (running (gameOver g) = false /\
   highScore (gameOver g) = Int (Z.max h f) /\
   loadHighScore (storage (gameOver g)) = Int (Z.max h f) /\
   (h <= Z.max h f)%Z /\
   ((h < f)%Z ->
    highScore (gameOver g) = Int f /\
    storage (gameOver g) = Some (String_of_JSInt (Int f))) /\
   ((f <= h)%Z ->
    highScore (gameOver g) = Int h /\
    loadHighScore (storage (gameOver g)) = Int h) /\
   (inject_Z h < score g ->
    highScore (gameOver g) = Int f /\
    storage (gameOver g) = Some (String_of_JSInt (Int f))) /\
   (score g <= inject_Z h ->
    highScore (gameOver g) = highScore g /\
    storage (gameOver g) = storage g)) /\
  (forall es : list Event,
     exists h' : Z,
       highScore (run es g) = Int h' /\ (h <= h')%Z /\
       loadHighScore (storage (run es g)) = Int h') /\
  (clocked g -> spaced g) /\
  (forall (now : Q) (d : Draws),
     spaced g -> running g = true -> valid_draws d -> lastTime g <= now ->
     running (loop now d g) = false ->
     let final := Qfloor (score (loop now d g)) in
     highScore (loop now d g) = Int (Z.max h final) /\
     loadHighScore (storage (loop now d g)) = Int (Z.max h final)) /\
  (reachable g ->
   forall (tnow : Q) (d : Draws),
     valid_draws d ->
     highScore (resetGame tnow d g) = Int h /\
     storage (resetGame tnow d g) = storage g).
Proof.
  intros Hh Hsync f.
  split; [|split; [|split; [apply clocked_spaced|split]]].
  - pose proof (gameOver_hs_synced g Hsync) as Hsync'.
    unfold hs_synced in Hsync'.
    destruct (gameOver_fields g) as (Hrun & _).
    destruct (gameOver_cases g h Hh)
      as [(Hgt & Hf & Hhs & Hst)|(Hle & Hf & Hhs & Hst)];
      fold f in Hf, Hhs, Hst.
    + rewrite Z.max_r by exact Hf. rewrite Hsync', Hhs.
      refine (conj Hrun (conj eq_refl (conj eq_refl (conj Hf
                (conj _ (conj _ (conj _ _))))))).
      * intros _. split; [reflexivity|exact Hst].
      * intros Hfh. assert (f = h) as -> by lia. split; reflexivity.
      * intros _. split; [reflexivity|exact Hst].
      * intros Hle. lra.
    + rewrite Z.max_l by exact Hf. rewrite Hsync', Hhs.
      refine (conj Hrun (conj eq_refl (conj eq_refl (conj _
                (conj _ (conj _ (conj _ _))))))).
      * lia.
      * intros Hfh. lia.
      * intros _. split; reflexivity.
      * intros Hgt. lra.
      * intros _. split; [now rewrite Hh|exact Hst].
  - intros es.
    destruct (run_hs_inv (hs_at_least h) (hs_at_least_same h)
                (gameOver_hs_at_least h) es g) as (h' & Hh' & Hle & Hs').
    + exists h. split; [exact Hh|]. split; [lia|exact Hsync].
    + exists h'. unfold hs_synced in Hs'. rewrite Hs'. auto.
  - intros now d Hspaced Hrun Hd Hclock Hend final.
    destruct (frame_end_highScore now d g h Hspaced Hd Hclock Hrun Hh)
      as (h' & Hh' & Hmax).
    rewrite Hend in Hmax. subst h'. fold final in Hh'.
    split; [exact Hh'|].
    pose proof (loop_hs_inv hs_synced hs_synced_same gameOver_hs_synced
                  now d g Hsync) as Hs'.
    unfold hs_synced in Hs'. now rewrite Hs'.
  - intros Hreach tnow d Hd.
    rewrite (resetGame_state tnow d g (reachable_player_box g Hreach) Hd).
    cbn [highScore storage]. split; [exact Hh|reflexivity].
Qed.

(** ** The theorems at work on sample executions *)

Lemma half_draws_valid : valid_draws half_draws.
Proof. unfold valid_draws, unit_draw, half_draws. simpl. repeat split; lra. Qed.

Lemma run_reachable (es : list Event) (g : Game) :
  reachable g -> Forall (fun e => valid_draws (event_draws e)) es ->
  reachable (run es g).
Proof.
  revert g. induction es as [|e es IH]; intros g Hg Hes; simpl; [exact Hg|].
  inversion Hes; subst. apply IH; [|assumption]. now apply reach_step.
Qed.

Lemma sample_started_reachable : reachable sample_started.
Proof.
  apply run_reachable; [apply reach_init|].
  repeat constructor; apply half_draws_valid.
Qed.

Lemma sample_airborne_reachable : reachable sample_airborne.
Proof.
  apply run_reachable; [apply sample_started_reachable|].
  repeat constructor; apply half_draws_valid.
Qed.

(** The spec's sentence on the end of a run fails on the script in two
    ways.  [gameOver] writes to storage although the floor of the score,
    [7], does not exceed the stored high score [7], because it compares the
    score [7.5] itself: the stored text changes.  And a run that a restart
    ends is not recorded: with a score of floor [1] and a high score of
    [0], the high score after the restart is still [0], not the larger of
    the two. *)
Lemma highScore_on_run_end_fails :
  (Qfloor (score sample_tie) = 7%Z /\ highScore sample_tie = Int 7 /\
   loadHighScore (storage sample_tie) = Int 7 /\
   storage sample_tie = Some "7 pts"%string /\
   storage (gameOver sample_tie) = Some "7"%string) /\
  (reachable sample_early /\ running sample_early = true /\
   highScore sample_early = Int 0 /\ Qfloor (score sample_early) = 1%Z /\
   highScore (handle (Restart 1200 half_draws) sample_early) = Int 0 /\
   loadHighScore (storage (handle (Restart 1200 half_draws) sample_early))
   = Int 0).
Proof.
  split; [repeat split; vm_compute; reflexivity|].
  split; [|repeat split; vm_compute; reflexivity].
  apply run_reachable; [apply sample_started_reachable|].
  repeat constructor; apply half_draws_valid.
Qed.

(** The spec's sentence on score and speed within a run fails on the
    script: in a run just started at time [1000], a frame stamped [995]
    lowers both, since the elapsed time is clamped from above only. *)
Lemma score_speed_monotone_fails :
  reachable sample_started /\ running sample_started = true /\
  lastTime sample_started = 1000 /\
  score (loop 995 half_draws sample_started) < score sample_started /\
  speed (loop 995 half_draws sample_started) < speed sample_started.
Proof.
  split; [apply sample_started_reachable|].
  repeat split; vm_compute; reflexivity.
Qed.

Lemma sample_passing_pool_inv : pool_inv sample_passing.
Proof.
  split; simpl.
  - apply NoDup_singleton.
  - repeat constructor.
Qed.

Example sample_airborne_player :
  p_onGround (player sample_airborne) = false /\
  p_vy (player sample_airborne) == -6928 # 10.
Proof. split; vm_compute; reflexivity. Qed.

(** [stepPlayer] itself never clears [onGround]; it is [doJump] that does,
    and the player leaves the ground in no other way. *)
Example stepPlayer_keeps_flag :
  p_y (stepPlayer 0.016 floating_player) < groundY /\
  p_onGround (stepPlayer 0.016 floating_player) = true.
Proof. split; vm_compute; reflexivity. Qed.

(** The elapsed time is clamped from above only: a frame whose timestamp is
    earlier than the previous one takes score away. *)
Example clock_running_backwards :
  score (loop 984 half_draws sample_started) < score sample_started.
Proof. vm_compute. reflexivity. Qed.

(** In a crowded frame the bonus for the earlier obstacle comes after
    [gameOver] has saved the score. *)
Example sample_crowded_ends :
  running (loop 5016 half_draws sample_crowded) = false /\
  highScore (loop 5016 half_draws sample_crowded) = Int 42 /\
  Qfloor (score (loop 5016 half_draws sample_crowded)) = 47%Z.
Proof. repeat split; vm_compute; reflexivity. Qed.

Example sample_passing_bonus :
  bonus_awarded 5016 half_draws sample_passing 0%nat = true /\
  score (loop 5016 half_draws sample_passing) == 4666 # 100 /\
  life_awards 0%nat [Frame 5016 half_draws; Frame 5032 half_draws]
              sample_passing = 1%nat.
Proof. repeat split; vm_compute; reflexivity. Qed.

Lemma sample_crashing_spaced : spaced sample_crashing.
Proof.
  constructor; simpl.
  - split; simpl; [apply NoDup_singleton|repeat constructor].
  - lra.
  - repeat split.
  - intros _. lra.
  - intros l ob Hl%list_elem_of_singleton Hlk. subst l.
    injection Hlk as <-. unfold spawn_size, lead_ok, lead_min, baseW. simpl.
    repeat split; lra.
  - intros a b oa ob Hab. apply sublist_length in Hab. simpl in Hab. lia.
Qed.

Example sample_crashing_ends :
  running (loop 5016 half_draws sample_crashing) = false /\
  Qfloor (score (loop 5016 half_draws sample_crashing)) = 41%Z /\
  storage (loop 5016 half_draws sample_crashing) = Some "41"%string.
Proof. repeat split; vm_compute; reflexivity. Qed.

Lemma highScore_on_run_end_witness :
  (highScore (gameOver sample_crashing) = Int 41 /\
   loadHighScore (storage (gameOver sample_crashing)) = Int 41) /\
  highScore (loop 5016 half_draws sample_crashing) = Int 41.
Proof.
  destruct (highScore_on_run_end sample_crashing 7 eq_refl eq_refl)
    as ((_ & Hhs & Hst & _) & _ & _ & Hframe & _).
  split; [split; [exact Hhs|exact Hst]|].
  assert (Hclock : lastTime sample_crashing <= 5016).
  { vm_compute. discriminate. }
  destruct (Hframe 5016 half_draws sample_crashing_spaced eq_refl
              half_draws_valid Hclock eq_refl) as [Hfinal _].
  exact Hfinal.
Defined.

Lemma physics_step_witness :
  p_y (player (loop 1049 half_draws sample_airborne)) <= groundY.
Proof.
  destruct (physics_step 1049 half_draws sample_airborne
              sample_airborne_reachable eq_refl) as (_ & _ & _ & Hy).
  exact Hy.
Defined.

Lemma pass_bonus_once_witness :
  (life_awards 0%nat [Frame 5016 half_draws; Frame 5032 half_draws]
               sample_passing <= 1)%nat.
Proof.
  destruct (pass_bonus_once 5016 half_draws sample_passing 0%nat
              [Frame 5016 half_draws; Frame 5032 half_draws]
              sample_passing_pool_inv) as (_ & _ & _ & Hlife & _).
  exact Hlife.
Defined.

Lemma doJump_running_witness :
  p_vy (player (doJump 1020 half_draws sample_started)) = -720.
Proof.
  destruct (doJump_running 1020 half_draws sample_started eq_refl)
    as [_ Hground].
  destruct (Hground eq_refl) as (_ & Hvy & _). exact Hvy.
Defined.

Lemma spawn_interval_positive_witness : 0.4 <= spawn_interval 0.5 240.
Proof.
  destruct (spawn_interval_positive 0.5 240 1016 half_draws sample_started)
    as [Hdraw _].
  apply Hdraw. unfold unit_draw. split; lra.
Defined.

Lemma score_speed_monotone_witness :
  score sample_airborne <= score (loop 1049 half_draws sample_airborne).
Proof.
  assert (Hclock : lastTime sample_airborne <= 1049).
  { vm_compute. discriminate. }
  destruct (score_speed_monotone 1049 half_draws sample_airborne eq_refl Hclock)
    as [Hscore _].
  exact Hscore.
Defined.

Lemma pool_exclusive_witness : exclusive sample_airborne.
Proof.
  destruct (pool_exclusive sample_airborne) as [Hreach Hops].
  destruct (Hops (Hreach sample_airborne_reachable)) as [Hex _].
  exact Hex.
Defined.

Lemma first_frame_spawns_witness :
  obstacles (resetGame 1000 half_draws (init None)) = [0%nat].
Proof.
  destruct (first_frame_spawns 1000 half_draws (init None)
              (reach_init None) half_draws_valid) as ((_ & _ & Hobs & _) & _).
  exact Hobs.
Defined.

(** * Further properties of the script *)

(** ** Strings written and read back *)

Lemma string_app_assoc (a b c : string) :
  ((a ++ b) ++ c)%string = (a ++ (b ++ c))%string.
Proof. induction a as [|x a IH]; simpl; [reflexivity|now rewrite IH]. Qed.

Lemma digits_of_app (fuel : nat) :
  forall (n : N) (tail : string),
    digits_of fuel n tail = (digits_of fuel n EmptyString ++ tail)%string.
Proof.
  induction fuel as [|fuel IH]; intros n tail; [reflexivity|].
  cbn [digits_of]. destruct (n <? 10)%N; [reflexivity|].
  rewrite IH. rewrite (IH _ (String _ EmptyString)).
  rewrite string_app_assoc. reflexivity.
Qed.

Lemma digits_acc_stop (s : string) (acc : option Z) :
  no_leading_digit s = true -> digits_acc s acc = acc.
Proof.
  destruct s as [|c s]; [reflexivity|]. simpl.
  destruct (digit_of c); [discriminate|reflexivity].
Qed.

Lemma parseInt_skip_ws (ws s : string) :
  all_ws ws = true -> parseInt (ws ++ s) = parseInt s.
Proof.
  intros Hws. unfold parseInt.
  assert (E : skip_ws (ws ++ s) = skip_ws s).
  { induction ws as [|c ws IH]; [reflexivity|].
    simpl in Hws. apply andb_true_iff in Hws as [Hc Hws].
    simpl. rewrite Hc. apply IH, Hws. }
  now rewrite E.
Qed.

Lemma parseInt_String_padded (z : Z) (ws junk : string) :
  all_ws ws = true -> no_leading_digit junk = true ->
  parseInt (ws ++ String_of_JSInt (Int z) ++ junk) = Int z.
Proof.
  intros Hws Hjunk.
  rewrite parseInt_skip_ws by exact Hws.
  unfold String_of_JSInt.
  set (n := Z.abs_N z). set (fuel := S (N.to_nat (N.log2 n))).
  assert (Hn : (n < 2 ^ N.of_nat fuel)%N).
  { subst fuel. rewrite Nat2N.inj_succ, N2Nat.id.
    destruct (N.eq_dec n 0%N) as [->|Hn0]; [reflexivity|].
    apply N.log2_spec. lia. }
  assert (Hf : fuel <> O) by (subst fuel; congruence).
  pose proof (digits_acc_digits_of fuel n junk Hn Hf) as Hread.
  rewrite (digits_acc_stop junk _ Hjunk) in Hread.
  rewrite digits_of_app in Hread.
  destruct (digits_of_head fuel n EmptyString Hf) as (m & rest & Hm & Hhead).
  destruct (digit_char m Hm) as (_ & Hwsc & Hminus & Hplus).
  destruct (z <? 0)%Z eqn:Hneg.
  - apply Z.ltb_lt in Hneg. unfold parseInt. cbn [String.append skip_ws].
    change (is_ws "-") with false. cbv iota.
    change (Ascii.eqb "-" "-") with true. cbv iota beta.
    rewrite Hread. f_equal. subst n. lia.
  - apply Z.ltb_ge in Hneg. unfold parseInt.
    rewrite Hhead in *. cbn [String.append skip_ws]. rewrite Hwsc, Hminus, Hplus.
    cbn [String.append] in Hread. rewrite Hread. f_equal. subst n. lia.
Qed.

(** X1.  What [gameOver] stores for a high score, [String(highScore)], is
    read back as the same integer by the expression that loads the high
    score at startup, also when the stored text has white space in front
    and text that does not start with a digit behind: [" 12 points"] loads
    as [12].  This is stated for high scores of absolute value up to
    [2^53], the integers that JavaScript prints digit by digit. *)
Theorem loadHighScore_reads_String (z : Z) (ws junk : string) :
  (Z.abs z <= 2 ^ 53)%Z ->
  all_ws ws = true -> no_leading_digit junk = true ->
  loadHighScore (Some (String_of_JSInt (Int z))) = Int z /\
  loadHighScore (Some (ws ++ String_of_JSInt (Int z) ++ junk)%string) = Int z.
Proof.
  intros _ Hws Hjunk. split; [apply loadHighScore_written|].
  rewrite loadHighScore_nonempty; [now apply parseInt_String_padded|].
  destruct ws as [|c ws]; [|discriminate]. cbn [String.append].
  pose proof (String_of_JSInt_nonempty z) as Hne.
  destruct (String_of_JSInt (Int z)); [congruence|discriminate].
Qed.

(** ** The high score in memory and in storage *)

(** X2.  Whatever the storage held at startup and whatever happened since,
    the high score in memory is what a reload would read from storage. *)
Theorem highScore_survives_reload (stored : option string) (es : list Event) :
  loadHighScore (storage (run es (init stored))) =
  highScore (run es (init stored)).
Proof.
  apply (run_hs_inv hs_synced hs_synced_same gameOver_hs_synced).
  reflexivity.
Qed.

(** X3.  Ending a run twice is the same as ending it once. *)
Theorem gameOver_idempotent (g : Game) : gameOver (gameOver g) = gameOver g.
Proof.
  unfold gameOver at 2 3.
  destruct (gt_JSInt (score g) (highScore g)) eqn:E.
  - unfold gameOver. simpl. destruct (Qltb _ _); reflexivity.
  - unfold gameOver. simpl. rewrite E. reflexivity.
Qed.

(** ** An idle game *)

Lemma run_idle_frames (es : list Event) (g : Game) :
  running g = false -> forallb is_frame es = true -> run es g = g.
Proof.
  intros Hidle. induction es as [|e es IH]; intros Hes; [reflexivity|].
  simpl in Hes. apply andb_true_iff in Hes as [He Hes].
  destruct e as [now d| |]; try discriminate.
  simpl. unfold loop. rewrite Hidle. simpl. apply IH, Hes.
Qed.

(** X4.  While the game is not running, animation frames change nothing,
    however many arrive and whatever their timestamps: only a jump input or
    a restart starts a run. *)
Theorem idle_frames_do_nothing (es : list Event) (g : Game) :
  running g = false -> forallb is_frame es = true -> run es g = g.
Proof. apply run_idle_frames. Qed.

(** ** How high and how fast the player moves *)

Lemma stepPlayer_jump_inv (dt : Q) (p : Player) :
  jump_inv p -> jump_inv (stepPlayer dt p).
Proof.
  unfold jump_inv, stepPlayer. intros [Hy He].
  destruct (Qle_bool groundY _) eqn:E; simpl.
  - unfold gravity, groundY, baseH. split; lra.
  - apply Qle_bool_gt in E. split; [lra|].
    unfold gravity, groundY, baseH in *. nra.
Qed.

Lemma handle_jump_inv (e : Event) (g : Game) :
  ground_inv (player g) -> jump_inv (player g) ->
  jump_inv (player (handle e g)).
Proof.
  assert (Hloop : forall now d g0,
             jump_inv (player g0) -> jump_inv (player (loop now d g0))).
  { intros now d g0 H0. destruct (running g0) eqn:Hr.
    - rewrite loop_player by exact Hr. apply stepPlayer_jump_inv, H0.
    - unfold loop. rewrite Hr. exact H0. }
  assert (Hreset : forall tnow d g0, jump_inv (player (resetGame tnow d g0))).
  { intros. apply Hloop. unfold jump_inv, reset_state.
    cbn [player p_y p_vy]. unfold gravity, groundY, baseH. split; lra. }
  intros Hground Hinv. destruct e as [now d|tnow d|tnow d]; simpl; auto.
  unfold doJump. destruct (running g); simpl; [|apply Hreset].
  destruct (p_onGround (player g)) eqn:Hg; [|exact Hinv].
  destruct (Hground Hg) as [Hy _]. unfold jump_inv, set_player.
  cbn [player p_y p_vy]. rewrite Hy.
  unfold gravity, groundY, baseH. split; lra.
Qed.

Lemma reachable_jump_inv (g : Game) : reachable g -> jump_inv (player g).
Proof.
  induction 1 as [stored|e g Hg IH _].
  - unfold jump_inv, init. cbn [player p_y p_vy].
    unfold gravity, groundY, baseH. split; lra.
  - apply handle_jump_inv; [apply reachable_ground_inv, Hg|exact IH].
Qed.

(** X5.  In every reachable state the player is between the ground and
    [162] px above it, and its vertical speed is at most [720] px/s in
    either direction: the physics step never adds energy, whatever the
    elapsed time. *)
Theorem jump_bounded (g : Game) :
  reachable g ->
  groundY - 162 <= p_y (player g) /\ p_y (player g) <= groundY /\
  -720 <= p_vy (player g) /\ p_vy (player g) <= 720.
Proof.
  intros Hg. destruct (reachable_jump_inv g Hg) as [Hy He].
  unfold gravity, groundY, baseH in *. repeat split; nra.
Qed.

(** X6.  A player on the ground stays there as long as only frames arrive:
    without a jump input it keeps [y = groundY], zero velocity and
    [onGround]. *)
Theorem grounded_stays_grounded (es : list Event) (g : Game) :
  reachable g -> p_onGround (player g) = true ->
  forallb is_frame es = true ->
  p_onGround (player (run es g)) = true /\
  p_y (player (run es g)) = groundY /\ p_vy (player (run es g)) = 0.
Proof.
  intros Hreach Hon Hes.
  pose proof (reachable_ground_inv g Hreach) as Hinv. clear Hreach.
  revert g Hon Hinv Hes. induction es as [|e es IH]; intros g Hon Hinv Hes.
  - simpl. destruct (Hinv Hon). auto.
  - simpl in Hes. apply andb_true_iff in Hes as [He Hes].
    destruct e as [now d| |]; try discriminate. simpl.
    assert (Hkeep : p_onGround (player (loop now d g)) = true).
    { destruct (running g) eqn:Hr.
      - rewrite loop_player by exact Hr. destruct (Hinv Hon) as [Hy Hvy].
        unfold stepPlayer. rewrite Hy, Hvy.
        destruct (Qle_bool groundY _) eqn:E; [reflexivity|].
        apply Qle_bool_gt in E. unfold gravity, groundY, baseH in E.
        exfalso. nra.
      - unfold loop. now rewrite Hr. }
    apply IH; [exact Hkeep| |exact Hes].
    apply (handle_ground_inv (Frame now d) g Hinv).
Qed.

(** ** Spawning from the pool *)

Lemma spawnObstacle_reuse (d : Draws) (g : Game) (pool' : list loc) (l : loc) :
  obstaclePool g = pool' ++ [l] ->
  spawnObstacle d g =
  set_lists (obstacles g ++ [l]) pool'
            (set_heap (<[l := fresh_obstacle d (p_h (player g))]> (heap g)) g).
Proof.
  intros Hp. apply pop_Some in Hp. unfold spawnObstacle. now rewrite Hp.
Qed.

Lemma spawnObstacle_alloc (d : Draws) (g : Game) :
  obstaclePool g = [] ->
  spawnObstacle d g =
  set_lists (obstacles g ++ [length (heap g)]) []
            (set_heap (heap g ++ [fresh_obstacle d (p_h (player g))]) g).
Proof.
  intros Hp. unfold spawnObstacle. rewrite Hp. reflexivity.
Qed.

Lemma pool_cases {A : Type} (l : list A) :
  l = [] \/ exists l' a, l = l' ++ [a].
Proof.
  induction l as [|a l _] using rev_ind; [now left|right; eauto].
Qed.

(** What a spawn does to the arrays and the heap. *)
Lemma spawnObstacle_effect (d : Draws) (g : Game) :
  pool_inv g ->
  exists b : loc,
    obstacles (spawnObstacle d g) = obstacles g ++ [b] /\
    (b ∉ obstacles g) /\
    heap (spawnObstacle d g) !! b = Some (fresh_obstacle d (p_h (player g))) /\
    (forall l, l <> b -> heap (spawnObstacle d g) !! l = heap g !! l) /\
    ((obstaclePool g = [] /\ obstaclePool (spawnObstacle d g) = [] /\
      b = length (heap g) /\
      length (heap (spawnObstacle d g)) = S (length (heap g))) \/
     (obstaclePool g = obstaclePool (spawnObstacle d g) ++ [b] /\
      length (heap (spawnObstacle d g)) = length (heap g))).
Proof.
  intros Hinv. pose proof (pool_inv_exclusive g Hinv) as (_ & _ & Hex).
  destruct Hinv as [_ Hall]. rewrite Forall_forall in Hall.
  destruct (pool_cases (obstaclePool g)) as [Hp|(pool' & b & Hp)].
  - rewrite (spawnObstacle_alloc d g Hp). simpl.
    exists (length (heap g)). split; [reflexivity|]. split; [|split; [|split]].
    + intros Hin. assert (length (heap g) < length (heap g))%nat; [|lia].
      apply Hall. elem_tac.
    + apply list_lookup_middle. reflexivity.
    + intros l Hl. destruct (decide (l < length (heap g))%nat) as [Hlt|Hge].
      * now apply lookup_app_l.
      * rewrite !(proj2 (lookup_ge_None _ _)); [reflexivity|lia|].
        rewrite length_app. simpl. lia.
    + left. rewrite length_app. simpl. repeat split; auto. lia.
  - rewrite (spawnObstacle_reuse d g pool' b Hp). simpl.
    assert (Hb : b ∈ obstaclePool g) by (rewrite Hp; elem_tac).
    exists b. split; [reflexivity|]. split; [|split; [|split]].
    + intros Hin. exact (Hex b Hin Hb).
    + apply list_lookup_insert_eq, Hall. elem_tac.
    + intros l Hl. apply list_lookup_insert_ne. congruence.
    + right. split; [exact Hp|apply length_insert].
Qed.

(** X7.  [spawnObstacle] takes the object pushed last on the pool, if any,
    and allocates one only when the pool is empty.  Either way the object
    becomes the last active obstacle with every field set anew: nothing of
    what a recycled object held survives, and no other object changes. *)
Theorem spawn_recycles (d : Draws) (g : Game) :
  pool_inv g ->
  (forall pool' l,
     obstaclePool g = pool' ++ [l] ->
     obstacles (spawnObstacle d g) = obstacles g ++ [l] /\
     obstaclePool (spawnObstacle d g) = pool' /\
     length (heap (spawnObstacle d g)) = length (heap g) /\
     heap (spawnObstacle d g) !! l =
       Some (fresh_obstacle d (p_h (player g))) /\
     forall l', l' <> l -> heap (spawnObstacle d g) !! l' = heap g !! l') /\
  (obstaclePool g = [] ->
   obstacles (spawnObstacle d g) = obstacles g ++ [length (heap g)] /\
   obstaclePool (spawnObstacle d g) = [] /\
   heap (spawnObstacle d g) =
     heap g ++ [fresh_obstacle d (p_h (player g))]).
Proof.
  intros [_ Hall]. rewrite Forall_forall in Hall. split.
  - intros pool' l Hp. rewrite (spawnObstacle_reuse d g pool' l Hp). simpl.
    split; [reflexivity|]. split; [reflexivity|].
    split; [apply length_insert|]. split.
    + apply list_lookup_insert_eq, Hall. rewrite Hp. elem_tac.
    + intros l' Hl'. apply list_lookup_insert_ne. congruence.
  - intros Hp. rewrite (spawnObstacle_alloc d g Hp). simpl. auto.
Qed.

(** ** Active and pooled obstacles *)

Lemma loop_head_effect (now : Q) (d : Draws) (g : Game) :
  pool_inv g ->
  let dt := tick_dt now g in
  let hd := loop_head now d g in
  (0 < spawnTimer g - dt /\ obstacles hd = obstacles g /\
   heap hd = heap g /\ obstaclePool hd = obstaclePool g) \/
  (spawnTimer g - dt <= 0 /\
   exists b : loc,
     obstacles hd = obstacles g ++ [b] /\ (b ∉ obstacles g) /\
     heap hd !! b = Some (fresh_obstacle d (p_h (player g))) /\
     (forall l, l <> b -> heap hd !! l = heap g !! l) /\
     ((obstaclePool g = [] /\ obstaclePool hd = [] /\
       length (heap hd) = S (length (heap g))) \/
      (obstaclePool g = obstaclePool hd ++ [b] /\
       length (heap hd) = length (heap g)))).
Proof.
  intros Hinv dt hd. subst hd. unfold loop_head. fold dt. cbn [spawnTimer].
  destruct (Qle_bool (spawnTimer g - dt) 0) eqn:Hdue.
  - right. apply Qle_bool_iff in Hdue. split; [exact Hdue|].
    match goal with
    | |- context [spawnObstacle d ?g1] =>
        destruct (spawnObstacle_effect d g1 Hinv)
          as (b & Ho & Hb & Hh & Hrest & Hpool)
    end.
    exists b. simpl in *. split; [exact Ho|]. split; [exact Hb|].
    split; [exact Hh|]. split; [exact Hrest|].
    destruct Hpool as [(Hp & Hp' & _ & Hlen)|(Hp & Hlen)]; [left|right]; auto.
  - left. apply Qle_bool_gt in Hdue. simpl. auto.
Qed.

Lemma fresh_obstacle_ok (d : Draws) :
  valid_draws d ->
  spawn_size (fresh_obstacle d 40) /\
  o_y (fresh_obstacle d 40) + o_h (fresh_obstacle d 40) == groundY + 40 /\
  o_x (fresh_obstacle d 40) = baseW + 20 /\
  o_color (fresh_obstacle d 40) = "#ef5350"%string /\
  o_passed (fresh_obstacle d 40) = false.
Proof.
  intros Hd. pose proof (spawn_size_ok d Hd) as Hsz. cbv zeta in Hsz.
  unfold fresh_obstacle. cbn [o_w o_h o_x o_y o_color o_passed].
  split; [exact Hsz|]. split; [ring|]. auto.
Qed.

(** Where an obstacle that is active after a frame comes from. *)
Lemma frame_active (now : Q) (d : Draws) (g : Game) (l : loc) (ob' : Obstacle) :
  running g = true -> pool_inv g ->
  l ∈ obstacles (loop now d g) -> heap (loop now d g) !! l = Some ob' ->
  let dt := tick_dt now g in
  let hd := loop_head now d g in
  exists ob : Obstacle,
    ob' = visit_ob dt (speed hd) (p_x (player hd)) ob /\
    off_screen ob' = false /\
    ((l ∈ obstacles g /\ heap g !! l = Some ob) \/
     ob = fresh_obstacle d (p_h (player g))).
Proof.
  intros Hrun Hinv Hl Hl' dt hd.
  destruct (frame_spec now d g Hrun Hinv) as (_ & Ho & Hh & _).
  fold dt hd in Ho, Hh.
  rewrite Ho in Hl. apply list_elem_of_In, filter_In in Hl as [Hl Hkept].
  apply list_elem_of_In in Hl.
  rewrite Hh, bool_decide_eq_true_2 in Hl' by exact Hl.
  unfold kept_at in Hkept.
  destruct (heap hd !! l) as [ob|] eqn:Hob; [|discriminate].
  simpl in Hl'. injection Hl' as <-.
  exists ob. split; [reflexivity|]. split; [now apply negb_true_iff|].
  destruct (loop_head_effect now d g Hinv)
    as [(_ & Eo & Eh & _)|(_ & b & Eo & _ & Eb & Erest & _)];
    fold hd in Eo, Eh || fold hd in Eo, Eb, Erest.
  - left. rewrite Eo in Hl. rewrite Eh in Hob. auto.
  - rewrite Eo in Hl. destruct (decide (l = b)) as [->|Hlb].
    + right. congruence.
    + left. apply elem_of_app in Hl as [Hl|Hl].
      * rewrite Erest in Hob by exact Hlb. auto.
      * apply list_elem_of_singleton in Hl. contradiction.
Qed.

Lemma visit_ob_ok (dt s px : Q) (ob : Obstacle) :
  spawn_size ob -> o_y ob + o_h ob == groundY + 40 ->
  o_color ob = "#ef5350"%string ->
  off_screen (visit_ob dt s px ob) = false ->
  obstacle_ok (visit_ob dt s px ob).
Proof.
  intros Hsz Hy Hc Hoff.
  destruct (visit_ob_box dt s px ob) as (Ex & Ew & Eh & Ey).
  unfold obstacle_ok, spawn_size. apply Qltb_ge in Hoff.
  rewrite Ew, Eh, Ey. split; [exact Hsz|]. split; [exact Hy|].
  split; [rewrite Ew in Hoff; exact Hoff|].
  unfold visit_ob. destruct (newly_passed _ _ _ _); exact Hc.
Qed.

Lemma loop_active_ok (now : Q) (d : Draws) (g : Game) :
  pool_inv g -> player_box (player g) -> valid_draws d ->
  active_ok g -> active_ok (loop now d g).
Proof.
  intros Hinv Hbox Hd Hok. destruct (running g) eqn:Hrun;
    [|unfold loop; now rewrite Hrun].
  intros l ob' Hl Hl'.
  destruct (frame_active now d g l ob' Hrun Hinv Hl Hl')
    as (ob & -> & Hoff & [[Hin Hlk]| ->]).
  - destruct (Hok l ob Hin Hlk) as (Hsz & Hy & _ & Hc).
    now apply visit_ob_ok.
  - destruct Hbox as (_ & _ & Hph). rewrite Hph in *.
    destruct (fresh_obstacle_ok d Hd) as (Hsz & Hy & _ & Hc & _).
    apply visit_ob_ok; assumption.
Qed.

Lemma reachable_active_ok (g : Game) : reachable g -> active_ok g.
Proof.
  induction 1 as [stored|e g Hg IH Hd].
  - intros l ob Hl. now apply elem_of_nil in Hl.
  - pose proof (reachable_pool_inv g Hg) as Hinv.
    pose proof (reachable_player_box g Hg) as Hbox.
    assert (Hreset : forall tnow d, valid_draws d ->
                       active_ok (resetGame tnow d g)).
    { intros tnow d Hd'. apply loop_active_ok; auto.
      - apply reset_state_pool_inv.
      - intros l ob Hl. now apply elem_of_nil in Hl. }
    destruct e as [now d|tnow d|tnow d]; simpl in *.
    + now apply loop_active_ok.
    + unfold doJump. destruct (running g); simpl; [|now apply Hreset].
      destruct (p_onGround (player g)); exact IH.
    + now apply Hreset.
Qed.

(** X8.  In every reachable state each active obstacle has a width in
    [[20, 70)] and a height in [[20, 60)], its collision box rests on the
    line [groundY + 40] like the player's, and its trailing edge has not
    yet passed [-40]: the frame that moves it further recycles it. *)
Theorem active_obstacles_well_formed (g : Game) (l : loc) (ob : Obstacle) :
  reachable g -> l ∈ obstacles g -> heap g !! l = Some ob ->
  20 <= o_w ob /\ o_w ob < 70 /\ 20 <= o_h ob /\ o_h ob < 60 /\
  o_y ob + o_h ob == groundY + p_h (player g) /\
  -40 <= o_x ob + o_w ob.
Proof.
  intros Hg Hl Hlk.
  destruct (reachable_active_ok g Hg l ob Hl Hlk) as ((?&?&?&?) & Hy & Hx & _).
  destruct (reachable_player_box g Hg) as (_ & _ & ->).
  repeat split; assumption.
Qed.

Lemma obst_body_view (dt : Q) (i : nat) (g : Game) :
  obst_body dt i g = g \/
  exists (x : loc) (ob : Obstacle),
    x ∈ obstacles g /\ heap g !! x = Some ob /\
    let ob2 := visit_ob dt (speed g) (p_x (player g)) ob in
    heap (obst_body dt i g) = <[x := ob2]> (heap g) /\
    obstaclePool (obst_body dt i g) =
      (if off_screen ob2 then obstaclePool g ++ [x] else obstaclePool g).
Proof.
  destruct (obstacles g !! i) as [x|] eqn:Hi;
    [|left; unfold obst_body; now rewrite Hi].
  destruct (heap g !! x) as [ob|] eqn:Hx;
    [|left; unfold obst_body; now rewrite Hi, Hx].
  right. exists x, ob. split; [eapply list_elem_of_lookup_2, Hi|].
  split; [exact Hx|].
  pose proof (take_drop_middle _ _ _ Hi) as Hsplit. symmetry in Hsplit.
  destruct (obst_body_step dt g (take i (obstacles g))
              (drop (S i) (obstacles g)) x ob Hsplit Hx)
    as (_ & Hh & _ & _ & Hp).
  rewrite length_take_le in Hh, Hp
    by (apply Nat.lt_le_incl; eapply lookup_lt_Some, Hi).
  auto.
Qed.

Lemma obst_body_pool_off_screen (dt : Q) (i : nat) (g : Game) :
  pool_inv g -> pool_off_screen g -> pool_off_screen (obst_body dt i g).
Proof.
  intros Hinv Hoff.
  destruct (obst_body_view dt i g) as [->|(x & ob & Hx & Hlk & Hh & Hp)];
    [exact Hoff|].
  pose proof (pool_inv_exclusive g Hinv) as (_ & _ & Hex).
  cbv zeta in Hh, Hp. intros l Hl. rewrite Hh. rewrite Hp in Hl.
  assert (Hold : l ∈ obstaclePool g ->
                 exists ob0, <[x:=visit_ob dt (speed g) (p_x (player g)) ob]>
                               (heap g) !! l = Some ob0 /\
                             off_screen ob0 = true).
  { intros Hl0. rewrite list_lookup_insert_ne; [apply Hoff, Hl0|].
    intros ->. exact (Hex l Hx Hl0). }
  destruct (off_screen (visit_ob dt (speed g) (p_x (player g)) ob)) eqn:E;
    [|auto].
  apply elem_of_app in Hl as [Hl|Hl]; [auto|].
  apply list_elem_of_singleton in Hl. subst l.
  eexists. split; [|exact E].
  apply list_lookup_insert_eq. eapply lookup_lt_Some, Hlk.
Qed.

Lemma obst_loop_pool_off_screen (dt : Q) (n : nat) (g : Game) :
  pool_inv g -> pool_off_screen g -> pool_off_screen (obst_loop dt n g).
Proof.
  revert g. induction n as [|n IH]; intros g Hinv Hoff; simpl; [exact Hoff|].
  apply IH; [apply obst_body_pool_inv, Hinv|].
  apply obst_body_pool_off_screen; assumption.
Qed.

Lemma loop_pool_off_screen (now : Q) (d : Draws) (g : Game) :
  pool_inv g -> pool_off_screen g -> pool_off_screen (loop now d g).
Proof.
  intros Hinv Hoff. destruct (running g) eqn:Hrun;
    [|unfold loop; now rewrite Hrun].
  rewrite loop_running by exact Hrun.
  apply obst_loop_pool_off_screen; [apply loop_head_pool_inv, Hinv|].
  pose proof (loop_head_pool_inv now d g Hinv) as Hinv'.
  destruct (loop_head_effect now d g Hinv)
    as [(_ & _ & Eh & Ep)|(_ & b & _ & _ & _ & Erest & Hpool)].
  - intros l Hl. rewrite Eh. rewrite Ep in Hl. apply Hoff, Hl.
  - intros l Hl. destruct Hpool as [(_ & Ep & _)|(Ep & _)].
    + rewrite Ep in Hl. now apply elem_of_nil in Hl.
    + assert (Hlb : l <> b).
      { intros ->. destruct Hinv as [Hnd _]. rewrite Ep in Hnd.
        apply NoDup_app in Hnd as (_ & _ & Hnd).
        apply NoDup_app in Hnd as (_ & Hnd & _).
        apply (Hnd b Hl). elem_tac. }
      rewrite Erest by exact Hlb. apply Hoff. rewrite Ep. elem_tac.
Qed.

(** X9.  In every reachable state the pool holds only objects whose
    trailing edge is left of [-40]: an obstacle is retired only once it is
    off-screen, and a pooled object is not touched until it is spawned
    again. *)
Theorem pool_holds_off_screen (g : Game) (l : loc) :
  reachable g -> l ∈ obstaclePool g ->
  exists ob, heap g !! l = Some ob /\ o_x ob + o_w ob < -40.
Proof.
  intros Hg Hl.
  assert (Hall : pool_off_screen g).
  { clear l Hl. induction Hg as [stored|e g Hg IH Hd].
    - intros l Hl. now apply elem_of_nil in Hl.
    - pose proof (reachable_pool_inv g Hg) as Hinv.
      assert (Hreset : forall tnow d, pool_off_screen (resetGame tnow d g)).
      { intros tnow d. apply loop_pool_off_screen.
        - apply reset_state_pool_inv.
        - intros l Hl. now apply elem_of_nil in Hl. }
      destruct e as [now d|tnow d|tnow d]; simpl.
      + now apply loop_pool_off_screen.
      + unfold doJump. destruct (running g); simpl; [|apply Hreset].
        destruct (p_onGround (player g)); exact IH.
      + apply Hreset. }
  destruct (Hall l Hl) as (ob & Hlk & Hoff).
  exists ob. split; [exact Hlk|]. now apply Qltb_lt in Hoff.
Qed.

(** ** Collisions *)

Lemma obst_body_running (dt : Q) (g : Game) (pre post : list loc) (x : loc)
    (ob : Obstacle) :
  obstacles g = pre ++ x :: post -> heap g !! x = Some ob ->
  running (obst_body dt (length pre) g) =
  running g && negb (collides_at dt g x).
Proof.
  intros Hobs Hx.
  assert (Hi : obstacles g !! length pre = Some x).
  { rewrite Hobs. apply list_lookup_middle. reflexivity. }
  rewrite (obst_body_eq dt _ g x ob Hi Hx). cbv zeta.
  unfold collides_at. rewrite Hx. cbv zeta.
  destruct (off_screen _); simpl; [now rewrite andb_true_r|].
  destruct (rectsOverlap _ _); simpl; [|now rewrite andb_true_r].
  match goal with
  | |- context [gameOver ?g1] => destruct (gameOver_fields g1) as (-> & _)
  end.
  now rewrite andb_false_r.
Qed.

Lemma obst_loop_running (dt : Q) (pre : list loc) :
  forall (post : list loc) (g : Game),
    obstacles g = pre ++ post -> NoDup pre ->
    (forall l, l ∈ pre -> is_Some (heap g !! l)) ->
    running (obst_loop dt (length pre) g) = true <->
    running g = true /\ forall l, l ∈ pre -> collides_at dt g l = false.
Proof.
  induction pre as [|x pre IH] using rev_ind; intros post g Hobs Hnd Hheap.
  - simpl. split; [|tauto]. intros Hr. split; [exact Hr|].
    intros l Hl. now apply elem_of_nil in Hl.
  - rewrite length_app, Nat.add_1_r. cbn [obst_loop].
    rewrite <- app_assoc in Hobs. simpl in Hobs.
    apply NoDup_app in Hnd as (Hnd & Hx & _).
    destruct (Hheap x) as [ob Hob]; [elem_tac|].
    destruct (obst_body_step dt g pre post x ob Hobs Hob)
      as (Henv & Hh & _ & Ho & _).
    pose proof (obst_body_running dt g pre post x ob Hobs Hob) as Hr.
    set (gb := obst_body dt (length pre) g) in *.
    pose proof Henv as (_ & _ & Hspeed & Hplayer).
    assert (Hother : forall l, l ∈ pre -> heap gb !! l = heap g !! l).
    { intros l Hl. rewrite Hh. apply list_lookup_insert_ne.
      intros ->. apply (Hx l); [exact Hl|elem_tac]. }
    assert (Hcoll : forall l, l ∈ pre -> collides_at dt gb l = collides_at dt g l).
    { intros l Hl. unfold collides_at. now rewrite Hother, Hspeed, Hplayer. }
    rewrite (IH _ gb Ho Hnd);
      [|intros l Hl; rewrite Hother by exact Hl; apply Hheap; elem_tac].
    rewrite Hr, andb_true_iff, negb_true_iff. split.
    + intros [[Hrg Hcx] Hall]. split; [exact Hrg|]. intros l Hl.
      apply elem_of_app in Hl as [Hl|Hl].
      * rewrite <- Hcoll by exact Hl. now apply Hall.
      * apply list_elem_of_singleton in Hl. now subst.
    + intros [Hrg Hall]. split; [split; [exact Hrg|apply Hall; elem_tac]|].
      intros l Hl. rewrite Hcoll by exact Hl. apply Hall. elem_tac.
Qed.

Lemma frame_running (now : Q) (d : Draws) (g : Game) :
  running g = true -> pool_inv g ->
  running (loop now d g) = true <->
  forall l, l ∈ obstacles (loop_head now d g) ->
            collides_at (tick_dt now g) (loop_head now d g) l = false.
Proof.
  intros Hrun Hinv. rewrite loop_running by exact Hrun.
  pose proof (loop_head_pool_inv now d g Hinv) as Hhd.
  destruct (loop_head_fields now d g) as (Hr & _).
  set (dt := tick_dt now g) in *. set (hd := loop_head now d g) in *.
  destruct (pool_inv_exclusive hd Hhd) as (Hnd & _).
  rewrite (obst_loop_running dt (obstacles hd) [] hd).
  - rewrite Hr, Hrun. tauto.
  - now rewrite app_nil_r.
  - exact Hnd.
  - intros l Hl. apply pool_inv_allocated; [exact Hhd|elem_tac].
Qed.

(** X10.  A frame of a running game ends the run exactly when one of the
    obstacles active in it, once moved and not recycled, overlaps the
    player; otherwise the game keeps running. *)
Theorem run_ends_on_collision (now : Q) (d : Draws) (g : Game) :
  reachable g -> running g = true ->
  running (loop now d g) = false <->
  exists l, l ∈ obstacles (loop_head now d g) /\
            collides_at (tick_dt now g) (loop_head now d g) l = true.
Proof.
  intros Hg Hrun. pose proof (reachable_pool_inv g Hg) as Hinv.
  pose proof (frame_running now d g Hrun Hinv) as Hfr.
  set (dt := tick_dt now g) in *. set (hd := loop_head now d g) in *.
  split.
  - intros Hend.
    destruct (existsb (collides_at dt hd) (obstacles hd)) eqn:Hex.
    + apply existsb_exists in Hex as (l & Hl & Hc).
      exists l. split; [now apply list_elem_of_In|exact Hc].
    + assert (Hall : running (loop now d g) = true); [|congruence].
      apply Hfr. intros l Hl. apply not_true_iff_false. intros Hc.
      assert (Hex' : existsb (collides_at dt hd) (obstacles hd) = true);
        [|congruence].
      apply existsb_exists. exists l. split; [now apply list_elem_of_In|exact Hc].
  - intros (l & Hl & Hc). apply not_true_iff_false. intros Hr.
    rewrite Hfr in Hr. rewrite (Hr l Hl) in Hc. discriminate.
Qed.

Lemma frame_no_overlap (now : Q) (d : Draws) (g : Game) (l : loc)
    (ob : Obstacle) :
  pool_inv g -> running g = true -> running (loop now d g) = true ->
  l ∈ obstacles (loop now d g) -> heap (loop now d g) !! l = Some ob ->
  rectsOverlap (player (loop now d g)) ob = false.
Proof.
  intros Hinv Hrun Hrun' Hl Hlk.
  pose proof (proj1 (frame_running now d g Hrun Hinv) Hrun') as Hfree.
  destruct (frame_spec now d g Hrun Hinv) as ((_ & _ & _ & Hp) & Ho & Hh & _).
  set (dt := tick_dt now g) in *. set (hd := loop_head now d g) in *.
  rewrite Ho, list_elem_of_In, filter_In, <- list_elem_of_In in Hl.
  destruct Hl as [Hl Hkept].
  rewrite Hh, bool_decide_eq_true_2 in Hlk by exact Hl.
  specialize (Hfree l Hl). unfold collides_at in Hfree. unfold kept_at in Hkept.
  destruct (heap hd !! l) as [ob0|]; [|discriminate].
  simpl in Hlk. injection Hlk as <-. cbv zeta in Hfree.
  rewrite Hkept in Hfree. rewrite Hp. exact Hfree.
Qed.

(** X11.  While the game is running the player overlaps no active
    obstacle: every frame either recycles an obstacle, or finds it clear of
    the player, or ends the run. *)
Theorem running_means_no_overlap (g : Game) (l : loc) (ob : Obstacle) :
  reachable g -> running g = true ->
  l ∈ obstacles g -> heap g !! l = Some ob ->
  rectsOverlap (player g) ob = false.
Proof.
  intros Hg. revert l ob.
  induction Hg as [stored|e g Hg IH Hd]; intros l ob Hrun Hl Hlk.
  - discriminate.
  - pose proof (reachable_pool_inv g Hg) as Hinv.
    assert (Hreset : forall tnow d,
               running (resetGame tnow d g) = true ->
               l ∈ obstacles (resetGame tnow d g) ->
               heap (resetGame tnow d g) !! l = Some ob ->
               rectsOverlap (player (resetGame tnow d g)) ob = false).
    { intros tnow d Hr Hl' Hlk'.
      exact (frame_no_overlap tnow d (reset_state tnow g) l ob
               (reset_state_pool_inv tnow g) eq_refl Hr Hl' Hlk'). }
    destruct e as [now d|tnow d|tnow d]; cbn [handle event_draws] in *.
    + destruct (running g) eqn:Hr.
      * exact (frame_no_overlap now d g l ob Hinv Hr Hrun Hl Hlk).
      * unfold loop in Hrun. rewrite Hr in Hrun. simpl in Hrun. congruence.
    + unfold doJump in *. destruct (running g) eqn:Hr; cbn [negb] in *;
        [|exact (Hreset tnow d Hrun Hl Hlk)].
      destruct (p_onGround (player g)); [|exact (IH l ob eq_refl Hl Hlk)].
      exact (IH l ob eq_refl Hl Hlk).
    + exact (Hreset tnow d Hrun Hl Hlk).
Qed.

Lemma elem_before_or (ls : list loc) (a b : loc) :
  a ∈ ls -> b ∈ ls -> a <> b -> before ls a b \/ before ls b a.
Proof.
  unfold before. induction ls as [|x ls IH]; intros Ha Hb Hab.
  - now apply elem_of_nil in Ha.
  - apply elem_of_cons in Ha as [->|Ha]; apply elem_of_cons in Hb as [->|Hb].
    + congruence.
    + left. apply sublist_skip. now apply singleton_sublist_l.
    + right. apply sublist_skip. now apply singleton_sublist_l.
    + destruct (IH Ha Hb Hab) as [H|H]; [left|right]; now apply sublist_cons.
Qed.

Lemma ready_one_collision (dt : Q) (hd : Game) (a b : loc) :
  ready dt hd -> a ∈ obstacles hd -> b ∈ obstacles hd ->
  collides_at dt hd a = true -> collides_at dt hd b = true -> a = b.
Proof.
  intros [_ _ Hspeed (Hpx & Hpw & _) _ Hob Hgap] Ha Hb Hca Hcb.
  assert (Hdiv : forall q : Q, q / 120 == q * (1 # 120)) by (intros; field).
  assert (Hord : forall a b, before (obstacles hd) a b ->
                   collides_at dt hd a = true -> collides_at dt hd b = true ->
                   False).
  { clear a b Ha Hb Hca Hcb. intros a b Hab Hca Hcb.
    assert (Hina : a ∈ obstacles hd).
    { eapply elem_of_sublist; [|exact Hab]. elem_tac. }
    assert (Hinb : b ∈ obstacles hd).
    { eapply elem_of_sublist; [|exact Hab]. elem_tac. }
    unfold collides_at in Hca, Hcb.
    destruct (heap hd !! a) as [oa|] eqn:Ea; [|discriminate].
    destruct (heap hd !! b) as [ob|] eqn:Eb; [|discriminate].
    cbv zeta in Hca, Hcb.
    apply andb_true_iff in Hca as [_ Hova].
    apply andb_true_iff in Hcb as [_ Hovb].
    apply rectsOverlap_iff in Hova as (Ha1 & Ha2 & _).
    apply rectsOverlap_iff in Hovb as (Hb1 & Hb2 & _).
    simpl in Ha1, Ha2, Hb1, Hb2.
    rewrite Hpx in Ha1, Ha2, Hb1, Hb2. rewrite Hpw in Ha2, Hb2.
    destruct (visit_ob_box dt (speed hd) 80 oa) as (Exa & Ewa & _).
    destruct (visit_ob_box dt (speed hd) 80 ob) as (Exb & Ewb & _).
    rewrite Exa, Ewa in Ha1. rewrite Exa in Ha2.
    rewrite Exb, Ewb in Hb1. rewrite Exb in Hb2.
    destruct (Hob a oa Hina Ea) as ((_ & Hwa & _) & _).
    destruct (Hob b ob Hinb Eb) as ((_ & Hwb & _) & _).
    pose proof (Hgap a b oa ob Hab Ea Eb) as Hg.
    unfold gap_ok, gap_min, moved in Hg. cbn [o_x set_x] in Hg.
    rewrite Hdiv in Hg. lra. }
  destruct (decide (a = b)) as [E|E]; [exact E|exfalso].
  destruct (elem_before_or (obstacles hd) a b Ha Hb E) as [H|H]; eauto.
Qed.

(** X12.  In a game whose obstacles are [spaced], as they are whenever the
    clock has not run backwards ([clocked_spaced]), at most one obstacle
    collides with the player in a frame: the obstacles are too far apart
    for two of them to reach the player together. *)
Theorem one_collision_per_frame (now : Q) (d : Draws) (g : Game) (a b : loc) :
  spaced g -> valid_draws d -> lastTime g <= now ->
  a ∈ obstacles (loop_head now d g) -> b ∈ obstacles (loop_head now d g) ->
  collides_at (tick_dt now g) (loop_head now d g) a = true ->
  collides_at (tick_dt now g) (loop_head now d g) b = true ->
  a = b.
Proof.
  intros Hg Hd Hclock. apply ready_one_collision.
  apply spaced_ready; [exact Hg|exact Hd|exact Hclock].
Qed.

(** ** Score and speed in step *)


Lemma inject_nat_le (n m : nat) :
  (n <= m)%nat -> inject_Z (Z.of_nat n) <= inject_Z (Z.of_nat m).
Proof. intros H. rewrite <- Zle_Qle. lia. Qed.

Lemma loop_in_step (now : Q) (d : Draws) (g : Game) :
  pool_inv g -> in_step g -> in_step (loop now d g).
Proof.
  intros Hinv [n Hn]. destruct (running g) eqn:Hrun;
    [|unfold loop; rewrite Hrun; exists n; exact Hn].
  destruct (frame_spec now d g Hrun Hinv) as ((_ & _ & Hsp & _) & _ & _ & Hsc).
  destruct (loop_head_fields now d g) as (_ & _ & _ & Hs & _).
  cbv zeta in *. exists (n + length (awards now d g))%nat.
  rewrite Hsc, Hsp, Hs, Hn, Nat2Z.inj_add, inject_Z_plus. ring.
Qed.

Lemma reachable_in_step (g : Game) : reachable g -> in_step g.
Proof.
  induction 1 as [stored|e g Hg IH _].
  - exists O. simpl. ring.
  - pose proof (reachable_pool_inv g Hg) as Hinv.
    assert (Hreset : forall tnow d, in_step (resetGame tnow d g)).
    { intros tnow d. apply loop_in_step; [apply reset_state_pool_inv|].
      exists O. simpl. ring. }
    destruct e as [now d|tnow d|tnow d]; cbn [handle].
    + now apply loop_in_step.
    + unfold doJump. destruct (running g); cbn [negb]; [|apply Hreset].
      destruct (p_onGround (player g)); exact IH.
    + apply Hreset.
Qed.

Lemma loop_score_le (now : Q) (d : Draws) (g : Game) :
  lastTime g <= now -> score g <= score (loop now d g).
Proof.
  intros Hclock. destruct (running g) eqn:Hrun;
    [|unfold loop; rewrite Hrun; cbn [negb]; lra].
  rewrite loop_running by exact Hrun.
  pose proof (tick_dt_nonneg now g Hclock) as Hdt.
  pose proof (obst_loop_score (tick_dt now g)
                (length (obstacles (loop_head now d g))) (loop_head now d g))
    as Hs.
  destruct (loop_head_fields now d g) as (_ & _ & Hsc & _).
  rewrite Hsc in Hs. lra.
Qed.

Lemma clocked_score_nonneg (g : Game) : clocked g -> 0 <= score g.
Proof.
  induction 1 as [stored|e g Hg IH Hd Hclock]; [simpl; lra|].
  assert (Hreset : forall tnow d, 0 <= score (resetGame tnow d g)).
  { intros tnow d. unfold resetGame.
    eapply Qle_trans; [|apply loop_score_le]; simpl; lra. }
  destruct e as [now d|tnow d|tnow d]; cbn [handle on_time] in *.
  - eapply Qle_trans; [exact IH|apply loop_score_le, Hclock].
  - unfold doJump. destruct (running g); cbn [negb]; [|apply Hreset].
    destruct (p_onGround (player g)); exact IH.
  - apply Hreset.
Qed.

(** X14.  With a clock that does not run backwards the score is never
    negative and the speed never below its starting value [240]: every
    frame adds a non-negative amount to each. *)
Theorem score_nonnegative (g : Game) :
  clocked g -> 0 <= score g /\ 240 <= speed g.
Proof.
  intros Hg. split; [apply clocked_score_nonneg, Hg|].
  apply (sp_speed g (clocked_spaced g Hg)).
Qed.

(** ** How far apart and how many the obstacles are *)

Lemma spaced_apart (g : Game) (a b : loc) (oa ob : Obstacle) :
  spaced g -> active_ok g -> before (obstacles g) a b ->
  heap g !! a = Some oa -> heap g !! b = Some ob ->
  o_x oa + 111 <= o_x ob.
Proof.
  intros Hsp Hok Hab Ha Hb.
  assert (Hinb : b ∈ obstacles g).
  { eapply elem_of_sublist; [|exact Hab]. elem_tac. }
  destruct (Hok b ob Hinb Hb) as ((_ & Hw & _) & _ & Hx & _).
  pose proof (sp_gap g Hsp a b oa ob Hab Ha Hb) as Hg.
  pose proof (sp_speed g Hsp) as Hs.
  unfold gap_ok, gap_min in Hg.
  assert (E : o_x ob / 120 == o_x ob * (1 # 120)) by field.
  rewrite E in Hg. lra.
Qed.

(** X15.  With a clock that does not run backwards, two active obstacles
    are at least [111] px apart, the one spawned first to the left, so the
    space between them is wider than the player; and both are between
    [x = -110] and the spawn point [x = 820]. *)
Theorem obstacles_keep_distance (g : Game) (a b : loc) (oa ob : Obstacle) :
  clocked g -> before (obstacles g) a b ->
  heap g !! a = Some oa -> heap g !! b = Some ob ->
  o_x oa + 111 <= o_x ob /\
  o_x oa + o_w oa + p_w (player g) < o_x ob /\
  -110 < o_x oa /\ o_x ob <= baseW + 20.
Proof.
  intros Hg Hab Ha Hb.
  pose proof (clocked_reachable g Hg) as Hr.
  pose proof (clocked_spaced g Hg) as Hsp.
  pose proof (spaced_apart g a b oa ob Hsp
                (reachable_active_ok g Hr) Hab Ha Hb) as Hgap.
  assert (Hina : a ∈ obstacles g).
  { eapply elem_of_sublist; [|exact Hab]. elem_tac. }
  assert (Hinb : b ∈ obstacles g).
  { eapply elem_of_sublist; [|exact Hab]. elem_tac. }
  destruct (reachable_active_ok g Hr a oa Hina Ha)
    as ((_ & Hw & _) & _ & Hlow & _).
  destruct (sp_ob g Hsp b ob Hinb Hb) as (_ & Hhi & _).
  destruct (reachable_player_box g Hr) as (_ & Hpw & _).
  rewrite Hpw. repeat split; lra.
Qed.

Lemma chain_bound (g : Game) (hi : Q) :
  forall (rest : list loc) (a : loc) (oa : Obstacle),
    (forall l, l ∈ a :: rest ->
               exists ob, heap g !! l = Some ob /\ o_x ob <= hi) ->
    (forall x y ox oy, before (a :: rest) x y ->
                       heap g !! x = Some ox -> heap g !! y = Some oy ->
                       o_x ox + 111 <= o_x oy) ->
    heap g !! a = Some oa ->
    o_x oa + 111 * inject_Z (Z.of_nat (length rest)) <= hi.
Proof.
  induction rest as [|b rest IH]; intros a oa Hall Hgap Ha.
  - destruct (Hall a) as (ob & Hb & Hx); [elem_tac|].
    rewrite Ha in Hb. injection Hb as <-. cbn [length].
    change (inject_Z (Z.of_nat 0)) with 0. lra.
  - destruct (Hall b) as (ob & Hb & _); [elem_tac|].
    assert (Hab : o_x oa + 111 <= o_x ob).
    { apply (Hgap a b oa ob); [|exact Ha|exact Hb].
      unfold before. apply sublist_skip, sublist_skip, sublist_nil_l. }
    assert (Hrest : o_x ob + 111 * inject_Z (Z.of_nat (length rest)) <= hi).
    { apply (IH b ob); [| |exact Hb].
      - intros l Hl. apply Hall, elem_of_cons. right. exact Hl.
      - intros x y ox oy Hxy. apply Hgap. now apply sublist_cons. }
    cbn [length]. rewrite Nat2Z.inj_succ, <- Z.add_1_r, inject_Z_plus.
    change (inject_Z 1) with 1. lra.
Qed.

Lemma active_count (g : Game) (hi : Q) (n : nat) :
  active_ok g ->
  (forall l, l ∈ obstacles g -> is_Some (heap g !! l)) ->
  (forall l ob, l ∈ obstacles g -> heap g !! l = Some ob -> o_x ob <= hi) ->
  (forall x y ox oy, before (obstacles g) x y ->
                     heap g !! x = Some ox -> heap g !! y = Some oy ->
                     o_x ox + 111 <= o_x oy) ->
  hi + 110 <= 111 * inject_Z (Z.of_nat n) ->
  (length (obstacles g) <= n)%nat.
Proof.
  intros Hok Halloc Hhi Hgap Hn.
  destruct (obstacles g) as [|a rest] eqn:E; [simpl; lia|].
  destruct (Halloc a) as [oa Ha]; [elem_tac|].
  pose proof (chain_bound g hi rest a oa) as Hch.
  destruct (Hok a oa) as ((_ & Hw & _) & _ & Hx & _);
    [rewrite E; elem_tac|exact Ha|].
  assert (Hlen : o_x oa + 111 * inject_Z (Z.of_nat (length rest)) <= hi).
  { apply Hch; [|exact Hgap|exact Ha].
    intros l Hl. destruct (Halloc l Hl) as [ob Hb].
    exists ob. split; [exact Hb|]. now apply (Hhi l). }
  cbn [length]. destruct (le_lt_dec n (length rest)) as [Hbig|]; [|lia].
  apply inject_nat_le in Hbig. lra.
Qed.

Lemma obst_body_total (dt : Q) (i : nat) (g : Game) :
  (length (obstacles (obst_body dt i g)) +
   length (obstaclePool (obst_body dt i g)) =
   length (obstacles g) + length (obstaclePool g))%nat.
Proof.
  destruct (obstacles g !! i) as [x|] eqn:Hi;
    [|unfold obst_body; now rewrite Hi].
  destruct (heap g !! x) as [ob|] eqn:Hx;
    [|unfold obst_body; now rewrite Hi, Hx].
  pose proof (take_drop_middle _ _ _ Hi) as Hsplit. symmetry in Hsplit.
  destruct (obst_body_step dt g (take i (obstacles g))
              (drop (S i) (obstacles g)) x ob Hsplit Hx)
    as (_ & _ & _ & Ho & Hp).
  rewrite length_take_le in Ho, Hp
    by (apply Nat.lt_le_incl; eapply lookup_lt_Some, Hi).
  set (pre := take i (obstacles g)) in *.
  set (post := drop (S i) (obstacles g)) in *. clearbody pre post.
  rewrite Ho, Hp, Hsplit.
  destruct (off_screen _); rewrite !length_app; simpl; lia.
Qed.

Lemma obst_loop_total (dt : Q) (n : nat) (g : Game) :
  (length (obstacles (obst_loop dt n g)) +
   length (obstaclePool (obst_loop dt n g)) =
   length (obstacles g) + length (obstaclePool g))%nat.
Proof.
  revert g. induction n as [|n IH]; intros g; simpl; [reflexivity|].
  rewrite IH. apply obst_body_total.
Qed.

Lemma loop_total (now : Q) (d : Draws) (g : Game) :
  spaced g -> active_ok g ->
  (length (obstacles g) + length (obstaclePool g) <= 9)%nat ->
  (length (obstacles (loop now d g)) +
   length (obstaclePool (loop now d g)) <= 9)%nat.
Proof.
  intros Hsp Hok Hle. destruct (running g) eqn:Hrun;
    [|unfold loop; now rewrite Hrun].
  rewrite loop_running by exact Hrun. rewrite obst_loop_total.
  pose proof (sp_pool g Hsp) as Hinv.
  pose proof (tick_dt_le_max now g) as Hdt.
  destruct (loop_head_effect now d g Hinv)
    as [(_ & -> & _ & ->)|(Hdue & b & -> & _ & _ & _ & Hpool)]; [exact Hle|].
  rewrite length_app. cbn [length].
  destruct Hpool as [(Hp & -> & _)|(Hp & _)].
  - assert (Hact : (length (obstacles g) <= 8)%nat); [|cbn [length]; lia].
    apply (active_count g 709).
    + exact Hok.
    + intros l Hl. apply pool_inv_allocated; [exact Hinv|elem_tac].
    + intros l ob Hl Hlk.
      destruct (sp_ob g Hsp l ob Hl Hlk) as (_ & _ & _ & Hlead).
      pose proof (sp_speed g Hsp) as Hs.
      unfold lead_ok, lead_min, baseW in Hlead.
      set (dt := tick_dt now g) in *. clearbody dt. nra.
    + intros x y ox oy. now apply spaced_apart.
    + change (inject_Z (Z.of_nat 8)) with 8. lra.
  - rewrite Hp, length_app in Hle. cbn [length] in Hle. lia.
Qed.

(** X16.  With a clock that does not run backwards the game never holds
    more than nine obstacle objects, active and pooled together: at most
    eight are on the way when the next one is due, and a new object is
    allocated only when the pool is empty. *)
Theorem at_most_nine_objects (g : Game) :
  clocked g ->
  (length (obstacles g) + length (obstaclePool g) <= 9)%nat.
Proof.
  induction 1 as [stored|e g Hg IH Hd Hclock]; [simpl; lia|].
  pose proof (clocked_spaced g Hg) as Hsp.
  pose proof (reachable_active_ok g (clocked_reachable g Hg)) as Hok.
  assert (Hreset : forall tnow d,
             (length (obstacles (resetGame tnow d g)) +
              length (obstaclePool (resetGame tnow d g)) <= 9)%nat).
  { intros tnow d. apply loop_total.
    - apply reset_state_spaced, Hsp.
    - intros l ob Hl. now apply elem_of_nil in Hl.
    - simpl. lia. }
  destruct e as [now d|tnow d|tnow d]; cbn [handle].
  - now apply loop_total.
  - unfold doJump. destruct (running g); cbn [negb]; [|apply Hreset].
    destruct (p_onGround (player g)); exact IH.
  - apply Hreset.
Qed.

(** ** Restarting *)

(** X17.  [resetGame], from any reachable state, idle or in mid-run, leaves
    a running game with score [0], speed [240], the clock at [tnow] and the
    player at rest on the ground; the high score, in memory and in storage,
    is untouched: a run abandoned by a restart is not recorded, whatever
    its score. *)
Theorem restart_resets_run (tnow : Q) (d : Draws) (g : Game) :
  reachable g -> valid_draws d ->
  let g' := resetGame tnow d g in
  score g' == 0 /\ speed g' == 240 /\ lastTime g' = tnow /\
  p_y (player g') = groundY /\ p_vy (player g') = 0 /\
  p_onGround (player g') = true /\
  highScore g' = highScore g /\ storage g' = storage g.
Proof.
  intros Hreach Hd.
  destruct (reachable_player_box g Hreach) as (Hx & Hw & Hh).
  pose proof (spawn_size_ok d Hd) as Hsz. simpl in Hsz.
  unfold resetGame, reset_state.
  match goal with |- context [loop tnow d ?x] => set (g0 := x) end.
  assert (Hdt : tick_dt tnow g0 == 0) by (apply tick_dt_same; reflexivity).
  rewrite loop_running by reflexivity.
  set (dt := tick_dt tnow g0) in *.
  assert (Hdue : Qle_bool (0 - dt) 0 = true).
  { apply Qle_bool_iff. lra. }
  unfold loop_head. fold dt. cbn [spawnTimer speed g0]. rewrite Hdue.
  unfold spawnObstacle. cbn [obstaclePool g0 pop last].
  cbn [set_player set_spawnTimer set_lists set_heap obstacles length app
       running lastTime spawnTimer score speed player heap obstaclePool
       highScore storage g0 obst_loop].
  erewrite obst_body_eq; [|reflexivity|apply list_lookup_middle; reflexivity].
  cbn [set_player set_spawnTimer set_lists set_heap obstacles length app
       running lastTime spawnTimer score speed player heap obstaclePool
       highScore storage g0 obst_loop p_x p_h].
  match goal with |- context [stepPlayer dt ?p] => set (p1 := stepPlayer dt p) end.
  match goal with |- context [visit_ob _ _ _ ?o] => set (ob := o) end.
  assert (Hp1 : p_x p1 = 80 /\ p_w p1 = 40 /\
                p_y p1 = groundY /\ p_vy p1 = 0 /\ p_onGround p1 = true).
  { subst p1. unfold stepPlayer. cbn [p_vy p_y].
    destruct (Qle_bool groundY _) eqn:E; cbn; [auto|].
    apply Qle_bool_gt in E. rewrite Hdt in E. lra. }
  destruct Hp1 as (Hp1x & Hp1w & Hp1y & Hp1v & Hp1g).
  assert (Hnew : newly_passed dt (240 + dt * 2) (p_x p1) ob = false).
  { unfold newly_passed. apply andb_false_intro2, Qltb_ge. simpl.
    rewrite Hp1x, Hdt. unfold baseW. lra. }
  unfold visit_ob. rewrite Hnew.
  assert (Hoff : off_screen (moved dt (240 + dt * 2) ob) = false).
  { apply Qltb_ge. simpl. rewrite Hdt. unfold baseW. lra. }
  assert (Hov : rectsOverlap p1 (moved dt (240 + dt * 2) ob) = false).
  { apply not_true_iff_false. rewrite rectsOverlap_iff. simpl.
    rewrite Hp1x, Hp1w, Hdt. unfold baseW. intros (_ & ? & _). lra. }
  rewrite Hoff, Hov.
  cbn [set_score set_heap set_player set_spawnTimer set_lists
       score speed lastTime player highScore storage].
  split; [rewrite Hdt; lra|]. split; [rewrite Hdt; lra|].
  repeat split; assumption.
Qed.

(** ** The size of the canvas *)

Lemma Math_round_bounds (x : Q) :
  inject_Z (Math_round x) - (1 # 2) <= x /\
  x < inject_Z (Math_round x) + (1 # 2).
Proof.
  unfold Math_round.
  pose proof (Qfloor_le (x + (1 # 2))) as Hlo.
  pose proof (Qlt_floor (x + (1 # 2))) as Hhi.
  rewrite inject_Z_plus in Hhi. change (inject_Z 1) with 1 in Hhi.
  split; lra.
Qed.

Lemma Math_round_Z (x : Q) (m : Z) : x == inject_Z m -> Math_round x = m.
Proof.
  intros E. destruct (Math_round_bounds x) as [Hlo Hhi].
  assert (H1 : inject_Z (Math_round x) < inject_Z (m + 1)).
  { rewrite inject_Z_plus. change (inject_Z 1) with 1. lra. }
  assert (H2 : inject_Z m < inject_Z (Math_round x + 1)).
  { rewrite inject_Z_plus. change (inject_Z 1) with 1. lra. }
  rewrite <- Zlt_Qlt in H1, H2. lia.
Qed.

(** X18.  [resizeCanvas] gives the canvas a CSS size in the proportion
    [2 : 1] that is at most [800 x 400] and leaves [40] px of the window's
    width and [120] px of its height free, and the largest such: one of the
    three limits is met.  The size is negative when the window is smaller
    than these margins, and only then. *)
Theorem canvas_css_size (devicePixelRatio innerWidth innerHeight : Q) :
  let c := resizeCanvas devicePixelRatio innerWidth innerHeight in
  style_width c == 2 * style_height c /\
  style_width c <= 800 /\
  style_width c <= innerWidth - 40 /\
  style_height c <= innerHeight - 120 /\
  (style_width c == 800 \/ style_width c == innerWidth - 40 \/
   style_height c == innerHeight - 120) /\
  (0 <= style_width c <-> 40 <= innerWidth /\ 120 <= innerHeight).
Proof.
  unfold resizeCanvas, baseW, baseH. cbn [style_width style_height].
  set (maxW := Qmin (innerWidth - 40) 800).
  set (maxH := Qmin (innerHeight - 120) 400).
  assert (Ea : maxW / 800 == maxW * (1 # 800)) by field.
  assert (Eb : maxH / 400 == maxH * (1 # 400)) by field.
  set (a := maxW / 800) in *. set (b := maxH / 400) in *.
  destruct (Q.min_spec (innerWidth - 40) 800) as [[HW1 HW2]|[HW1 HW2]];
    fold maxW in HW2;
  destruct (Q.min_spec (innerHeight - 120) 400) as [[HH1 HH2]|[HH1 HH2]];
    fold maxH in HH2;
  destruct (Q.min_spec a b) as [[Hab1 Hab2]|[Hab1 Hab2]];
  destruct (Q.min_spec (Qmin a b) 1) as [[Hs1 Hs2]|[Hs1 Hs2]];
  clearbody a b maxW maxH;
  (split; [lra|]); (split; [lra|]); (split; [lra|]); (split; [lra|]);
  (split; [|split; [intros ?; split; lra|intros [? ?]; lra]]);
  first [left; lra | right; left; lra | right; right; lra].
Qed.

(** X19.  The backing store of the canvas is [800 x 400] scaled by the
    pixel ratio, each side rounded to the nearest integer, so that its
    width is twice its height to within one pixel; the scale given to
    [setTransform] is never zero. *)
Theorem canvas_backing_store (devicePixelRatio innerWidth innerHeight : Q) :
  let c := resizeCanvas devicePixelRatio innerWidth innerHeight in
  ~ c_transform c == 0 /\
  (inject_Z (c_width c) - (1 # 2) <= 800 * c_transform c /\
   800 * c_transform c < inject_Z (c_width c) + (1 # 2)) /\
  (inject_Z (c_height c) - (1 # 2) <= 400 * c_transform c /\
   400 * c_transform c < inject_Z (c_height c) + (1 # 2)) /\
  (-1 <= c_width c - 2 * c_height c <= 1)%Z.
Proof.
  unfold resizeCanvas, baseW, baseH.
  cbn [c_transform c_width c_height].
  set (r := if Qeq_bool devicePixelRatio 0 then 1 else devicePixelRatio).
  assert (Hr : ~ r == 0).
  { subst r. destruct (Qeq_bool devicePixelRatio 0) eqn:E.
    - intros H. lra.
    - now apply Qeq_bool_neq. }
  clearbody r.
  pose proof (Math_round_bounds (800 * r)) as HW.
  pose proof (Math_round_bounds (400 * r)) as HH.
  split; [exact Hr|]. split; [exact HW|]. split; [exact HH|].
  set (W := Math_round (800 * r)) in *. set (H := Math_round (400 * r)) in *.
  clearbody W H. destruct HW as [HW1 HW2]. destruct HH as [HH1 HH2].
  assert (H1 : inject_Z W < inject_Z (2 * H + 2)).
  { rewrite inject_Z_plus, inject_Z_mult.
    change (inject_Z 2) with 2. lra. }
  assert (H2 : inject_Z (2 * H - 2) < inject_Z W).
  { unfold Z.sub. rewrite inject_Z_plus, inject_Z_mult.
    change (inject_Z 2) with 2. change (inject_Z (- (2))) with (-2). lra. }
  rewrite <- Zlt_Qlt in H1, H2. lia.
Qed.

(** X20.  For a whole pixel ratio [n] the backing store is exactly
    [800 n x 400 n] and the scale is [n]; a ratio of [0] counts as [1]. *)
Theorem canvas_integer_ratio (n : Z) (innerWidth innerHeight : Q) :
  let c := resizeCanvas (inject_Z n) innerWidth innerHeight in
  let k := if (n =? 0)%Z then 1%Z else n in
  c_width c = (800 * k)%Z /\ c_height c = (400 * k)%Z /\
  c_transform c = inject_Z k.
Proof.
  unfold resizeCanvas, baseW, baseH. cbn [c_transform c_width c_height].
  assert (E : Qeq_bool (inject_Z n) 0 = (n =? 0)%Z).
  { destruct (Z.eqb_spec n 0) as [->|Hn]; [reflexivity|].
    destruct (Qeq_bool (inject_Z n) 0) eqn:E; [|reflexivity].
    apply Qeq_bool_eq in E. unfold Qeq in E. simpl in E. lia. }
  rewrite E. cbv zeta.
  destruct (n =? 0)%Z.
  - repeat split.
  - split; [|split; [|reflexivity]];
      apply Math_round_Z; rewrite inject_Z_mult; reflexivity.
Qed.

(** ** What is tested and what is drawn *)

(** X21.  In a reachable state the player overlaps an active obstacle
    exactly when the obstacle is across the player's column, between
    [x = 80] and [x = 120], and the player is less than the obstacle's
    height above the ground: jumping to the obstacle's height clears it. *)
Theorem collision_clearance (g : Game) (l : loc) (ob : Obstacle) :
  reachable g -> l ∈ obstacles g -> heap g !! l = Some ob ->
  rectsOverlap (player g) ob = true <->
  (o_x ob < 120 /\ 80 < o_x ob + o_w ob) /\
  groundY - p_y (player g) < o_h ob.
Proof.
  intros Hg Hl Hlk.
  destruct (reachable_player_box g Hg) as (Hpx & Hpw & Hph).
  destruct (reachable_jump_inv g Hg) as [Hy _].
  destruct (reachable_active_ok g Hg l ob Hl Hlk) as ((_ & _ & Hh & _) & Hoy & _).
  rewrite rectsOverlap_iff. cbn [rx ry rw rh Player_Rect Obstacle_Rect].
  rewrite Hpx, Hpw, Hph. unfold groundY, baseH in *. split.
  - intros (? & ? & ? & ?). repeat split; lra.
  - intros ((? & ?) & ?). repeat split; lra.
Qed.

Lemma rects_player (g : Game) :
  drawn_player (player g) ∈ rects (ops (render g)).
Proof.
  apply list_elem_of_In. unfold render, rects. cbn [ops flat_map app].
  right. right. left. reflexivity.
Qed.

Lemma rects_obstacle (g : Game) (l : loc) (ob : Obstacle) :
  l ∈ obstacles g -> heap g !! l = Some ob ->
  drawn_obstacle ob ∈ rects (ops (render g)).
Proof.
  intros Hl Hlk. apply list_elem_of_In. unfold render, rects. cbn [ops].
  rewrite !flat_map_app, !in_app_iff. right. left.
  apply in_flat_map.
  exists (fillRect (o_x ob) (o_y ob - o_h ob) (o_w ob) (o_h ob)).
  split; [|left; reflexivity].
  unfold draw_obstacles. apply in_flat_map. exists l.
  split; [now apply list_elem_of_In|]. rewrite Hlk. right. left. reflexivity.
Qed.

(** X22.  [render] fills the player's rectangle and one rectangle for each
    active obstacle, each drawn above the point [(x, y)] that the collision
    test takes as its top left corner.  The two rectangles drawn overlap
    exactly when the obstacle is across the player's column and the player
    is less than [2 h - 40] above the ground, for an obstacle of height
    [h]; the collision test has [h] there, so picture and test agree for
    obstacles of height [40] only. *)
Theorem picture_vs_collision (g : Game) (l : loc) (ob : Obstacle) :
  reachable g -> l ∈ obstacles g -> heap g !! l = Some ob ->
  drawn_player (player g) ∈ rects (ops (render g)) /\
  drawn_obstacle ob ∈ rects (ops (render g)) /\
  (rectsOverlap (drawn_player (player g)) (drawn_obstacle ob) = true <->
   (o_x ob < 120 /\ 80 < o_x ob + o_w ob) /\
   groundY - p_y (player g) < 2 * o_h ob - 40).
Proof.
  intros Hg Hl Hlk. split; [apply rects_player|].
  split; [now apply (rects_obstacle g l)|].
  destruct (reachable_player_box g Hg) as (Hpx & Hpw & Hph).
  destruct (reachable_jump_inv g Hg) as [Hy _].
  destruct (reachable_active_ok g Hg l ob Hl Hlk) as ((_ & _ & _ & Hh) & Hoy & _).
  rewrite rectsOverlap_iff. unfold drawn_player, drawn_obstacle.
  cbn [rx ry rw rh Box_Rect]. rewrite Hpx, Hpw, Hph.
  unfold groundY, baseH in *. split.
  - intros (? & ? & ? & ?). repeat split; lra.
  - intros ((? & ?) & ?). repeat split; lra.
Qed.

(** X23.  In a reachable state the player is drawn inside the canvas, on
    or above the line [y = groundY]; an active obstacle is drawn between
    [y = 260] and [y = 360], its lower edge at least [20] px above the
    ground rectangle, which starts at [groundY + 40]. *)
Theorem drawn_inside_canvas (g : Game) (l : loc) (ob : Obstacle) :
  reachable g -> l ∈ obstacles g -> heap g !! l = Some ob ->
  let P := drawn_player (player g) in
  let O := drawn_obstacle ob in
  (0 <= rx P /\ rx P + rw P <= baseW /\ 0 <= ry P /\ ry P + rh P <= groundY) /\
  (260 < ry O /\ ry O + rh O + 20 <= groundY + p_h (player g)).
Proof.
  intros Hg Hl Hlk.
  destruct (reachable_player_box g Hg) as (Hpx & Hpw & Hph).
  destruct (reachable_jump_inv g Hg) as [Hy He].
  destruct (reachable_active_ok g Hg l ob Hl Hlk)
    as ((_ & _ & Hh1 & Hh2) & Hoy & _).
  unfold drawn_player, drawn_obstacle. cbn [rx ry rw rh Box_Rect].
  rewrite Hpx, Hpw, Hph. unfold gravity, groundY, baseW, baseH in *.
  repeat split; try lra. nra.
Qed.

(** ** Frames after a stall *)

Lemma obst_body_lastTime (t dt : Q) (i : nat) (g : Game) :
  obst_body dt i (with_lastTime t g) = with_lastTime t (obst_body dt i g).
Proof.
  destruct g as [r lt st sc sp p hp obs pool hs sto].
  unfold obst_body, with_lastTime.
  cbn [running lastTime spawnTimer score speed player heap obstacles
       obstaclePool highScore storage].
  destruct (obs !! i) as [l|]; [|reflexivity].
  destruct (hp !! l) as [ob|]; [|reflexivity].
  cbv zeta.
  cbn [set_score set_heap set_lists running lastTime spawnTimer score speed
       player heap obstacles obstaclePool highScore storage].
  destruct (Qltb _ (-40)); [reflexivity|].
  destruct (rectsOverlap _ _); [|reflexivity].
  unfold gameOver.
  cbn [running lastTime spawnTimer score speed player heap obstacles
       obstaclePool highScore storage].
  destruct (gt_JSInt _ _); reflexivity.
Qed.

Lemma obst_loop_lastTime (t dt : Q) (n : nat) (g : Game) :
  obst_loop dt n (with_lastTime t g) = with_lastTime t (obst_loop dt n g).
Proof.
  revert g. induction n as [|n IH]; intros g; simpl; [reflexivity|].
  now rewrite obst_body_lastTime, IH.
Qed.


Lemma tick_dt_stall (now : Q) (g : Game) :
  lastTime g + 33 < now -> tick_dt now g = 0.033.
Proof.
  intros H. unfold tick_dt, Qmin, GenericMinMax.gmin.
  assert (H' : 0.033 < (now - lastTime g) / 1000).
  { apply Qlt_shift_div_l; lra. }
  apply Qgt_alt in H'. now rewrite H'.
Qed.

Lemma loop_head_stall (now1 now2 : Q) (d : Draws) (g : Game) :
  lastTime g + 33 < now1 -> lastTime g + 33 < now2 ->
  loop_head now1 d g = with_lastTime now1 (loop_head now2 d g).
Proof.
  intros H1 H2. unfold loop_head.
  rewrite (tick_dt_stall now1 g H1), (tick_dt_stall now2 g H2).
  cbv zeta. cbn [spawnTimer].
  destruct (Qle_bool (spawnTimer g - 0.033) 0); [|reflexivity].
  unfold spawnObstacle. cbn [obstaclePool].
  destruct (pop (obstaclePool g)) as [[l pool']|]; reflexivity.
Qed.

(** X24.  A frame of a running game that comes more than [33] ms after the
    previous one advances the game by exactly [33] ms, however long the
    stall was: two such frames differ in the time they record and in
    nothing else. *)
Theorem stall_is_one_step (now1 now2 : Q) (d : Draws) (g : Game) :
  running g = true ->
  lastTime g + 33 < now1 -> lastTime g + 33 < now2 ->
  loop now1 d g = with_lastTime now1 (loop now2 d g).
Proof.
  intros Hrun H1 H2. rewrite !loop_running by exact Hrun.
  rewrite (tick_dt_stall now1 g H1), (tick_dt_stall now2 g H2).
  rewrite (loop_head_stall now1 now2 d g H1 H2).
  change (obstacles (with_lastTime now1 (loop_head now2 d g)))
    with (obstacles (loop_head now2 d g)).
  apply obst_loop_lastTime.
Qed.

(** ** The end of a run on the screen *)

Lemma loop_travelled (now : Q) (d : Draws) (g : Game) :
  pool_inv g -> 240 <= speed g -> lastTime g <= now ->
  travelled g -> travelled (loop now d g).
Proof.
  intros Hinv Hs Hclock Htr. destruct (running g) eqn:Hrun;
    [|unfold loop; now rewrite Hrun].
  intros l ob' Hl Hlk.
  destruct (frame_active now d g l ob' Hrun Hinv Hl Hlk)
    as (ob & -> & _ & Hfrom).
  destruct (frame_spec now d g Hrun Hinv) as ((_ & _ & -> & _) & _).
  destruct (loop_head_fields now d g) as (_ & _ & _ & -> & _).
  pose proof (tick_dt_nonneg now g Hclock) as Hdt.
  set (dt := tick_dt now g) in *. clearbody dt.
  destruct (visit_ob_box dt (speed g + dt * 2)
              (p_x (player (loop_head now d g))) ob) as (-> & _).
  assert (Hsd : 0 <= speed g * dt) by nra.
  assert (Hx : 2 * (baseW + 20 - o_x ob) <= speed g * speed g - 240 * 240).
  { destruct Hfrom as [[Hin Hold]| ->]; [exact (Htr l ob Hin Hold)|].
    cbn [fresh_obstacle o_x]. nra. }
  nra.
Qed.

Lemma clocked_travelled (g : Game) : clocked g -> travelled g.
Proof.
  induction 1 as [stored|e g Hg IH Hd Hclock].
  - intros l ob Hl. now apply elem_of_nil in Hl.
  - pose proof (clocked_spaced g Hg) as Hsp.
    assert (Hreset : forall tnow d, travelled (resetGame tnow d g)).
    { intros tnow d. apply loop_travelled.
      - apply reset_state_pool_inv.
      - simpl. lra.
      - simpl. lra.
      - intros l ob Hl. now apply elem_of_nil in Hl. }
    destruct e as [now d|tnow d|tnow d]; cbn [handle on_time] in *.
    + apply loop_travelled;
        [apply (sp_pool g Hsp)|apply (sp_speed g Hsp)|exact Hclock|exact IH].
    + unfold doJump. destruct (running g); cbn [negb]; [|apply Hreset].
      destruct (p_onGround (player g)); exact IH.
    + apply Hreset.
Qed.




Lemma clocked_on_course (g : Game) : clocked g -> on_course g.
Proof.
  intros Hg. split; [apply clocked_spaced, Hg|].
  split; [apply clocked_travelled, Hg|].
  apply reachable_in_step, clocked_reachable, Hg.
Qed.


(** ** What a restart leaves of the past *)

Lemma handle_player_color (e : Event) (g : Game) :
  p_color (player (handle e g)) = p_color (player g).
Proof.
  assert (Hstep : forall dt p, p_color (stepPlayer dt p) = p_color p).
  { intros dt p. unfold stepPlayer. now destruct (Qle_bool _ _). }
  assert (Hloop : forall now d g0,
             p_color (player (loop now d g0)) = p_color (player g0)).
  { intros now d g0. destruct (running g0) eqn:Hr.
    - rewrite loop_player by exact Hr. apply Hstep.
    - unfold loop. now rewrite Hr. }
  destruct e as [now d|tnow d|tnow d]; cbn [handle].
  - apply Hloop.
  - unfold doJump. destruct (running g); cbn [negb].
    + now destruct (p_onGround (player g)).
    + unfold resetGame. now rewrite Hloop.
  - unfold resetGame. now rewrite Hloop.
Qed.

Lemma reachable_player_color (g : Game) :
  reachable g -> p_color (player g) = "#ffd54a"%string.
Proof.
  induction 1 as [stored|e g _ IH _]; [reflexivity|].
  now rewrite handle_player_color.
Qed.

(** X26.  What a restart leaves depends on the timestamp, the random draws
    and the high score only: from any two reachable states with the same
    high score, [resetGame] gives the same picture and labels, and the same
    score, speed, countdown and player.  In particular a second restart
    right after the first, as the first key press causes, changes nothing
    that can be seen. *)
Theorem restart_forgets (tnow : Q) (d : Draws) (g1 g2 : Game) :
  reachable g1 -> reachable g2 -> valid_draws d ->
  highScore g1 = highScore g2 ->
  let r1 := resetGame tnow d g1 in
  let r2 := resetGame tnow d g2 in
  render r1 = render r2 /\
  score r1 = score r2 /\ speed r1 = speed r2 /\
  spawnTimer r1 = spawnTimer r2 /\ player r1 = player r2 /\
  running r1 = running r2.
Proof.
  intros H1 H2 Hd Hhs.
  pose proof (reachable_player_box g1 H1) as Hb1.
  pose proof (reachable_player_box g2 H2) as Hb2.
  pose proof (reachable_player_color g1 H1) as Hc1.
  pose proof (reachable_player_color g2 H2) as Hc2.
  cbv zeta.
  rewrite (resetGame_state tnow d g1 Hb1 Hd), (resetGame_state tnow d g2 Hb2 Hd).
  change (tick_dt tnow (reset_state tnow g2))
    with (tick_dt tnow (reset_state tnow g1)).
  destruct Hb1 as (-> & -> & ->). destruct Hb2 as (-> & -> & ->).
  rewrite Hc1, Hc2, Hhs.
  cbn [score speed spawnTimer player running].
  split; [|repeat split].
  unfold render, draw_obstacles.
  cbn [player heap obstacles running score highScore flat_map].
  rewrite !list_lookup_middle by reflexivity. reflexivity.
Qed.

(** ** Landing *)

Lemma stepPlayer_flight (dt T : Q) (p : Player) :
  0 <= dt -> 0 <= T ->
  landed p \/ in_flight T p ->
  landed (stepPlayer dt p) \/ in_flight (T + dt) (stepPlayer dt p).
Proof.
  intros Hdt HT Hp. unfold stepPlayer.
  destruct (Qle_bool groundY _) eqn:E; [left; repeat split|].
  apply Qle_bool_gt in E. right.
  assert (Hhalf : gravity / 2 == 800) by (unfold gravity; field).
  unfold in_flight in *. cbn [p_vy p_y]. rewrite Hhalf in *.
  unfold gravity in *.
  destruct Hp as [(_ & Hy & Hv)|(Hv & Hy & _)].
  - rewrite Hy, Hv in E. exfalso. nra.
  - split; [rewrite Hv; ring|]. split; [|left; exact E].
    rewrite Hv. rewrite Hv in E. nra.
Qed.

Lemma elapsed_nonneg (es : list Event) :
  forall g : Game, on_time_all es g = true -> 0 <= elapsed es g.
Proof.
  induction es as [|e es IH]; intros g Htime; cbn [elapsed]; [lra|].
  cbn [on_time_all] in Htime. apply andb_true_iff in Htime as [He Htime].
  specialize (IH _ Htime).
  destruct e as [now d| |]; [|lra|lra].
  apply Qle_bool_iff in He. pose proof (tick_dt_nonneg now g He).
  destruct (running g); lra.
Qed.

Lemma run_flight (es : list Event) :
  forall (g : Game) (T : Q),
    0 <= T -> running (run es g) = true ->
    forallb is_frame es = true -> on_time_all es g = true ->
    landed (player g) \/ in_flight T (player g) ->
    landed (player (run es g)) \/
    in_flight (T + elapsed es g) (player (run es g)).
Proof.
  induction es as [|e es IH]; intros g T HT Hrun Hfr Htime Hp.
  - cbn [run elapsed]. destruct Hp as [Hp|(Hv & Hy & Hlow)]; [now left|right].
    unfold in_flight. rewrite Qplus_0_r.
    split; [exact Hv|]. split; [exact Hy|].
    destruct Hlow; [now left|right; lra].
  - cbn [forallb] in Hfr. apply andb_true_iff in Hfr as [He Hfr].
    destruct e as [now d| |]; try discriminate.
    cbn [on_time_all] in Htime. apply andb_true_iff in Htime as [Hnow Htime].
    apply Qle_bool_iff in Hnow. cbn [run elapsed handle] in *.
    assert (Hg : running g = true).
    { destruct (running g) eqn:Hr; [reflexivity|].
      assert (E : loop now d g = g) by (unfold loop; now rewrite Hr).
      rewrite E, (run_idle_frames es g Hr Hfr) in Hrun. congruence. }
    rewrite Hg. pose proof (tick_dt_nonneg now g Hnow) as Hdt.
    assert (Hstep : landed (player (loop now d g)) \/
                    in_flight (T + tick_dt now g) (player (loop now d g))).
    { rewrite loop_player by exact Hg. now apply stepPlayer_flight. }
    destruct (IH (loop now d g) (T + tick_dt now g)) as [Hl|(Hv & Hy & Hlow)];
      [lra|exact Hrun|exact Hfr|exact Htime|exact Hstep|now left|right].
    unfold in_flight.
    set (E := elapsed es (loop now d g)) in *. clearbody E.
    set (dt := tick_dt now g) in *. clearbody dt.
    assert (HT' : T + (dt + E) == T + dt + E) by ring.
    split; [rewrite Hv; ring|]. split; [rewrite HT'; exact Hy|].
    destruct Hlow; [now left|right; lra].
Qed.

(** X27.  A jump lasts at most [0.9] s of game time: once the frames of a
    game that keeps running, arriving on time, have added up to that much
    since the jump, the player is back on the ground, at rest. *)
Theorem jump_lands (es : list Event) (g : Game) :
  p_y (player g) = groundY -> p_vy (player g) = -720 ->
  forallb is_frame es = true -> on_time_all es g = true ->
  running (run es g) = true -> 0.9 <= elapsed es g ->
  p_onGround (player (run es g)) = true /\
  p_y (player (run es g)) = groundY /\ p_vy (player (run es g)) = 0.
Proof.
  intros Hy Hv Hfr Htime Hrun HT.
  destruct (run_flight es g 0) as [Hl|(_ & Hh & Hlow)];
    [lra|exact Hrun|exact Hfr|exact Htime| |exact Hl|].
  - right. unfold in_flight, gravity. rewrite Hy, Hv.
    split; [ring|]. split; [|right]; lra.
  - exfalso.
    assert (Hhalf : gravity / 2 == 800) by (unfold gravity; field).
    rewrite Hhalf in Hh.
    set (E := elapsed es g) in *. clearbody E.
    destruct Hlow as [Hlow|Hlow]; [nra|lra].
Qed.

(** ** The further properties on sample executions *)

Lemma run_clocked (es : list Event) (g : Game) :
  clocked g -> Forall (fun e => valid_draws (event_draws e)) es ->
  on_time_all es g = true -> clocked (run es g).
Proof.
  revert g. induction es as [|e es IH]; intros g Hg Hes Htime; [exact Hg|].
  inversion Hes; subst. cbn [on_time_all] in Htime.
  apply andb_true_iff in Htime as [He Htime]. cbn [run].
  apply IH; [|assumption|exact Htime].
  apply clocked_step; [exact Hg|assumption|].
  destruct e; cbn [on_time]; [now apply Qle_bool_iff|exact I|exact I].
Qed.

Lemma sample_started_clocked : clocked sample_started.
Proof.
  apply run_clocked; [apply clocked_init| |reflexivity].
  repeat constructor; apply half_draws_valid.
Qed.

Lemma sample_two_clocked : clocked sample_two.
Proof.
  apply run_clocked; [apply sample_started_clocked| |vm_compute; reflexivity].
  unfold sample_frames. apply Forall_map, Forall_forall.
  intros k _. apply half_draws_valid.
Qed.

Lemma sample_recycled_reachable : reachable sample_recycled.
Proof.
  apply run_reachable; [apply sample_started_reachable|].
  repeat constructor; apply half_draws_valid.
Qed.

Lemma sample_started_running : running sample_started = true.
Proof. vm_compute. reflexivity. Qed.

Lemma sample_started_active : 0%nat ∈ obstacles sample_started.
Proof.
  assert (E : obstacles sample_started = [0%nat]) by (vm_compute; reflexivity).
  rewrite E. apply list_elem_of_singleton. reflexivity.
Qed.

Lemma sample_started_lookup :
  heap sample_started !! 0%nat = Some (obstacle_at sample_started 0%nat).
Proof. vm_compute. reflexivity. Qed.

Lemma sample_recycled_pooled : 0%nat ∈ obstaclePool sample_recycled.
Proof.
  assert (E : obstaclePool sample_recycled = [0%nat])
    by (vm_compute; reflexivity).
  rewrite E. apply list_elem_of_singleton. reflexivity.
Qed.

Lemma sample_two_before : before (obstacles sample_two) 0%nat 1%nat.
Proof.
  assert (E : obstacles sample_two = [0%nat; 1%nat])
    by (vm_compute; reflexivity).
  rewrite E. unfold before. reflexivity.
Qed.

Lemma sample_two_lookup (l : loc) :
  (l < 2)%nat -> heap sample_two !! l = Some (obstacle_at sample_two l).
Proof.
  intros Hl. destruct l as [|[|l]]; [vm_compute; reflexivity..|lia].
Qed.

Lemma sample_hit_on_course : on_course sample_hit.
Proof.
  split; [|split].
  - constructor; simpl.
    + split; simpl; [apply NoDup_singleton|repeat constructor].
    + lra.
    + repeat split.
    + intros _. lra.
    + intros l ob Hl%list_elem_of_singleton Hlk. subst l.
      injection Hlk as <-. unfold spawn_size, lead_ok, lead_min, baseW. simpl.
      repeat split; lra.
    + intros a b oa ob Hab. apply sublist_length in Hab. simpl in Hab. lia.
  - intros l ob Hl%list_elem_of_singleton Hlk. subst l.
    injection Hlk as <-. unfold baseW. simpl. lra.
  - exists 1%nat. cbn [score speed sample_hit].
    change (inject_Z (Z.of_nat 1)) with 1. lra.
Qed.

Lemma sample_hit_collides :
  0%nat ∈ obstacles (loop_head 5016 half_draws sample_hit) /\
  collides_at (tick_dt 5016 sample_hit) (loop_head 5016 half_draws sample_hit)
              0%nat = true.
Proof.
  split; [|vm_compute; reflexivity].
  assert (E : obstacles (loop_head 5016 half_draws sample_hit) = [0%nat])
    by (vm_compute; reflexivity).
  rewrite E. apply list_elem_of_singleton. reflexivity.
Qed.

Lemma loadHighScore_reads_String_witness :
  loadHighScore (Some (" " ++ String_of_JSInt (Int 12) ++ " points")%string)
  = Int 12.
Proof.
  assert (Hz : (Z.abs 12 <= 2 ^ 53)%Z) by (vm_compute; discriminate).
  destruct (loadHighScore_reads_String 12 " " " points" Hz eq_refl eq_refl)
    as [_ H].
  exact H.
Defined.

Lemma idle_frames_do_nothing_witness :
  run [Frame 16 half_draws; Frame 5000 half_draws] (init None) = init None.
Proof.
  exact (idle_frames_do_nothing [Frame 16 half_draws; Frame 5000 half_draws]
           (init None) eq_refl eq_refl).
Defined.

Lemma jump_bounded_witness : groundY - 162 <= p_y (player sample_airborne).
Proof.
  destruct (jump_bounded sample_airborne sample_airborne_reachable) as (H & _).
  exact H.
Defined.

Lemma grounded_stays_grounded_witness :
  p_y (player (run [Frame 1016 half_draws; Frame 1033 half_draws]
                   sample_started)) = groundY.
Proof.
  assert (Hon : p_onGround (player sample_started) = true)
    by (vm_compute; reflexivity).
  destruct (grounded_stays_grounded
              [Frame 1016 half_draws; Frame 1033 half_draws] sample_started
              sample_started_reachable Hon eq_refl) as (_ & H & _).
  exact H.
Defined.

Lemma spawn_recycles_witness :
  obstacles (spawnObstacle half_draws sample_recycled) =
  obstacles sample_recycled ++ [0%nat].
Proof.
  destruct (spawn_recycles half_draws sample_recycled
              (reachable_pool_inv _ sample_recycled_reachable)) as [Hreuse _].
  assert (Hp : obstaclePool sample_recycled = [] ++ [0%nat])
    by (vm_compute; reflexivity).
  destruct (Hreuse [] 0%nat Hp) as [H _]. exact H.
Defined.

Lemma active_obstacles_well_formed_witness :
  20 <= o_w (obstacle_at sample_started 0%nat).
Proof.
  destruct (active_obstacles_well_formed sample_started 0%nat
              (obstacle_at sample_started 0%nat) sample_started_reachable
              sample_started_active sample_started_lookup) as (H & _).
  exact H.
Defined.

Lemma pool_holds_off_screen_witness :
  exists ob, heap sample_recycled !! 0%nat = Some ob /\ o_x ob + o_w ob < -40.
Proof.
  exact (pool_holds_off_screen sample_recycled 0%nat
           sample_recycled_reachable sample_recycled_pooled).
Defined.

Lemma run_ends_on_collision_witness :
  running (loop 1016 half_draws sample_started) = false <->
  exists l, l ∈ obstacles (loop_head 1016 half_draws sample_started) /\
            collides_at (tick_dt 1016 sample_started)
                        (loop_head 1016 half_draws sample_started) l = true.
Proof.
  exact (run_ends_on_collision 1016 half_draws sample_started
           sample_started_reachable sample_started_running).
Defined.

Lemma running_means_no_overlap_witness :
  rectsOverlap (player sample_started) (obstacle_at sample_started 0%nat)
  = false.
Proof.
  exact (running_means_no_overlap sample_started 0%nat
           (obstacle_at sample_started 0%nat) sample_started_reachable
           sample_started_running sample_started_active sample_started_lookup).
Defined.

Lemma one_collision_per_frame_witness :
  collides_at (tick_dt 5016 sample_hit) (loop_head 5016 half_draws sample_hit)
              0%nat = true /\
  0%nat = 0%nat.
Proof.
  destruct sample_hit_on_course as (Hsp & _).
  destruct sample_hit_collides as [Hin Hc].
  assert (Hclock : lastTime sample_hit <= 5016).
  { vm_compute. discriminate. }
  split; [exact Hc|].
  exact (one_collision_per_frame 5016 half_draws sample_hit 0%nat 0%nat
           Hsp half_draws_valid Hclock Hin Hin Hc Hc).
Defined.

Lemma score_nonnegative_witness : 0 <= score sample_two.
Proof.
  destruct (score_nonnegative sample_two sample_two_clocked) as (H & _).
  exact H.
Defined.

Lemma obstacles_keep_distance_witness :
  o_x (obstacle_at sample_two 0%nat) + 111 <= o_x (obstacle_at sample_two 1%nat).
Proof.
  destruct (obstacles_keep_distance sample_two 0%nat 1%nat
              (obstacle_at sample_two 0%nat) (obstacle_at sample_two 1%nat)
              sample_two_clocked sample_two_before
              (sample_two_lookup 0%nat ltac:(lia))
              (sample_two_lookup 1%nat ltac:(lia))) as [H _].
  exact H.
Defined.

Lemma at_most_nine_objects_witness :
  (length (obstacles sample_two) + length (obstaclePool sample_two) <= 9)%nat.
Proof. exact (at_most_nine_objects sample_two sample_two_clocked). Defined.

Lemma restart_resets_run_witness :
  score (resetGame 2000 half_draws sample_airborne) == 0.
Proof.
  destruct (restart_resets_run 2000 half_draws sample_airborne
              sample_airborne_reachable half_draws_valid) as (H & _).
  exact H.
Defined.

Lemma collision_clearance_witness :
  rectsOverlap (player sample_started) (obstacle_at sample_started 0%nat)
  = true <->
  (o_x (obstacle_at sample_started 0%nat) < 120 /\
   80 < o_x (obstacle_at sample_started 0%nat) +
        o_w (obstacle_at sample_started 0%nat)) /\
  groundY - p_y (player sample_started) <
  o_h (obstacle_at sample_started 0%nat).
Proof.
  exact (collision_clearance sample_started 0%nat
           (obstacle_at sample_started 0%nat) sample_started_reachable
           sample_started_active sample_started_lookup).
Defined.

Lemma picture_vs_collision_witness :
  drawn_obstacle (obstacle_at sample_started 0%nat)
  ∈ rects (ops (render sample_started)).
Proof.
  destruct (picture_vs_collision sample_started 0%nat
              (obstacle_at sample_started 0%nat) sample_started_reachable
              sample_started_active sample_started_lookup) as (_ & H & _).
  exact H.
Defined.

Lemma drawn_inside_canvas_witness :
  260 < ry (drawn_obstacle (obstacle_at sample_started 0%nat)).
Proof.
  destruct (drawn_inside_canvas sample_started 0%nat
              (obstacle_at sample_started 0%nat) sample_started_reachable
              sample_started_active sample_started_lookup) as (_ & H & _).
  exact H.
Defined.

Lemma stall_is_one_step_witness :
  loop 1050 half_draws sample_started =
  with_lastTime 1050 (loop 9000 half_draws sample_started).
Proof.
  assert (H1 : lastTime sample_started + 33 < 1050) by (vm_compute; reflexivity).
  assert (H2 : lastTime sample_started + 33 < 9000) by (vm_compute; reflexivity).
  exact (stall_is_one_step 1050 9000 half_draws sample_started
           sample_started_running H1 H2).
Defined.


Lemma jump_lands_witness :
  p_onGround (player (run sample_flight sample_jumped)) = true.
Proof.
  assert (Hy : p_y (player sample_jumped) = groundY) by (vm_compute; reflexivity).
  assert (Hv : p_vy (player sample_jumped) = -720) by (vm_compute; reflexivity).
  assert (Htime : on_time_all sample_flight sample_jumped = true)
    by (vm_compute; reflexivity).
  assert (Hrun : running (run sample_flight sample_jumped) = true)
    by (vm_compute; reflexivity).
  assert (HT : 0.9 <= elapsed sample_flight sample_jumped).
  { vm_compute. discriminate. }
  destruct (jump_lands sample_flight sample_jumped Hy Hv eq_refl Htime Hrun HT)
    as (H & _).
  exact H.
Defined.

Lemma restart_reachable (tnow : Q) (d : Draws) (g : Game) :
  reachable g -> valid_draws d -> reachable (resetGame tnow d g).
Proof. intros Hg Hd. exact (reach_step (Restart tnow d) g Hg Hd). Qed.

Lemma restart_forgets_witness :
  render (resetGame 2000 half_draws sample_started) =
  render (resetGame 2000 half_draws
            (resetGame 1990 half_draws sample_started)).
Proof.
  pose proof (restart_reachable 1990 half_draws sample_started
                sample_started_reachable half_draws_valid) as Hr.
  assert (Hhs : highScore sample_started =
                highScore (resetGame 1990 half_draws sample_started))
    by (vm_compute; reflexivity).
  destruct (restart_forgets 2000 half_draws sample_started
              (resetGame 1990 half_draws sample_started)
              sample_started_reachable Hr half_draws_valid Hhs) as (H & _).
  exact H.
Defined.
